(** * The event-stream client of fabric-sdk-go (pkg/fab/events/consumer)

    A shallow embedding of [consumer.go]: the client structure, its
    constructor, the signed sender, the register handshake, the dispatch
    loop, [Start] with its secure-to-insecure retry and [Stop].

    Every collaborator the client talks to (gRPC connection and stream, the
    adapter, the identity, the signing manager, the configuration, the
    clock) is an oracle of the environment [Env].  An oracle sees the whole
    history of effects performed so far, so that two calls of one operation
    may answer differently.  Each call is appended to the history together
    with its answer. *)

From Stdlib Require Import ZArith List String Bool Lia Arith.
From Equations Require Import Equations.
Import ListNotations.

Set Implicit Arguments.

Local Open Scope string_scope.
Local Open Scope list_scope.
Local Open Scope Z_scope.

(** ** Errors: [io.EOF] and the constructors of github.com/pkg/errors *)

Module errors.

Inductive error : Type :=
| EOF                                        (* io.EOF *)
| New (msg : string)                         (* errors.New *)
| Wrap (cause : error) (msg : string)        (* errors.Wrap, cause not nil *)
| WithMessage (cause : error) (msg : string) (* errors.WithMessage *)
| Foreign (id : nat).                        (* an error value of a collaborator *)

(** [errors.Cause]: the innermost error of a chain. *)
Fixpoint Cause (e : error) : error :=
  match e with
  | Wrap c _ => Cause c
  | WithMessage c _ => Cause c
  | _ => e
  end.

(** The test [err == io.EOF]. *)
Definition isEOF (e : error) : bool :=
  match e with EOF => true | _ => false end.

End errors.
Import errors.

(** ** time.Duration: a count of nanoseconds *)

Module time.
Definition Duration := Z.
Definition Nanosecond : Duration := 1.
Definition Millisecond : Duration := 1000000.
Definition Second : Duration := 1000000000.
End time.

(** ** Data of the wire protocol and of the collaborators *)

Definition bytes := list nat.
Definition Interest := nat.
Definition Conn := nat.          (* a *grpc.ClientConn *)
Definition Stream := nat.        (* an ehpb.Events_ChatClient *)
Definition ChanRef := nat.       (* a chan struct{} *)
Definition Certificate := nat.   (* a *x509.Certificate *)
Definition TLSConf := nat.       (* a *tls.Config *)
Definition Timestamp := nat.

(** The oneof field [Event] of [ehpb.Event].  The client only tells
    [Register] and [Unregister] from the rest; the remaining variants of
    the protocol (block, chaincode event, rejection, filtered block) are
    [Event_Other]. *)
Inductive isEvent_Event : Type :=
| Event_Register (events : list Interest)
| Event_Unregister (events : list Interest)
| Event_Other (tag : nat).

Record Event : Type := mkEvent {
  Event_Event : option isEvent_Event;   (* nil when the oneof is unset *)
  Creator : bytes;
  TlsCertHash : bytes;
  Event_Timestamp : Timestamp
}.

Record SignedEvent : Type := mkSignedEvent {
  EventBytes : bytes;
  Signature : bytes
}.

Record Identity : Type := mkIdentity {
  identityRef : nat;
  PrivateKey : nat
}.

Record ClientParameters : Type := mkKap {   (* keepalive.ClientParameters *)
  kapTime : time.Duration;
  kapTimeout : time.Duration;
  PermitWithoutStream : bool
}.

Inductive DialOption : Type :=
| WithTimeout (d : time.Duration)
| WithTransportCredentials (c : TLSConf)
| WithInsecure
| WithKeepaliveParams (kap : ClientParameters)
| WithDefaultCallOptions_FailFast (failFast : bool).

Inductive LogLevel : Type := LError | LDebug.

(** The two arms of the [select] statements of [register] and [Stop]. *)
Inductive Arm : Type := ChanArm | TimerArm.

(** ** Effects *)

Inductive Effect : Type :=
| E_TLSConfig (r : error + TLSConf)
| E_DialContext (addr : string) (opts : list DialOption) (r : error + Conn)
| E_GetInterestedEvents (ies : list Interest) (err : option error)
| E_Chat (c : Conn) (r : error + Stream)
| E_SerializedIdentity (r : error + bytes)
| E_TimestampProto (r : error + Timestamp)
| E_Lock
| E_Unlock
| E_Marshal (m : Event) (r : error + bytes)
| E_SigningManager (present : bool)
| E_Sign (payload : bytes) (key : nat) (r : error + bytes)
| E_Send (s : Stream) (m : SignedEvent) (r : option error)
| E_Go_reader (s : Stream)                    (* go func() { ... Recv ... }() *)
| E_Recv (s : Stream) (r : error + Event)
| E_Select (a : Arm) (elapsed : time.Duration)
| E_CloseSend (s : Stream) (r : option error)
| E_ConnClose (c : Conn) (r : option error)
| E_AdapterRecv (m : Event) (cont : bool) (err : option error)
| E_Disconnected (err : option error)
| E_MakeChan (c : ChanRef)
| E_CloseChan (c : ChanRef)
| E_Go_processEvents
| E_Log (lvl : LogLevel) (msg : string).

Definition History := list Effect.

(** ** The environment *)

Record Env : Type := mkEnv {
  (* configuration and helpers outside consumer.go *)
  TimeoutOrDefault_EventHubConnection : time.Duration;
  TLSCertHash : bytes;                          (* ccomm.TLSCertHash(provider.Config()) *)
  AttemptSecured : string -> bool;              (* urlutil.AttemptSecured *)
  ToAddress : string -> string;                 (* urlutil.ToAddress *)
  (* transport *)
  TLSConfig : History -> option Certificate -> string -> error + TLSConf;
  DialContext : History -> string -> list DialOption -> error + Conn;
  Chat : History -> Conn -> error + Stream;
  StreamSend : History -> Stream -> SignedEvent -> option error;
  StreamRecv : History -> Stream -> error + Event;
  StreamCloseSend : History -> Stream -> option error;
  ConnClose : History -> Conn -> option error;
  (* identity, signing, serialisation, clock *)
  SerializedIdentity : History -> Identity -> error + bytes;
  TimestampProto : History -> error + Timestamp;
  Marshal : Event -> error + bytes;
  SigningManager : History -> bool;             (* false: SigningManager() is nil *)
  Sign : History -> bytes -> nat -> error + bytes;
  (* the adapter *)
  GetInterestedEvents : History -> list Interest * option error;
  AdapterRecv : History -> Event -> bool * option error;
  (* scheduling: how long the pending Recv of a handshake takes, how long
     the dispatch loop takes to close its completion channel ([None]:
     for ever), and which arm a select takes when both are ready *)
  RecvLatency : History -> option time.Duration;
  CompletionLatency : History -> option time.Duration;
  SelectTie : History -> bool
}.

(** ** The client structure *)

Record eventsClient : Type := mkClient {
  peerAddress : string;
  regTimeout : time.Duration;
  stream : option Stream;
  adapter : option nat;
  TLSCertificate : option Certificate;
  TLSServerHostOverride : string;
  tlsCertHash : bytes;
  clientConn : option Conn;
  identity : option Identity;
  processEventsCompleted : option ChanRef;
  kap : ClientParameters;
  failFast : bool;
  secured : bool;
  allowInsecure : bool
}.

Definition set_stream (s : option Stream) (ec : eventsClient) : eventsClient :=
  mkClient (peerAddress ec) (regTimeout ec) s (adapter ec) (TLSCertificate ec)
    (TLSServerHostOverride ec) (tlsCertHash ec) (clientConn ec) (identity ec)
    (processEventsCompleted ec) (kap ec) (failFast ec) (secured ec) (allowInsecure ec).

Definition set_clientConn (c : option Conn) (ec : eventsClient) : eventsClient :=
  mkClient (peerAddress ec) (regTimeout ec) (stream ec) (adapter ec) (TLSCertificate ec)
    (TLSServerHostOverride ec) (tlsCertHash ec) c (identity ec)
    (processEventsCompleted ec) (kap ec) (failFast ec) (secured ec) (allowInsecure ec).

Definition set_processEventsCompleted (c : option ChanRef) (ec : eventsClient) : eventsClient :=
  mkClient (peerAddress ec) (regTimeout ec) (stream ec) (adapter ec) (TLSCertificate ec)
    (TLSServerHostOverride ec) (tlsCertHash ec) (clientConn ec) (identity ec)
    c (kap ec) (failFast ec) (secured ec) (allowInsecure ec).

(** ** The machine state: the client, the channels, the history *)

Record State : Type := mkState {
  client : eventsClient;
  chans : list bool;        (* one flag per channel made so far: closed? *)
  hist : History
}.

(** A call returns a value or panics. *)
Inductive Res (A : Type) : Type :=
| Ok (a : A)
| Panic (msg : string).
Arguments Ok {A} a.
Arguments Panic {A} msg.

Definition M (A : Type) : Type := State -> State * Res A.

Definition ret {A} (a : A) : M A := fun s => (s, Ok a).

Definition bind {A B} (m : M A) (k : A -> M B) : M B :=
  fun s => match m s with
           | (s', Ok a) => k a s'
           | (s', Panic msg) => (s', Panic msg)
           end.

Declare Scope go_scope.
Delimit Scope go_scope with go.
Notation "x <- m ;; k" := (bind m (fun x => k))
  (at level 61, m at next level, right associativity) : go_scope.
Notation "m ;;; k" := (bind m (fun _ => k))
  (at level 61, right associativity) : go_scope.
Local Open Scope go_scope.

Definition panic {A} (msg : string) : M A := fun s => (s, Panic msg).

Definition nil_deref : string := "invalid memory address or nil pointer dereference".

Definition emit (e : Effect) : M unit :=
  fun s => (mkState (client s) (chans s) (hist s ++ [e]), Ok tt).

Definition getClient : M eventsClient := fun s => (s, Ok (client s)).

Definition modifyClient (f : eventsClient -> eventsClient) : M unit :=
  fun s => (mkState (f (client s)) (chans s) (hist s), Ok tt).

(** Ask an oracle, and record the call with its answer. *)
Definition call {A} (oracle : History -> A) (record : A -> Effect) : M A :=
  fun s => let r := oracle (hist s) in
           (mkState (client s) (chans s) (hist s ++ [record r]), Ok r).

(** [defer d; body]: [d] runs when [body] returns and also when it panics. *)
Definition defer {A} (d : M unit) (body : M A) : M A :=
  fun s => match body s with
           | (s', r) => match d s' with
                        | (s'', Ok _) => (s'', r)
                        | (s'', Panic msg) => (s'', Panic msg)
                        end
           end.

(** Channels.  [make] allocates an open channel; [close] of a nil or of a
    closed channel panics. *)
Definition makeChan : M ChanRef :=
  fun s => let c := List.length (chans s) in
           (mkState (client s) (chans s ++ [false]) (hist s ++ [E_MakeChan c]), Ok c).

Fixpoint set_closed (c : nat) (l : list bool) : list bool :=
  match l, c with
  | [], _ => []
  | _ :: t, O => true :: t
  | b :: t, S c' => b :: set_closed c' t
  end.

Definition closeChan (ch : option ChanRef) : M unit :=
  fun s => match ch with
           | None => (s, Panic "close of nil channel")
           | Some c =>
             match nth_error (chans s) c with
             | Some false =>
               (mkState (client s) (set_closed c (chans s)) (hist s ++ [E_CloseChan c]), Ok tt)
             | _ => (s, Panic "close of closed channel")
             end
           end.

(** The race of a channel against [time.After(d)].  [ready] is the time
    at which the channel becomes ready ([None]: never); the timer is ready
    at [max 0 d]; [tie] decides when both are ready at once.  The result
    is the arm taken and the time spent blocked. *)
Definition select_race (tie : bool) (ready : option time.Duration) (d : time.Duration)
  : Arm * time.Duration :=
  let T := Z.max 0 d in
  match ready with
  | None => (TimerArm, T)
  | Some t0 =>
    let t := Z.max 0 t0 in
    if t <? T then (ChanArm, t)
    else if T <? t then (TimerArm, T)
    else ((if tie then ChanArm else TimerArm), T)
  end.

Section Client.

Variable env : Env.

(** *** NewEventsClient *)

Definition NewEventsClient (ident : option Identity) (peerAddr : string)
    (certificate : option Certificate) (serverhostoverride : string)
    (regTimeout0 : time.Duration) (adapter0 : option nat)
    (kap0 : ClientParameters) (failFast0 allowInsecure0 : bool)
  : eventsClient * option error :=
  let '(regTimeout1, err) :=
    if regTimeout0 <? 100 * time.Millisecond then
      (100 * time.Millisecond, Some (New "regTimeout >= 0, setting to 100 msec"))
    else if 60 * time.Second <? regTimeout0 then
      (60 * time.Second, Some (New "regTimeout > 60, setting to 60 sec"))
    else (regTimeout0, None) in
  (mkClient peerAddr regTimeout1 None adapter0 certificate serverhostoverride
     (TLSCertHash env) None ident None kap0 failFast0
     (AttemptSecured env peerAddr) allowInsecure0,
   err).

(** *** newEventsClientConnectionWithAddress *)

Definition newEventsClientConnectionWithAddress (peerAddr : string)
    (cert : option Certificate) (serverHostOverride : string)
    (kap0 : ClientParameters) (failFast0 : bool) (secured0 : bool)
  : M (error + Conn) :=
  let opts := [WithTimeout (TimeoutOrDefault_EventHubConnection env)] in
  r <- (if secured0 then
          t <- call (fun h => TLSConfig env h cert serverHostOverride) E_TLSConfig ;;
          match t with
          | inl err => ret (inl err)
          | inr tlsConfig => ret (inr (opts ++ [WithTransportCredentials tlsConfig]))
          end
        else ret (inr (opts ++ [WithInsecure]))) ;;
  match r with
  | inl err => ret (inl err)
  | inr opts1 =>
    let opts2 := if 0 <? kapTime kap0 then opts1 ++ [WithKeepaliveParams kap0] else opts1 in
    let opts3 := opts2 ++ [WithDefaultCallOptions_FailFast failFast0] in
    let addr := ToAddress env peerAddr in
    call (fun h => DialContext env h addr opts3) (E_DialContext addr opts3)
  end.

(** *** send *)

Definition send (emsg : Event) : M (option error) :=
  emit E_Lock ;;;
  defer (emit E_Unlock)
    (ec <- getClient ;;
     let user := identity ec in
     m <- call (fun _ => Marshal env emsg) (E_Marshal emsg) ;;
     match m with
     | inl err => ret (Some (Wrap err "marshal event failed"))
     | inr payload =>
       mgr <- call (SigningManager env) E_SigningManager ;;
       if negb mgr then ret (Some (New "signing manager is nil"))
       else
         match user with
         | None => panic nil_deref
         | Some u =>
           sg <- call (fun h => Sign env h payload (PrivateKey u))
                      (E_Sign payload (PrivateKey u)) ;;
           match sg with
           | inl err => ret (Some (WithMessage err "sign failed"))
           | inr signature =>
             let signedEvt := mkSignedEvent payload signature in
             match stream ec with
             | None => panic nil_deref
             | Some st => call (fun h => StreamSend env h st signedEvt) (E_Send st signedEvt)
             end
           end
         end
     end).

(** *** RegisterAsync *)

Definition RegisterAsync (ies : list Interest) : M (option error) :=
  ec <- getClient ;;
  match identity ec with
  | None => ret (Some (New "identity context is nil"))
  | Some ident =>
    c <- call (fun h => SerializedIdentity env h ident) E_SerializedIdentity ;;
    match c with
    | inl err => ret (Some (WithMessage err "identity context identity retrieval failed"))
    | inr creator =>
      t <- call (TimestampProto env) E_TimestampProto ;;
      match t with
      | inl err => ret (Some (Wrap err "failed to create timestamp"))
      | inr ts =>
        let emsg := mkEvent (Some (Event_Register ies)) creator (tlsCertHash ec) ts in
        err <- send emsg ;;
        match err with
        | Some e => emit (E_Log LError "error on Register send") ;;; ret (Some e)
        | None => ret None
        end
      end
    end
  end.

(** *** register *)

(** The classification made by the reader goroutine of [register]. *)
Definition classify_register (r : error + Event) : option error :=
  match r with
  | inl inerr => Some inerr
  | inr msg =>
    match Event_Event msg with
    | Some (Event_Register _) => None
    | None => Some (New "nil object for register")
    | Some _ => Some (New "invalid object for register")
    end
  end.

(** The reader goroutine is started on the stream; its [Recv] returns
    after [RecvLatency]; the select races the close of [regChan] against
    [time.After(ec.regTimeout)].  When the channel arm is taken the
    goroutine has stored its classification in [err]; when the timer arm
    is taken [err] is overwritten by the timeout error and returned at
    once (the arm and the return are one step here). *)
Definition register (ies : list Interest) : M (option error) :=
  err <- RegisterAsync ies ;;
  match err with
  | Some e => ret (Some e)
  | None =>
    ec <- getClient ;;
    match stream ec with
    | None => panic nil_deref
    | Some st =>
      emit (E_Go_reader st) ;;;
      fun s =>
        let h := hist s in
        let '(arm, elapsed) := select_race (SelectTie env h) (RecvLatency env h) (regTimeout ec) in
        match arm with
        | ChanArm =>
          (r <- call (fun h => StreamRecv env h st) (E_Recv st) ;;
           emit (E_Select ChanArm elapsed) ;;;
           ret (classify_register r)) s
        | TimerArm =>
          (emit (E_Select TimerArm elapsed) ;;;
           ret (Some (New "register timeout"))) s
        end
    end
  end.

(** *** UnregisterAsync and Unregister *)

Definition UnregisterAsync (ies : list Interest) : M (option error) :=
  ec <- getClient ;;
  match identity ec with
  | None => ret (Some (New "identity context is required"))
  | Some ident =>
    c <- call (fun h => SerializedIdentity env h ident) E_SerializedIdentity ;;
    match c with
    | inl err => ret (Some (WithMessage err "user context identity retrieval failed"))
    | inr creator =>
      t <- call (TimestampProto env) E_TimestampProto ;;
      match t with
      | inl err => ret (Some (Wrap err "failed to create timestamp"))
      | inr ts =>
        let emsg := mkEvent (Some (Event_Unregister ies)) creator (tlsCertHash ec) ts in
        err <- send emsg ;;
        match err with
        | Some e => ret (Some (Wrap e "unregister send failed"))
        | None => ret None
        end
      end
    end
  end.

Definition classify_unregister (r : error + Event) : option error :=
  match r with
  | inl inerr => Some inerr
  | inr msg =>
    match Event_Event msg with
    | Some (Event_Unregister _) => None
    | None => Some (New "nil object for unregister")
    | Some _ => Some (New "invalid object for unregister")
    end
  end.

Definition Unregister (ies : list Interest) : M (option error) :=
  err <- UnregisterAsync ies ;;
  match err with
  | Some e => ret (Some e)
  | None =>
    ec <- getClient ;;
    match stream ec with
    | None => panic nil_deref
    | Some st =>
      emit (E_Go_reader st) ;;;
      fun s =>
        let h := hist s in
        let '(arm, elapsed) := select_race (SelectTie env h) (RecvLatency env h) (regTimeout ec) in
        match arm with
        | ChanArm =>
          (r <- call (fun h => StreamRecv env h st) (E_Recv st) ;;
           emit (E_Select ChanArm elapsed) ;;;
           ret (classify_unregister r)) s
        | TimerArm =>
          (emit (E_Select TimerArm elapsed) ;;;
           ret (Some (New "unregister timeout"))) s
        end
    end
  end.

(** *** Recv and processEvents *)

(** [if ec.adapter != nil { ec.adapter.Disconnected(err) }] *)
Definition notifyDisconnected (ec : eventsClient) (err : option error) : M unit :=
  match adapter ec with
  | Some _ => emit (E_Disconnected err)
  | None => ret tt
  end.

Definition Recv : M (option Event * option error) :=
  ec <- getClient ;;
  match stream ec with
  | None => panic nil_deref
  | Some st =>
    r <- call (fun h => StreamRecv env h st) (E_Recv st) ;;
    match r with
    | inl err =>
      if isEOF err then notifyDisconnected ec None ;;; ret (None, Some err)
      else notifyDisconnected ec (Some err) ;;; ret (None, Some err)
    | inr in_ => ret (Some in_, None)
    end
  end.

(** One turn of the [for] loop of [processEvents]: [Some r] when the turn
    executes [return r], [None] when the loop goes round again. *)
Definition processEvents_turn : M (option (option error)) :=
  ec <- getClient ;;
  match stream ec with
  | None => panic nil_deref
  | Some st =>
    r <- call (fun h => StreamRecv env h st) (E_Recv st) ;;
    match r with
    | inl err =>
      if isEOF err then notifyDisconnected ec None ;;; ret (Some None)
      else notifyDisconnected ec (Some err) ;;; ret (Some (Some err))
    | inr in_ =>
      match adapter ec with
      | Some _ =>
        a <- call (fun h => AdapterRecv env h in_)
                  (fun a => E_AdapterRecv in_ (fst a) (snd a)) ;;
        if negb (fst a) then ret (Some (snd a)) else ret None
      | None => ret None
      end
    end
  end.

(** The loop, run for at most [fuel] turns; [None]: still receiving. *)
Fixpoint processEvents_for (fuel : nat) : M (option (option error)) :=
  match fuel with
  | O => ret None
  | S n =>
    r <- processEvents_turn ;;
    match r with
    | Some e => ret (Some e)
    | None => processEvents_for n
    end
  end.

(** [processEvents]: both deferred calls take their operand when the
    [defer] statement runs; on return [close] runs first, [CloseSend]
    second.  While the loop is still receiving nothing deferred has run. *)
Definition processEvents (fuel : nat) : M (option (option error)) :=
  ec <- getClient ;;
  match stream ec with
  | None => panic nil_deref
  | Some st =>
    let ch := processEventsCompleted ec in
    fun s =>
      match processEvents_for fuel s with
      | (s', Ok None) => (s', Ok None)
      | (s', r) =>
        defer (call (fun h => StreamCloseSend env h st) (E_CloseSend st) ;;; ret tt)
          (defer (closeChan ch) (fun s0 => (s0, r))) s'
      end
  end.

(** *** establishConnectionAndRegister and Start *)

Equations establishConnectionAndRegister (secured0 : bool) (s : State)
  : State * Res (option error) by wf (Nat.b2n secured0) lt :=
establishConnectionAndRegister secured0 s
    with newEventsClientConnectionWithAddress (peerAddress (client s))
           (TLSCertificate (client s)) (TLSServerHostOverride (client s))
           (kap (client s)) (failFast (client s)) secured0 s => {
  | (s1, Panic msg) => (s1, Panic msg);
  | (s1, Ok (inl err)) => (s1, Ok (Some (WithMessage err "events connection failed")));
  | (s1, Ok (inr conn))
      with (modifyClient (set_clientConn (Some conn)) ;;;
            ec <- getClient ;;
            match adapter ec with
            | None => panic nil_deref
            | Some _ => call (GetInterestedEvents env)
                             (fun r => E_GetInterestedEvents (fst r) (snd r))
            end) s1 => {
    | (s2, Panic msg) => (s2, Panic msg);
    | (s2, Ok (_, Some err)) =>
        (s2, Ok (Some (Wrap err "interested events retrieval failed")));
    | (s2, Ok ([], None)) => (s2, Ok (Some (New "interested events is required")));
    | (s2, Ok (ie :: ies', None))
        with (r <- call (fun h => Chat env h conn) (E_Chat conn) ;;
              modifyClient (set_stream (match r with inr st => Some st | inl _ => None end)) ;;;
              ret r) s2 => {
      | (s3, Panic msg) => (s3, Panic msg);
      | (s3, Ok (inl err))
          with emit (E_Log LError "events connection failed, cause: ") s3 => {
        | (s4, _) with secured0, allowInsecure (client s4) => {
          | true, true =>
              establishConnectionAndRegister false
                (fst (emit (E_Log LDebug
                   "Secured establishConnectionAndRegister failed, attempting insecured") s4));
          | _, _ => (s4, Ok (Some (Wrap err "events connection failed"))) } };
      | (s3, Ok (inr _)) =>
          (err <- register (ie :: ies') ;;
           match err with
           | Some e => ret (Some e)
           | None =>
             c <- makeChan ;;
             modifyClient (set_processEventsCompleted (Some c)) ;;;
             emit E_Go_processEvents ;;;
             ret None
           end) s3 } } }.

Definition Start : M (option error) :=
  fun s => establishConnectionAndRegister (secured (client s)) s.

(** *** Stop *)

(** When the completion channel becomes ready for the receive of [Stop]:
    a nil channel never is, a closed one is at once, an open one when
    the dispatch loop closes it. *)
Definition completion_ready (s : State) : option time.Duration :=
  match processEventsCompleted (client s) with
  | None => None
  | Some c =>
    match nth_error (chans s) c with
    | Some true => Some 0
    | _ => CompletionLatency env (hist s)
    end
  end.

Definition Stop : M (option error) :=
  ec <- getClient ;;
  match stream ec with
  | None => ret None
  | Some st =>
    err <- call (fun h => StreamCloseSend env h st) (E_CloseSend st) ;;
    match err with
    | Some e => ret (Some e)
    | None =>
      timeoutErr <-
        (fun s =>
           let '(arm, elapsed) :=
             select_race (SelectTie env (hist s)) (completion_ready s)
                         (TimeoutOrDefault_EventHubConnection env) in
           (emit (E_Select arm elapsed) ;;;
            ret (match arm with
                 | ChanArm => None
                 | TimerArm => Some (New "close event stream timeout")
                 end)) s) ;;
      ec' <- getClient ;;
      match clientConn ec' with
      | Some conn =>
        cerr <- call (fun h => ConnClose env h conn) (E_ConnClose conn) ;;
        match cerr with
        | Some e => ret (Some e)
        | None => ret timeoutErr
        end
      | None => ret timeoutErr
      end
    end
  end.

End Client.

(** ** What a call added to the history *)

Definition new_effects (s s' : State) : list Effect :=
  skipn (List.length (hist s)) (hist s').

Definition is_send (e : Effect) : bool :=
  match e with E_Send _ _ _ => true | _ => false end.

Definition is_retry_log (e : Effect) : bool :=
  match e with E_Log LDebug _ => true | _ => false end.

Definition is_chat_failure (e : Effect) : bool :=
  match e with E_Chat _ (inl _) => true | _ => false end.

Definition is_insecure_dial (e : Effect) : bool :=
  match e with
  | E_DialContext _ opts _ =>
    existsb (fun o => match o with WithInsecure => true | _ => false end) opts
  | _ => false
  end.

Definition is_dial (e : Effect) : bool :=
  match e with E_DialContext _ _ _ => true | _ => false end.

Definition is_close_chan (e : Effect) : bool :=
  match e with E_CloseChan _ => true | _ => false end.

Definition is_recv (e : Effect) : bool :=
  match e with E_Recv _ _ => true | _ => false end.

Definition is_select (e : Effect) : bool :=
  match e with E_Select _ _ => true | _ => false end.

Definition is_conn_close (e : Effect) : bool :=
  match e with E_ConnClose _ _ => true | _ => false end.

Definition count (p : Effect -> bool) (l : list Effect) : nat :=
  List.length (filter p l).

(** The number of retries of a [Start]: the retry is announced in the log. *)
Definition retries (l : list Effect) : nat := count is_retry_log l.

Definition register_timeout : error := New "register timeout".
Definition close_timeout : error := New "close event stream timeout".

(** ** Concurrent callers of [send]

    [register], [Unregister] and the asynchronous variants all reach the
    stream through [send].  Here several goroutines execute [send] on one
    client at the same time.  A goroutine advances one statement at a
    time; [ec.Lock()] can only be passed while the mutex is free.  The
    oracles see the history of all goroutines together. *)

Module Concurrent.

Inductive SendPC : Type :=
| AtLock                                           (* before ec.Lock() *)
| AtMarshal                                        (* before proto.Marshal *)
| AtSigningManager (payload : bytes)               (* before SigningManager() *)
| AtSign (payload : bytes)                         (* before Sign *)
| AtStreamSend (payload signature : bytes)         (* before ec.stream.Send *)
| AtUnlock (r : Res (option error))                (* returning: deferred Unlock *)
| Returned (r : Res (option error)).

Record Goroutine : Type := mkGo {
  emsg : Event;
  pc : SendPC
}.

Record Config : Type := mkConfig {
  mutex : option nat;                 (* the goroutine holding ec's lock *)
  goroutines : list Goroutine;
  trace : list (nat * Effect)         (* who did what, oldest first *)
}.

Definition history (c : Config) : History := map snd (trace c).

(** Between [Lock] and [Unlock]. *)
Definition in_critical (p : SendPC) : bool :=
  match p with
  | AtLock | Returned _ => false
  | _ => true
  end.

Fixpoint set_nth {A} (i : nat) (a : A) (l : list A) : list A :=
  match l, i with
  | [], _ => []
  | _ :: t, O => a :: t
  | x :: t, S i' => x :: set_nth i' a t
  end.

Section Steps.

Variable env : Env.
Variable ec : eventsClient.

(** The next statement of goroutine [i]: the new lock state, the new
    program point and the effect performed, if any; [None] when it
    cannot move (blocked in [Lock], or returned). *)
Definition next (i : nat) (c : Config) (g : Goroutine)
  : option (option nat * SendPC * list Effect) :=
  let h := history c in
  match pc g with
  | AtLock =>
    match mutex c with
    | None => Some (Some i, AtMarshal, [E_Lock])
    | Some _ => None
    end
  | AtMarshal =>
    let m := Marshal env (emsg g) in
    Some (mutex c,
          match m with
          | inl err => AtUnlock (Ok (Some (Wrap err "marshal event failed")))
          | inr payload => AtSigningManager payload
          end,
          [E_Marshal (emsg g) m])
  | AtSigningManager payload =>
    let mgr := SigningManager env h in
    Some (mutex c,
          if negb mgr then AtUnlock (Ok (Some (New "signing manager is nil")))
          else AtSign payload,
          [E_SigningManager mgr])
  | AtSign payload =>
    match identity ec with
    | None => Some (mutex c, AtUnlock (Panic nil_deref), [])
    | Some u =>
      let sg := Sign env h payload (PrivateKey u) in
      Some (mutex c,
            match sg with
            | inl err => AtUnlock (Ok (Some (WithMessage err "sign failed")))
            | inr signature => AtStreamSend payload signature
            end,
            [E_Sign payload (PrivateKey u) sg])
    end
  | AtStreamSend payload signature =>
    match stream ec with
    | None => Some (mutex c, AtUnlock (Panic nil_deref), [])
    | Some st =>
      let signedEvt := mkSignedEvent payload signature in
      let r := StreamSend env h st signedEvt in
      Some (mutex c, AtUnlock (Ok r), [E_Send st signedEvt r])
    end
  | AtUnlock r => Some (None, Returned r, [E_Unlock])
  | Returned _ => None
  end.

Definition step_of (i : nat) (c : Config) : option Config :=
  match nth_error (goroutines c) i with
  | None => None
  | Some g =>
    match next i c g with
    | None => None
    | Some (m, p, es) =>
      Some (mkConfig m (set_nth i (mkGo (emsg g) p) (goroutines c))
                     (trace c ++ map (pair i) es))
    end
  end.

Inductive step (c c' : Config) : Prop :=
| step_intro (i : nat) : step_of i c = Some c' -> step c c'.

(** The executions of callers that all start before [Lock]. *)
Definition initial (msgs : list Event) : Config :=
  mkConfig None (map (fun m => mkGo m AtLock) msgs) [].

Inductive reachable (msgs : list Event) : Config -> Prop :=
| reach_init : reachable msgs (initial msgs)
| reach_step c c' : reachable msgs c -> step c c' -> reachable msgs c'.

(** A schedule: the goroutine to move at each step. *)
Fixpoint run (sched : list nat) (c : Config) : option Config :=
  match sched with
  | [] => Some c
  | i :: rest =>
    match step_of i c with
    | Some c' => run rest c'
    | None => None
    end
  end.

End Steps.

(** Reading a trace from the start with the lock state: [Lock] needs the
    lock free, every other effect of [send] needs the lock held by the
    goroutine that performs it.  [None]: the trace breaks the
    discipline. *)
Fixpoint scan (holder : option nat) (tr : list (nat * Effect)) : option (option nat) :=
  match tr with
  | [] => Some holder
  | (i, e) :: rest =>
    match e, holder with
    | E_Lock, None => scan (Some i) rest
    | E_Lock, Some _ => None
    | E_Unlock, Some j => if Nat.eqb i j then scan None rest else None
    | E_Unlock, None => None
    | _, Some j => if Nat.eqb i j then scan holder rest else None
    | _, None => None
    end
  end.

Definition serialized (tr : list (nat * Effect)) : Prop :=
  exists holder, scan None tr = Some holder.

(** The envelopes written on the wire, in order, with their writers. *)
Definition wire (tr : list (nat * Effect)) : list (nat * SignedEvent) :=
  flat_map (fun x => match snd x with
                     | E_Send _ m _ => [(fst x, m)]
                     | _ => []
                     end) tr.

End Concurrent.

(** [s1] is [s] with [l] added to the history. *)
Definition frame (s s1 : State) (l : list Effect) : Prop :=
  client s1 = client s /\ chans s1 = chans s /\ hist s1 = hist s ++ l.

(** ** Kinds of effects *)

Definition transport_effect (e : Effect) : bool :=
  match e with
  | E_TLSConfig _ | E_DialContext _ _ _ => true
  | _ => false
  end.

Definition handshake_effect (e : Effect) : bool :=
  match e with
  | E_SerializedIdentity _ | E_TimestampProto _ | E_Lock | E_Unlock
  | E_Marshal _ _ | E_SigningManager _ | E_Sign _ _ _ | E_Send _ _ _
  | E_Go_reader _ | E_Recv _ _ | E_Select _ _ | E_Log LError _ => true
  | _ => false
  end.

Definition is_interests (e : Effect) : bool :=
  match e with E_GetInterestedEvents _ _ => true | _ => false end.

(** One turn of the loop only receives and tells the adapter. *)
Definition dispatch_effect (e : Effect) : bool :=
  match e with
  | E_Recv _ _ | E_AdapterRecv _ _ _ | E_Disconnected _ => true
  | _ => false
  end.

(** The state in which [Stop] waits, after a successful [CloseSend]. *)
Definition draining (s : State) (st : Stream) : State :=
  mkState (client s) (chans s) (hist s ++ [E_CloseSend st None]).

(** ** One pass through the body of [establishConnectionAndRegister] *)

Definition retry_log : Effect :=
  E_Log LDebug "Secured establishConnectionAndRegister failed, attempting insecured".

(** The client as a successful [Start] leaves it: stream, connection,
    adapter, and a fresh open completion channel. *)
Definition dispatching (s : State) : Prop :=
  exists st conn a c,
    stream (client s) = Some st /\ clientConn (client s) = Some conn /\
    adapter (client s) = Some a /\ processEventsCompleted (client s) = Some c /\
    nth_error (chans s) c = Some false.

(** A pass that returns: [l] is what it added to the history. *)
Definition final_attempt (secured0 : bool) (s : State)
    (out : State * Res (option error)) (l : list Effect) : Prop :=
  hist (fst out) = hist s ++ l /\
  retries l = 0%nat /\
  existsb is_insecure_dial l = (negb secured0 && existsb is_dial l)%bool /\
  (secured0 = false -> existsb is_dial l = true) /\
  (existsb is_chat_failure l = true ->
     (secured0 && allowInsecure (client s))%bool = false /\
     exists conn e, In (E_Chat conn (inl e)) l /\
                    snd out = Ok (Some (Wrap e "events connection failed"))) /\
  (forall ies e, In (E_GetInterestedEvents ies (Some e)) l ->
     snd out = Ok (Some (Wrap e "interested events retrieval failed")) /\
     existsb is_send l = false) /\
  (In (E_GetInterestedEvents [] None) l ->
     snd out = Ok (Some (New "interested events is required")) /\
     existsb is_send l = false) /\
  (snd out <> Ok None ->
     processEventsCompleted (client (fst out)) = processEventsCompleted (client s) /\
     chans (fst out) = chans s) /\
  (snd out = Ok None -> dispatching (fst out)).

(** A pass that retries: [pre] is what it added before the retry was
    logged, [s4] the state in which the body is entered again. *)
Definition retrying_attempt (s : State) (pre : list Effect) (s4 : State) : Prop :=
  hist s4 = hist s ++ pre ++ [retry_log] /\
  retries pre = 0%nat /\
  existsb is_chat_failure pre = true /\
  existsb is_send pre = false /\
  existsb is_insecure_dial pre = false /\
  (forall ies e, In (E_GetInterestedEvents ies e) pre -> ies <> [] /\ e = None) /\
  chans s4 = chans s /\
  processEventsCompleted (client s4) = processEventsCompleted (client s) /\
  allowInsecure (client s4) = allowInsecure (client s).

(** ** The handshake and the shutdown as the specification words them *)

(** The two outcomes the specification lists for [register] once the
    asynchronous send has succeeded: a message arrives before the timer and
    is classified, or the timer fires first. *)
Definition register_two_outcomes (env : Env) (ies : list Interest) (s : State) : Prop :=
  forall s1 st,
    RegisterAsync env ies s = (s1, Ok None) ->
    stream (client s1) = Some st ->
    let h := hist s1 ++ [E_Go_reader st] in
    let arm := fst (select_race (SelectTie env h) (RecvLatency env h)
                                (regTimeout (client s1))) in
    let result := snd (register env ies s) in
    (exists msg,
        arm = ChanArm /\ StreamRecv env h st = inr msg /\
        result = Ok (match Event_Event msg with
                     | Some (Event_Register _) => None
                     | None => Some (New "nil object for register")
                     | Some _ => Some (New "invalid object for register")
                     end))
    \/ (arm = TimerArm /\ result = Ok (Some register_timeout)).

(** The dispatch loop never closes the completion channel of [s]. *)
Definition never_completes (env : Env) (s : State) : Prop :=
  (forall h, CompletionLatency env h = None) /\
  (forall c, processEventsCompleted (client s) = Some c ->
             nth_error (chans s) c = Some false).

(** [Stop] on an established stream whose dispatch loop does not complete,
    as the specification words it: the connection is closed, and the
    shutdown timeout is returned unless closing the connection fails. *)
Definition Stop_closes_and_times_out (env : Env) (s : State) : Prop :=
  forall st conn,
    stream (client s) = Some st ->
    clientConn (client s) = Some conn ->
    never_completes env s ->
    existsb is_conn_close (new_effects s (fst (Stop env s))) = true /\
    (snd (Stop env s) = Ok (Some close_timeout) \/
     exists e, In (E_ConnClose conn (Some e)) (new_effects s (fst (Stop env s))) /\
               snd (Stop env s) = Ok (Some e)).

(** [Stop] after a [Start] that failed in the handshake, as worded: the
    completion channel is nil, [Stop] waits the whole shutdown timeout and
    returns the timeout error. *)
Definition Stop_after_failed_handshake_times_out (env : Env) (s : State) : Prop :=
  forall s1 e st,
    processEventsCompleted (client s) = None ->
    Start env s = (s1, Ok (Some e)) ->
    stream (client s1) = Some st ->
    processEventsCompleted (client s1) = None /\
    In (E_Select TimerArm (Z.max 0 (TimeoutOrDefault_EventHubConnection env)))
       (new_effects s1 (fst (Stop env s1))) /\
    snd (Stop env s1) = Ok (Some close_timeout).

(** ** Concrete environments and clients *)

Module Scenario.

Definition ack : Event := mkEvent (Some (Event_Register [])) [] [] 0%nat.
Definition block : Event := mkEvent (Some (Event_Other 0)) [] [] 0%nat.
Definition unset : Event := mkEvent None [] [] 0%nat.

Definition ident0 : Identity := mkIdentity 0 11.
Definition kap0 : ClientParameters := mkKap 0 0 false.

(** An environment in which everything not listed succeeds. *)
Definition env_of (T : time.Duration)
    (chat : History -> error + Stream)
    (recv : History -> error + Event) (recvLat : option time.Duration)
    (closeSend connClose : option error)
    (interests : list Interest * option error)
    (adapterRecv : History -> bool * option error)
    (complLat : option time.Duration) : Env :=
  mkEnv T [5%nat] (fun _ => true) (fun a => a)
    (fun _ _ _ => inr 1%nat) (fun _ _ _ => inr 7%nat)
    (fun h _ => chat h) (fun _ _ _ => None) (fun h _ => recv h)
    (fun _ _ => closeSend) (fun _ _ => connClose)
    (fun _ _ => inr [1%nat]) (fun _ => inr 0%nat) (fun _ => inr [2%nat])
    (fun _ => true) (fun _ _ _ => inr [3%nat])
    (fun _ => interests) (fun h _ => adapterRecv h)
    (fun _ => recvLat) (fun _ => complLat) (fun _ => true).

Definition fresh (env : Env) (allowInsecure0 : bool) : State :=
  mkState (fst (NewEventsClient env (Some ident0) "grpcs://peer:7053" None ""
                  (3 * time.Second) (Some 0%nat) kap0 false allowInsecure0))
          [] [].

(** A client whose stream and connection are established and whose
    dispatch loop is running. *)
Definition started (env : Env) : State :=
  mkState (set_processEventsCompleted (Some 0%nat)
             (set_stream (Some 9%nat)
                (set_clientConn (Some 7%nat) (client (fresh env false)))))
          [false] [].

Definition chat_ok : History -> error + Stream := fun _ => inr 9%nat.

(** The stream cannot be opened the first time, and can the second. *)
Definition chat_second : History -> error + Stream :=
  fun h => if existsb is_chat_failure h then inr 9%nat else inl (Foreign 1).

Definition recv_ack : History -> error + Event := fun _ => inr ack.
Definition recv_eof : History -> error + Event := fun _ => inl EOF.

(** The acknowledgement, then one block, then the end of the stream. *)
Definition recv_script : History -> error + Event :=
  fun h => match count is_recv h with
           | O => inr ack
           | S O => inr block
           | _ => inl EOF
           end.

Definition adapter_continue : History -> bool * option error :=
  fun _ => (true, None).

Definition ms := time.Millisecond.

Definition env_ok : Env :=
  env_of (3 * time.Second) chat_ok recv_script (Some (5 * ms)) None None
         ([4%nat], None) adapter_continue None.

Definition env_recv_eof : Env :=
  env_of (3 * time.Second) chat_ok recv_eof (Some 0) None None
         ([4%nat], None) adapter_continue None.

Definition env_retry : Env :=
  env_of (3 * time.Second) chat_second recv_script (Some (5 * ms)) None None
         ([4%nat], None) adapter_continue None.

Definition env_no_interest : Env :=
  env_of (3 * time.Second) chat_ok recv_script (Some (5 * ms)) None None
         ([], None) adapter_continue None.

Definition env_close_send_fails : Env :=
  env_of (3 * time.Second) chat_ok recv_eof (Some 0) (Some (Foreign 2)) None
         ([4%nat], None) adapter_continue None.

End Scenario.

(** The invariant of the executions: the trace respects the lock, and a
    goroutine between [Lock] and [Unlock] is the holder of the lock. *)
Definition lock_invariant (c : Concurrent.Config) : Prop :=
  Concurrent.scan None (Concurrent.trace c) = Some (Concurrent.mutex c) /\
  (forall i g, nth_error (Concurrent.goroutines c) i = Some g ->
               Concurrent.in_critical (Concurrent.pc g) = true -> Concurrent.mutex c = Some i).

(** Two callers of [send] on one started client, and an execution in which
    the first has returned and the second holds the lock. *)
Module ConcurrentScenario.

Definition m1 : Event := mkEvent (Some (Event_Register [4%nat])) [1%nat] [5%nat] 0%nat.
Definition m2 : Event := mkEvent (Some (Event_Unregister [4%nat])) [1%nat] [5%nat] 1%nat.

Definition ec : eventsClient := client (Scenario.started Scenario.env_ok).

Definition schedule : list nat := [0; 0; 0; 0; 0; 0; 1; 1; 1; 1]%nat.

Definition final : Concurrent.Config :=
  match Concurrent.run Scenario.env_ok ec schedule (Concurrent.initial [m1; m2]) with
  | Some c => c
  | None => Concurrent.initial [m1; m2]
  end.

End ConcurrentScenario.

(** ** More kinds of effects *)

Definition is_lock_op (e : Effect) : bool :=
  match e with E_Lock | E_Unlock => true | _ => false end.

Definition is_sign (e : Effect) : bool :=
  match e with E_Sign _ _ _ => true | _ => false end.

Definition is_adapter_call (e : Effect) : bool :=
  match e with E_AdapterRecv _ _ _ | E_Disconnected _ => true | _ => false end.

Definition is_tls_config (e : Effect) : bool :=
  match e with E_TLSConfig _ => true | _ => false end.

Definition is_go_processEvents (e : Effect) : bool :=
  match e with E_Go_processEvents => true | _ => false end.

(** What [Stop] may do. *)
Definition stop_effect (e : Effect) : bool :=
  match e with
  | E_CloseSend _ _ | E_Select _ _ | E_ConnClose _ _ => true
  | _ => false
  end.

(** What [Start] may do: it opens, asks, registers, logs and spawns; it
    closes nothing. *)
Definition start_effect (e : Effect) : bool :=
  match e with
  | E_CloseSend _ _ | E_ConnClose _ _ | E_CloseChan _
  | E_AdapterRecv _ _ _ | E_Disconnected _ => false
  | _ => true
  end.

(** More environments. *)
Module Scenario2.

(** Nothing can be marshalled. *)
Definition env_marshal_fails : Env :=
  mkEnv (3 * time.Second) [5%nat] (fun _ => true) (fun a => a)
    (fun _ _ _ => inr 1%nat) (fun _ _ _ => inr 7%nat)
    (fun _ _ => inr 9%nat) (fun _ _ _ => None) (fun _ _ => inl EOF)
    (fun _ _ => None) (fun _ _ => None)
    (fun _ _ => inr [1%nat]) (fun _ => inr 0%nat)
    (fun _ => inl (Foreign 8)) (fun _ => true) (fun _ _ _ => inr [3%nat])
    (fun _ => ([4%nat], None)) (fun _ _ => (true, None))
    (fun _ => None) (fun _ => None) (fun _ => true).

(** The handshake ends with [io.EOF], and the connection cannot be
    closed. *)
Definition env_conn_close_fails : Env :=
  Scenario.env_of (3 * time.Second) Scenario.chat_ok Scenario.recv_eof (Some 0)
    None (Some (Foreign 3)) ([4%nat], None) Scenario.adapter_continue None.

End Scenario2.

(** What the asynchronous halves of the handshake may do: they never read
    from the stream and never wait. *)
Definition async_effect (e : Effect) : bool :=
  match e with
  | E_SerializedIdentity _ | E_TimestampProto _ | E_Lock | E_Unlock
  | E_Marshal _ _ | E_SigningManager _ | E_Sign _ _ _ | E_Send _ _ _
  | E_Log LError _ => true
  | _ => false
  end.

Module Scenario3.

(** The stream always has another block and the adapter always goes on,
    although it reports an error every time. *)
Definition env_endless : Env :=
  Scenario.env_of (3 * time.Second) Scenario.chat_ok
    (fun _ => inr Scenario.block) (Some 0) None None ([4%nat], None)
    (fun _ => (true, Some (Foreign 6))) None.

(** The dispatch loop completes after one second. *)
Definition env_graceful : Env :=
  Scenario.env_of (3 * time.Second) Scenario.chat_ok Scenario.recv_script
    (Some 0) None None ([4%nat], None) Scenario.adapter_continue
    (Some time.Second).

(** A client with stream and connection but no adapter. *)
Definition no_adapter (env : Env) : State :=
  mkState (mkClient "grpcs://peer:7053" (3 * time.Second) (Some 9%nat) None None ""
             [5%nat] (Some 7%nat) (Some Scenario.ident0) (Some 0%nat)
             Scenario.kap0 false true false)
          [false] [].

End Scenario3.

(** ** Progress of concurrent callers *)

(** The lock is held by a goroutine that is between [Lock] and [Unlock]. *)
Definition holder_invariant (c : Concurrent.Config) : Prop :=
  forall i, Concurrent.mutex c = Some i ->
            exists g, nth_error (Concurrent.goroutines c) i = Some g /\
                      Concurrent.in_critical (Concurrent.pc g) = true.

(** The statements a caller of [send] still has to execute, at most. *)
Definition remaining (p : Concurrent.SendPC) : nat :=
  match p with
  | Concurrent.AtLock => 6
  | Concurrent.AtMarshal => 5
  | Concurrent.AtSigningManager _ => 4
  | Concurrent.AtSign _ => 3
  | Concurrent.AtStreamSend _ _ => 2
  | Concurrent.AtUnlock _ => 1
  | Concurrent.Returned _ => 0
  end.

Definition total_remaining (c : Concurrent.Config) : nat :=
  list_sum (map (fun g => remaining (Concurrent.pc g)) (Concurrent.goroutines c)).

Definition has_returned (g : Concurrent.Goroutine) : bool :=
  match Concurrent.pc g with Concurrent.Returned _ => true | _ => false end.

(** ** The mock blocks of the test helpers (package mocks)

    [proto.Marshal] is a parameter, one function for each message type.
    A call returns or panics; a panic carries the error it was raised
    with, or nothing for a run-time error (nil dereference, index out of
    range). *)

Module mocks.

Inductive Outcome (A : Type) : Type :=
| Returns (a : A)
| Panics (cause : option error).
Arguments Returns {A} a.
Arguments Panics {A} cause.

Record TxInfo : Type := mkTxInfo {
TxID : string;
TxValidationCode : Z;        (* pb.TxValidationCode, an int32 *)
HeaderType : Z;              (* cb.HeaderType, an int32 *)
ChaincodeID : string;
EventName : string
}.

Record ChaincodeEvent : Type := mkChaincodeEvent {
ce_TxId : string;
ce_ChaincodeId : string;
ce_EventName : string
}.

Record ChaincodeAction : Type := mkChaincodeAction {
ca_ChaincodeId_Name : string;
ca_Events : bytes
}.

Record ProposalResponsePayload : Type := mkProposalResponsePayload {
prp_Extension : bytes
}.

Record ChaincodeActionPayload : Type := mkChaincodeActionPayload {
cap_Action_ProposalResponsePayload : bytes
}.

Record TransactionAction : Type := mkTransactionAction {
ta_Payload : bytes;
ta_Header : bytes
}.

Record Transaction : Type := mkTransaction {
Actions : list TransactionAction
}.

Record ChannelHeader : Type := mkChannelHeader {
ch_ChannelId : string;
ch_TxId : string;
ch_Type : Z
}.

Record Payload : Type := mkPayload {
p_Header_ChannelHeader : bytes;
p_Data : bytes
}.

Record Envelope : Type := mkEnvelope {
env_Payload : bytes
}.

Record Block : Type := mkBlock {
Metadata : list bytes;
Data : list bytes
}.

Record Proto : Type := mkProto {
marshalChaincodeEvent : ChaincodeEvent -> error + bytes;
marshalChaincodeAction : ChaincodeAction -> error + bytes;
marshalProposalResponsePayload : ProposalResponsePayload -> error + bytes;
marshalChaincodeActionPayload : ChaincodeActionPayload -> error + bytes;
marshalTransaction : Transaction -> error + bytes;
marshalChannelHeader : ChannelHeader -> error + bytes;
marshalPayload : Payload -> error + bytes;
marshalEnvelope : Envelope -> error + bytes
}.

(** [bytes, _ := proto.Marshal(m)]: the error is dropped; the bytes of a
  failed marshal are nil. *)
Definition bytes_or_nil (r : error + bytes) : bytes :=
match r with inl _ => [] | inr b => b end.

(** The conversion [uint8(code)] of an int32. *)
Definition uint8 (code : Z) : nat := Z.to_nat (code mod 256).

(** [s[i] = v] on a slice; [None]: index out of range. *)
Fixpoint store {A} (i : nat) (v : A) (l : list A) {struct l} : option (list A) :=
match l, i with
| [], _ => None
| _ :: t, O => Some (v :: t)
| x :: t, S i' => match store i' v t with
                  | Some t' => Some (x :: t')
                  | None => None
                  end
end.

Section Mocks.

Variable P : Proto.
(* cb.BlockMetadataIndex_TRANSACTIONS_FILTER *)
Variable TRANSACTIONS_FILTER : nat.

Definition newTxAction (txID ccID eventName : string) : Outcome TransactionAction :=
  let ccEvent := mkChaincodeEvent txID ccID eventName in
  match marshalChaincodeEvent P ccEvent with
  | inl err => Panics (Some err)
  | inr eventBytes =>
let chaincodeAction := mkChaincodeAction ccID eventBytes in
match marshalChaincodeAction P chaincodeAction with
| inl err => Panics (Some err)
| inr extBytes =>
  let prp := mkProposalResponsePayload extBytes in
  match marshalProposalResponsePayload P prp with
  | inl err => Panics (Some err)
  | inr prpBytes =>
    let cap := mkChaincodeActionPayload prpBytes in
    match marshalChaincodeActionPayload P cap with
    | inl err => Panics (Some err)
    | inr payloadBytes => Returns (mkTransactionAction payloadBytes [])
    end
  end
end
  end.

Definition newEnvelope (channelID : string) (txInfo : option TxInfo) : Outcome Envelope :=
  match txInfo with
  | None => Panics None
  | Some ti =>
match newTxAction (TxID ti) (ChaincodeID ti) (EventName ti) with
| Panics c => Panics c
| Returns action =>
  let tx := mkTransaction [action] in
  match marshalTransaction P tx with
  | inl err => Panics (Some err)
  | inr txBytes =>
    let channelHeader := mkChannelHeader channelID (TxID ti) (HeaderType ti) in
    let channelHeaderBytes := bytes_or_nil (marshalChannelHeader P channelHeader) in
    let payload := mkPayload channelHeaderBytes txBytes in
    let payloadBytes := bytes_or_nil (marshalPayload P payload) in
    Returns (mkEnvelope payloadBytes)
  end
end
  end.

(** The [for i, txInfo := range transactions] loop of [NewBlock], from
index [i] on. *)
Fixpoint NewBlock_loop (channelID : string) (transactions : list (option TxInfo))
(i : nat) (data : list bytes) (txValidationFlags : bytes)
  : Outcome (list bytes * bytes) :=
  match transactions with
  | [] => Returns (data, txValidationFlags)
  | txInfo :: rest =>
match newEnvelope channelID txInfo with
| Panics c => Panics c
| Returns e =>
  match marshalEnvelope P e with
  | inl err => Panics (Some err)
  | inr envBytes =>
    match txInfo with
    | None => Panics None
    | Some ti =>
      match store i (uint8 (TxValidationCode ti)) txValidationFlags with
      | None => Panics None
      | Some flags' => NewBlock_loop channelID rest (S i) (data ++ [envBytes]) flags'
      end
    end
  end
end
  end.

Definition NewBlock (channelID : string) (transactions : list (option TxInfo))
  : Outcome Block :=
  match NewBlock_loop channelID transactions 0 []
      (repeat 0%nat (List.length transactions)) with
  | Panics c => Panics c
  | Returns (data, txValidationFlags) =>
match store TRANSACTIONS_FILTER txValidationFlags (repeat [] 4) with
| None => Panics None
| Some blockMetaData => Returns (mkBlock blockMetaData data)
end
  end.

End Mocks.

(** A marshaller that always succeeds, and one that cannot marshal channel
  headers and payloads. *)
Definition proto_ok : Proto :=
mkProto (fun _ => inr [1%nat]) (fun _ => inr [2%nat]) (fun _ => inr [3%nat])
        (fun _ => inr [4%nat]) (fun _ => inr [5%nat]) (fun _ => inr [6%nat])
        (fun _ => inr [7%nat]) (fun e => inr (8%nat :: env_Payload e)).


Definition tx_valid : TxInfo := mkTxInfo "tx1" 0 3 "cc" "ev".
Definition tx_invalid : TxInfo := mkTxInfo "tx2" 258 3 "cc" "ev".

End mocks.

Unset Implicit Arguments.

(** * Proofs *)

(** ** The history only grows *)

Lemma new_effects_app (s : State) (c : eventsClient) (ch : list bool) (l : list Effect) :
  new_effects s (mkState c ch (hist s ++ l)) = l.
Proof.
  unfold new_effects; cbn [hist].
  rewrite skipn_app, skipn_all, Nat.sub_diag. reflexivity.
Qed.

Lemma new_effects_of (s s' : State) (l : list Effect) :
  hist s' = hist s ++ l -> new_effects s s' = l.
Proof.
  intros H. unfold new_effects. rewrite H.
  rewrite skipn_app, skipn_all, Nat.sub_diag. reflexivity.
Qed.

Lemma new_effects_refl (s : State) : new_effects s s = [].
Proof. apply new_effects_of. now rewrite app_nil_r. Qed.

Lemma count_app (p : Effect -> bool) (l1 l2 : list Effect) :
  count p (l1 ++ l2) = (count p l1 + count p l2)%nat.
Proof. unfold count. now rewrite filter_app, length_app. Qed.

(** Effects of one kind contain no effect of a disjoint kind. *)
Lemma forallb_disjoint (k p : Effect -> bool) (l : list Effect) :
  (forall e, k e = true -> p e = false) ->
  forallb k l = true -> filter p l = [].
Proof.
  intros D. induction l as [|e l IH]; cbn; [reflexivity|].
  intros H. apply andb_true_iff in H as [He Hl].
  rewrite (D e He). auto.
Qed.

(** ** The select statement *)

Lemma select_race_never (tie : bool) (d : time.Duration) :
  select_race tie None d = (TimerArm, Z.max 0 d).
Proof. reflexivity. Qed.

Lemma select_race_late (tie : bool) (t d : time.Duration) :
  Z.max 0 d < Z.max 0 t ->
  select_race tie (Some t) d = (TimerArm, Z.max 0 d).
Proof.
  intros H. unfold select_race.
  destruct (Z.ltb_spec (Z.max 0 t) (Z.max 0 d)); [lia|].
  destruct (Z.ltb_spec (Z.max 0 d) (Z.max 0 t)); [reflexivity|lia].
Qed.

Lemma select_race_early (tie : bool) (t d : time.Duration) :
  Z.max 0 t < Z.max 0 d ->
  select_race tie (Some t) d = (ChanArm, Z.max 0 t).
Proof.
  intros H. unfold select_race.
  destruct (Z.ltb_spec (Z.max 0 t) (Z.max 0 d)); [reflexivity|lia].
Qed.

(** The channel arm is only taken when the channel is ready no later than
    the timer; the timer arm only when the timer is ready no later than
    the channel. *)
Lemma select_race_chan (tie : bool) (ready : option time.Duration) (d el : time.Duration) :
  select_race tie ready d = (ChanArm, el) ->
  exists t, ready = Some t /\ Z.max 0 t <= Z.max 0 d /\ el = Z.max 0 t.
Proof.
  unfold select_race. destruct ready as [t|]; [|discriminate].
  destruct (Z.ltb_spec (Z.max 0 t) (Z.max 0 d)).
  - intros [= <-]. exists t. repeat split; lia.
  - destruct (Z.ltb_spec (Z.max 0 d) (Z.max 0 t)); [discriminate|].
    destruct tie; [|discriminate]. intros [= <-]. exists t. repeat split; lia.
Qed.

Lemma select_race_timer (tie : bool) (ready : option time.Duration) (d el : time.Duration) :
  select_race tie ready d = (TimerArm, el) ->
  el = Z.max 0 d /\
  (ready = None \/ exists t, ready = Some t /\ Z.max 0 d <= Z.max 0 t).
Proof.
  unfold select_race. destruct ready as [t|].
  - destruct (Z.ltb_spec (Z.max 0 t) (Z.max 0 d)); [discriminate|].
    destruct (Z.ltb_spec (Z.max 0 d) (Z.max 0 t)).
    + intros [= <-]. split; [reflexivity|]. right. exists t. split; [reflexivity|lia].
    + destruct tie; [discriminate|]. intros [= <-]. split; [reflexivity|].
      right. exists t. split; [reflexivity|lia].
  - intros [= <-]. auto.
Qed.

(** ** send, RegisterAsync and register leave the client and the channels alone *)

Ltac go_unfold :=
  unfold bind, call, emit, ret, getClient, modifyClient, panic, defer, makeChan in *;
  cbn [client chans hist fst snd] in *.

Ltac frame_solve :=
  unfold frame in *; cbn [client chans hist] in *;
  repeat match goal with
         | |- _ /\ _ => split
         | H : _ /\ _ |- _ => destruct H
         end;
  try discriminate; try congruence;
  try (repeat match goal with
              | H : hist ?x = _ |- _ => is_var x; rewrite H; clear H
              end;
       rewrite <- ?app_assoc; cbn [app]; reflexivity);
  try (cbn; rewrite ?forallb_app; cbn;
       repeat match goal with H : forallb _ _ = true |- _ => rewrite H end;
       reflexivity).

Lemma frame_refl (s : State) : frame s s [].
Proof. unfold frame. now rewrite app_nil_r. Qed.

Lemma frame_trans (s s1 s2 : State) (l1 l2 : list Effect) :
  frame s s1 l1 -> frame s1 s2 l2 -> frame s s2 (l1 ++ l2).
Proof.
  intros (A1 & A2 & A3) (B1 & B2 & B3). repeat split; try congruence.
  rewrite B3, A3. now rewrite app_assoc.
Qed.

Lemma frame_new_effects (s s1 : State) (l : list Effect) :
  frame s s1 l -> new_effects s s1 = l.
Proof. intros (_ & _ & H). now apply new_effects_of. Qed.

Lemma send_frame (env : Env) (m : Event) (s s1 : State) (r : Res (option error)) :
  send env m s = (s1, r) ->
  exists l, frame s s1 l /\ forallb handshake_effect l = true /\
            (r = Ok None -> exists st, stream (client s) = Some st).
Proof.
  unfold send. go_unfold.
  destruct (Marshal env m) as [e|payload]; cbn.
  { intros [= <- <-].
    exists [E_Lock; E_Marshal m (inl e); E_Unlock]. frame_solve. }
  destruct (SigningManager env _) eqn:Hm; cbn.
  2:{ intros [= <- <-].
      exists [E_Lock; E_Marshal m (inr payload); E_SigningManager false; E_Unlock].
      frame_solve. }
  destruct (identity (client s)) as [u|]; cbn.
  2:{ intros [= <- <-].
      exists [E_Lock; E_Marshal m (inr payload); E_SigningManager true; E_Unlock].
      frame_solve. }
  destruct (Sign env _ payload (PrivateKey u)) as [e|sg] eqn:Hsg; cbn.
  { intros [= <- <-].
    exists [E_Lock; E_Marshal m (inr payload); E_SigningManager true;
            E_Sign payload (PrivateKey u) (inl e); E_Unlock].
    frame_solve. }
  destruct (stream (client s)) as [st|]; cbn.
  2:{ intros [= <- <-].
      exists [E_Lock; E_Marshal m (inr payload); E_SigningManager true;
              E_Sign payload (PrivateKey u) (inr sg); E_Unlock].
      frame_solve. }
  intros [= <- <-].
  eexists [E_Lock; E_Marshal m (inr payload); E_SigningManager true;
          E_Sign payload (PrivateKey u) (inr sg); E_Send st _ _; E_Unlock].
  frame_solve. intros _. now exists st.
Qed.

Lemma RegisterAsync_frame (env : Env) (ies : list Interest) (s s1 : State)
    (r : Res (option error)) :
  RegisterAsync env ies s = (s1, r) ->
  exists l, frame s s1 l /\ forallb handshake_effect l = true /\
            (r = Ok None -> exists st, stream (client s) = Some st).
Proof.
  unfold RegisterAsync. unfold bind at 1. unfold getClient at 1.
  destruct (identity (client s)) as [ident|].
  2:{ cbn. intros [= <- <-]. exists []. split; [apply frame_refl|].
      split; [reflexivity|discriminate]. }
  unfold bind at 1. unfold call at 1.
  destruct (SerializedIdentity env (hist s) ident) as [e|creator].
  { cbn. intros [= <- <-]. exists [E_SerializedIdentity (inl e)]. frame_solve. }
  unfold bind at 1. unfold call at 1. cbn [hist client chans].
  destruct (TimestampProto env _) as [e|ts].
  { cbn. intros [= <- <-].
    exists [E_SerializedIdentity (inr creator); E_TimestampProto (inl e)]. frame_solve. }
  unfold bind at 1.
  destruct (send env _ _) as [s2 r2] eqn:Hs.
  apply send_frame in Hs as (l & F & Hl & Hst). cbn [client] in Hst.
  destruct r2 as [[e|]|msg]; cbn.
  - intros [= <- <-].
    exists (E_SerializedIdentity (inr creator) :: E_TimestampProto (inr ts) :: l
              ++ [E_Log LError "error on Register send"]).
    frame_solve.
  - intros [= <- <-].
    exists (E_SerializedIdentity (inr creator) :: E_TimestampProto (inr ts) :: l).
    frame_solve. assumption.
  - intros [= <- <-].
    exists (E_SerializedIdentity (inr creator) :: E_TimestampProto (inr ts) :: l).
    frame_solve.
Qed.

Lemma register_frame (env : Env) (ies : list Interest) (s s1 : State)
    (r : Res (option error)) :
  register env ies s = (s1, r) ->
  exists l, frame s s1 l /\ forallb handshake_effect l = true.
Proof.
  unfold register. unfold bind at 1.
  destruct (RegisterAsync env ies s) as [s2 r2] eqn:Hr.
  apply RegisterAsync_frame in Hr as (l & F & Hl & Hst).
  destruct r2 as [[e|]|msg].
  - cbn. intros [= <- <-]. exists l. auto.
  - destruct (Hst eq_refl) as [st Hs].
    assert (Hc : client s2 = client s) by apply F.
    unfold bind at 1. unfold getClient at 1. rewrite Hc, Hs.
    unfold bind at 1. unfold emit at 1. cbn [hist client chans].
    destruct (select_race _ _ _) as [[|] el].
    + go_unfold. intros [= <- <-].
      eexists (l ++ [E_Go_reader st; E_Recv st _; E_Select ChanArm el]).
      frame_solve.
    + go_unfold. intros [= <- <-].
      exists (l ++ [E_Go_reader st; E_Select TimerArm el]).
      frame_solve.
  - intros [= <- <-]. exists l. auto.
Qed.

(** ** The constructor *)

(** C5.  [NewEventsClient] clamps the registration timeout into
    [100ms, 60s]: below 100ms the client gets 100ms and an advisory error
    is returned with it, above 60s it gets 60s and an advisory error,
    otherwise the timeout is kept and the error is nil.  In every case the
    client returned is the client built from the clamped timeout, for which
    the constructor returns no error. *)
Theorem NewEventsClient_clamps_regTimeout (env : Env) (ident : option Identity)
    (addr : string) (cert : option Certificate) (host : string)
    (t : time.Duration) (ad : option nat) (k : ClientParameters) (ff ai : bool) :
  let ec := fst (NewEventsClient env ident addr cert host t ad k ff ai) in
  let err := snd (NewEventsClient env ident addr cert host t ad k ff ai) in
  (t < 100 * time.Millisecond ->
     regTimeout ec = 100 * time.Millisecond /\ err <> None) /\
  (60 * time.Second < t ->
     regTimeout ec = 60 * time.Second /\ err <> None) /\
  (100 * time.Millisecond <= t <= 60 * time.Second ->
     regTimeout ec = t /\ err = None) /\
  NewEventsClient env ident addr cert host (regTimeout ec) ad k ff ai = (ec, None).
Proof.
  unfold NewEventsClient, time.Millisecond, time.Second. cbn zeta.
  destruct (Z.ltb_spec t (100 * 1000000)) as [H1|H1].
  - cbn. repeat split; try lia; discriminate.
  - destruct (Z.ltb_spec (60 * 1000000000) t) as [H2|H2].
    + cbn. repeat split; try lia; discriminate.
    + cbn [fst snd regTimeout].
      destruct (Z.ltb_spec t (100 * 1000000)); [lia|].
      destruct (Z.ltb_spec (60 * 1000000000) t); [lia|].
      repeat split; lia.
Qed.

Lemma NewEventsClient_clamps_regTimeout_witness :
  regTimeout (fst (NewEventsClient Scenario.env_ok None "peer" None "" 5
                     None Scenario.kap0 false false)) = 100 * time.Millisecond /\
  regTimeout (fst (NewEventsClient Scenario.env_ok None "peer" None ""
                     (61 * time.Second) None Scenario.kap0 false false))
    = 60 * time.Second /\
  snd (NewEventsClient Scenario.env_ok None "peer" None "" (2 * time.Second)
         None Scenario.kap0 false false) = None.
Proof.
  split; [|split].
  - apply (NewEventsClient_clamps_regTimeout Scenario.env_ok None "peer" None "" 5
             None Scenario.kap0 false false). reflexivity.
  - apply (NewEventsClient_clamps_regTimeout Scenario.env_ok None "peer" None ""
             (61 * time.Second) None Scenario.kap0 false false). reflexivity.
  - apply (NewEventsClient_clamps_regTimeout Scenario.env_ok None "peer" None ""
             (2 * time.Second) None Scenario.kap0 false false).
    split; discriminate.
Defined.

(** A new client has no stream, no connection and no completion channel. *)
Lemma NewEventsClient_unstarted (env : Env) (ident : option Identity)
    (addr : string) (cert : option Certificate) (host : string)
    (t : time.Duration) (ad : option nat) (k : ClientParameters) (ff ai : bool) :
  let ec := fst (NewEventsClient env ident addr cert host t ad k ff ai) in
  stream ec = None /\ clientConn ec = None /\ processEventsCompleted ec = None.
Proof.
  unfold NewEventsClient.
  destruct (t <? _); [|destruct (_ <? t)]; cbn; auto.
Qed.

(** ** Stop *)

(** C7.  On a client that has no stream, [Stop] returns nil and changes
    nothing: the client, the channels and the history are the same, so no
    close-send, no wait and no connection close took place. *)
Theorem Stop_without_stream_is_noop (env : Env) (s : State) :
  stream (client s) = None ->
  Stop env s = (s, Ok None) /\ new_effects s (fst (Stop env s)) = [].
Proof.
  intros H. assert (E : Stop env s = (s, Ok None)).
  { unfold Stop. go_unfold. now rewrite H. }
  rewrite E. split; [reflexivity|apply new_effects_refl].
Qed.

Lemma Stop_without_stream_is_noop_witness :
  Stop Scenario.env_ok (Scenario.fresh Scenario.env_ok false)
    = (Scenario.fresh Scenario.env_ok false, Ok None) /\
  new_effects (Scenario.fresh Scenario.env_ok false)
    (fst (Stop Scenario.env_ok (Scenario.fresh Scenario.env_ok false))) = [].
Proof.
  apply (Stop_without_stream_is_noop Scenario.env_ok
           (Scenario.fresh Scenario.env_ok false)).
  reflexivity.
Defined.

(** C10.  When closing the send half fails, [Stop] returns that error at
    once: the only effect is the failed [CloseSend]; there is no wait for
    the dispatch loop and the connection is not closed, the connection
    handle of the client stays as it was. *)
Theorem Stop_returns_close_send_error (env : Env) (s : State) (st : Stream) (e : error) :
  stream (client s) = Some st ->
  StreamCloseSend env (hist s) st = Some e ->
  Stop env s = (mkState (client s) (chans s) (hist s ++ [E_CloseSend st (Some e)]),
                Ok (Some e)) /\
  new_effects s (fst (Stop env s)) = [E_CloseSend st (Some e)] /\
  existsb is_select (new_effects s (fst (Stop env s))) = false /\
  existsb is_conn_close (new_effects s (fst (Stop env s))) = false /\
  clientConn (client (fst (Stop env s))) = clientConn (client s).
Proof.
  intros Hs Hc.
  assert (E : Stop env s =
              (mkState (client s) (chans s) (hist s ++ [E_CloseSend st (Some e)]),
               Ok (Some e))).
  { unfold Stop. go_unfold. rewrite Hs. cbn. now rewrite Hc. }
  rewrite E. cbn [fst]. rewrite new_effects_app. cbn. auto.
Qed.

Lemma Stop_returns_close_send_error_witness :
  snd (Stop Scenario.env_close_send_fails
         (Scenario.started Scenario.env_close_send_fails)) = Ok (Some (Foreign 2)) /\
  existsb is_conn_close
    (new_effects (Scenario.started Scenario.env_close_send_fails)
       (fst (Stop Scenario.env_close_send_fails
               (Scenario.started Scenario.env_close_send_fails)))) = false.
Proof.
  destruct (Stop_returns_close_send_error Scenario.env_close_send_fails
              (Scenario.started Scenario.env_close_send_fails)
              9%nat (Foreign 2) eq_refl eq_refl)
    as (E & _ & _ & C & _).
  split; [now rewrite E | exact C].
Defined.

(** [Stop] when the timer arm is taken. *)
Lemma Stop_timer_arm (env : Env) (s : State) (st : Stream) (el : time.Duration) :
  stream (client s) = Some st ->
  StreamCloseSend env (hist s) st = None ->
  select_race (SelectTie env (hist (draining s st)))
              (completion_ready env (draining s st))
              (TimeoutOrDefault_EventHubConnection env) = (TimerArm, el) ->
  let h2 := hist s ++ [E_CloseSend st None; E_Select TimerArm el] in
  Stop env s =
    match clientConn (client s) with
    | Some conn =>
      (mkState (client s) (chans s) (h2 ++ [E_ConnClose conn (ConnClose env h2 conn)]),
       Ok (match ConnClose env h2 conn with
           | Some e => Some e
           | None => Some close_timeout
           end))
    | None => (mkState (client s) (chans s) h2, Ok (Some close_timeout))
    end.
Proof.
  intros Hs Hc Hr. cbn zeta.
  unfold Stop. go_unfold. rewrite Hs. cbn. rewrite Hc. cbn.
  unfold draining in Hr. cbn [hist] in Hr.
  unfold completion_ready in *. cbn [client chans hist] in *.
  rewrite Hr. cbn. rewrite <- !app_assoc. cbn [app].
  destruct (clientConn (client s)) as [conn|]; cbn; [|reflexivity].
  destruct (ConnClose env _ conn); reflexivity.
Qed.

(** C4, as amended.  On a client with an established stream and connection,
    when closing the send half succeeds and the dispatch loop does not
    signal completion within the shutdown timeout, [Stop] takes the timer
    arm after waiting the timeout, then closes the connection, and returns
    the error of that close if it fails and the shutdown timeout error
    otherwise. *)
Theorem Stop_drain_timeout_still_closes (env : Env) (s : State) (st : Stream) (conn : Conn) :
  stream (client s) = Some st ->
  clientConn (client s) = Some conn ->
  StreamCloseSend env (hist s) st = None ->
  match completion_ready env (draining s st) with
  | None => True
  | Some t => Z.max 0 (TimeoutOrDefault_EventHubConnection env) < Z.max 0 t
  end ->
  let h2 := hist s ++ [E_CloseSend st None;
                       E_Select TimerArm (Z.max 0 (TimeoutOrDefault_EventHubConnection env))] in
  Stop env s =
    (mkState (client s) (chans s) (h2 ++ [E_ConnClose conn (ConnClose env h2 conn)]),
     Ok (match ConnClose env h2 conn with
         | Some e => Some e
         | None => Some close_timeout
         end)).
Proof.
  intros Hs Hc Hcs Hlate. cbn zeta.
  rewrite (Stop_timer_arm env s st (Z.max 0 (TimeoutOrDefault_EventHubConnection env)) Hs Hcs).
  - now rewrite Hc.
  - destruct (completion_ready env (draining s st)) as [t|].
    + now apply select_race_late.
    + apply select_race_never.
Qed.

Lemma Stop_drain_timeout_still_closes_witness :
  Stop Scenario.env_ok (Scenario.started Scenario.env_ok) =
    (mkState (client (Scenario.started Scenario.env_ok)) [false]
       [E_CloseSend 9%nat None; E_Select TimerArm (3 * time.Second);
        E_ConnClose 7%nat None],
     Ok (Some close_timeout)).
Proof.
  exact (Stop_drain_timeout_still_closes Scenario.env_ok
           (Scenario.started Scenario.env_ok) 9%nat 7%nat eq_refl eq_refl eq_refl I).
Defined.

(** C4, as worded, fails: the send half cannot be closed, [Stop] returns
    that error and the connection is never closed. *)
Lemma Stop_closes_and_times_out_counterexample :
  ~ Stop_closes_and_times_out Scenario.env_close_send_fails
      (Scenario.started Scenario.env_close_send_fails).
Proof.
  intros H.
  destruct (H 9%nat 7%nat eq_refl eq_refl) as [C _].
  - split; [reflexivity|].
    intros c [= <-]. reflexivity.
  - vm_compute in C. discriminate.
Qed.

(** ** register *)

Lemma classify_register_cases (msg : Event) :
  (forall ies, Event_Event msg = Some (Event_Register ies) ->
               classify_register (inr msg) = None) /\
  (Event_Event msg = None ->
     classify_register (inr msg) = Some (New "nil object for register")) /\
  (forall v, Event_Event msg = Some v -> (forall ies, v <> Event_Register ies) ->
     classify_register (inr msg) = Some (New "invalid object for register")).
Proof.
  unfold classify_register. repeat split.
  - intros ies ->. reflexivity.
  - intros ->. reflexivity.
  - intros v -> Hv. destruct v; try reflexivity. now destruct (Hv events).
Qed.

(** [register] once the asynchronous send has succeeded. *)
Lemma register_after_send (env : Env) (ies : list Interest) (s s1 : State) (st : Stream) :
  RegisterAsync env ies s = (s1, Ok None) ->
  stream (client s1) = Some st ->
  let h := hist s1 ++ [E_Go_reader st] in
  register env ies s =
    match select_race (SelectTie env h) (RecvLatency env h) (regTimeout (client s1)) with
    | (ChanArm, el) =>
      (mkState (client s1) (chans s1)
         (h ++ [E_Recv st (StreamRecv env h st); E_Select ChanArm el]),
       Ok (classify_register (StreamRecv env h st)))
    | (TimerArm, el) =>
      (mkState (client s1) (chans s1) (h ++ [E_Select TimerArm el]),
       Ok (Some register_timeout))
    end.
Proof.
  intros Hr Hs. cbn zeta. unfold register. unfold bind at 1. rewrite Hr.
  unfold bind at 1. unfold getClient at 1. rewrite Hs.
  unfold bind at 1. unfold emit at 1. cbn [hist client chans].
  destruct (select_race _ _ _) as [[|] el]; go_unfold;
    rewrite <- ?app_assoc; reflexivity.
Qed.

(** C1, as amended.  Once the asynchronous send has succeeded, [register]
    ends in exactly one of three ways.  (a) A message arrives no later than
    the registration timeout and is classified: a Register acknowledgement
    gives nil, an unset variant gives "nil object for register", any other
    variant gives "invalid object for register".  (a') The receive of the
    stream fails no later than the timeout, and [register] returns that
    receive error.  (b) The timer fires first and [register] returns the
    timeout error. *)
Theorem register_three_outcomes (env : Env) (ies : list Interest) (s s1 : State) (st : Stream) :
  RegisterAsync env ies s = (s1, Ok None) ->
  stream (client s1) = Some st ->
  let h := hist s1 ++ [E_Go_reader st] in
  let arm := fst (select_race (SelectTie env h) (RecvLatency env h)
                              (regTimeout (client s1))) in
  let result := snd (register env ies s) in
  ((exists msg,
      arm = ChanArm /\ StreamRecv env h st = inr msg /\
      result = Ok (match Event_Event msg with
                   | Some (Event_Register _) => None
                   | None => Some (New "nil object for register")
                   | Some _ => Some (New "invalid object for register")
                   end))
   \/ (exists inerr,
      arm = ChanArm /\ StreamRecv env h st = inl inerr /\ result = Ok (Some inerr))
   \/ (arm = TimerArm /\ result = Ok (Some register_timeout)))
  /\ (arm = ChanArm ->
      exists t, RecvLatency env h = Some t /\
                Z.max 0 t <= Z.max 0 (regTimeout (client s1)))
  /\ (arm = TimerArm ->
      RecvLatency env h = None \/
      exists t, RecvLatency env h = Some t /\
                Z.max 0 (regTimeout (client s1)) <= Z.max 0 t).
Proof.
  intros Hr Hs. cbn zeta.
  rewrite (register_after_send env ies s s1 st Hr Hs).
  destruct (select_race _ _ _) as [[|] el] eqn:Hrace; cbn [fst snd].
  - split; [|split].
    + destruct (StreamRecv env _ st) as [inerr|msg] eqn:Hrecv.
      * right; left. exists inerr. auto.
      * left. exists msg. auto.
    + intros _. apply select_race_chan in Hrace as (t & Ht & Hle & _).
      exists t. auto.
    + discriminate.
  - split; [|split].
    + right; right. auto.
    + discriminate.
    + intros _. now apply select_race_timer in Hrace as (_ & Hor).
Qed.

Lemma register_three_outcomes_witness :
  RegisterAsync Scenario.env_ok [4%nat] (Scenario.started Scenario.env_ok)
    = (fst (RegisterAsync Scenario.env_ok [4%nat] (Scenario.started Scenario.env_ok)),
       Ok None) /\
  snd (register Scenario.env_ok [4%nat] (Scenario.started Scenario.env_ok)) = Ok None.
Proof.
  split; [vm_compute; reflexivity|].
  destruct (register_three_outcomes Scenario.env_ok [4%nat]
              (Scenario.started Scenario.env_ok)
              (fst (RegisterAsync Scenario.env_ok [4%nat]
                      (Scenario.started Scenario.env_ok)))
              9%nat ltac:(vm_compute; reflexivity) ltac:(vm_compute; reflexivity))
    as [[(msg & _ & Hm & Hres) | [(e & _ & He & _) | (Harm & _)]] _].
  - rewrite Hres. vm_compute in Hm. injection Hm as <-. reflexivity.
  - vm_compute in He. discriminate He.
  - vm_compute in Harm. discriminate Harm.
Defined.

(** C1, as worded, fails: the stream ends before any message arrives, and
    [register] returns [io.EOF], which is neither a classified message nor
    the timeout. *)
Lemma register_two_outcomes_counterexample :
  ~ register_two_outcomes Scenario.env_recv_eof [4%nat]
      (Scenario.started Scenario.env_recv_eof).
Proof.
  intros H.
  destruct (H (fst (RegisterAsync Scenario.env_recv_eof [4%nat]
                      (Scenario.started Scenario.env_recv_eof)))
              9%nat ltac:(vm_compute; reflexivity) ltac:(vm_compute; reflexivity))
    as [(msg & _ & Hm & _) | (Harm & _)].
  - vm_compute in Hm. discriminate Hm.
  - vm_compute in Harm. discriminate Harm.
Qed.

(** What [register] returns in that run. *)
Example register_returns_recv_error :
  snd (register Scenario.env_recv_eof [4%nat] (Scenario.started Scenario.env_recv_eof))
    = Ok (Some EOF).
Proof. reflexivity. Qed.

(** ** The dispatch loop *)

Lemma nth_error_set_closed (l : list bool) (c : nat) (b : bool) :
  nth_error l c = Some b -> nth_error (set_closed c l) c = Some true.
Proof.
  revert c. induction l as [|x l IH]; intros [|c]; cbn; try discriminate; auto.
Qed.

Lemma processEvents_turn_frame (env : Env) (s s1 : State) (r : Res (option (option error))) :
  processEvents_turn env s = (s1, r) ->
  exists l, frame s s1 l /\ forallb dispatch_effect l = true.
Proof.
  unfold processEvents_turn, notifyDisconnected. go_unfold.
  destruct (stream (client s)) as [st|]; cbn.
  2:{ intros [= <- <-]. exists []. split; [apply frame_refl|reflexivity]. }
  destruct (StreamRecv env (hist s) st) as [e|m]; cbn.
  - destruct (isEOF e), (adapter (client s)); cbn; intros [= <- <-];
      first [ solve [eexists [_; _]; frame_solve] | solve [eexists [_]; frame_solve] ].
  - destruct (adapter (client s)); cbn.
    + destruct (AdapterRecv env _ m) as [[|] F]; cbn; intros [= <- <-];
        eexists [_; _]; frame_solve.
    + intros [= <- <-]. eexists [_]. frame_solve.
Qed.

Lemma processEvents_for_frame (env : Env) (n : nat) (s s1 : State)
    (r : Res (option (option error))) :
  processEvents_for env n s = (s1, r) ->
  exists l, frame s s1 l /\ forallb dispatch_effect l = true.
Proof.
  revert s. induction n as [|n IH]; intros s; cbn [processEvents_for].
  - cbn. intros [= <- <-]. exists []. split; [apply frame_refl|reflexivity].
  - unfold bind at 1. destruct (processEvents_turn env s) as [s2 r2] eqn:Ht.
    apply processEvents_turn_frame in Ht as (l & F & Hl).
    destruct r2 as [[e|]|msg].
    + cbn. intros [= <- <-]. eauto.
    + intros H. apply IH in H as (l' & F' & Hl').
      exists (l ++ l'). split; [eapply frame_trans; eauto|].
      now rewrite forallb_app, Hl, Hl'.
    + intros [= <- <-]. eauto.
Qed.

(** After [n] turns that went round, the loop goes on from the state
    reached. *)
Lemma processEvents_for_continue (env : Env) (n m : nat) (s sn : State) :
  processEvents_for env n s = (sn, Ok None) ->
  processEvents_for env (n + m) s = processEvents_for env m sn.
Proof.
  revert s. induction n as [|n IH]; intros s; cbn [processEvents_for Nat.add].
  - cbn. now intros [= <-].
  - unfold bind. destruct (processEvents_turn env s) as [s2 [[e|]|msg]];
      cbn; try discriminate. apply IH.
Qed.

(** What the deferred calls do when the loop returns [r]. *)
Lemma processEvents_return (env : Env) (fuel : nat) (s s1 : State) (st : Stream)
    (c : ChanRef) (r : option error) :
  stream (client s) = Some st ->
  processEventsCompleted (client s) = Some c ->
  nth_error (chans s) c = Some false ->
  processEvents_for env fuel s = (s1, Ok (Some r)) ->
  processEvents env fuel s =
    (mkState (client s) (set_closed c (chans s))
       (hist s1 ++ [E_CloseChan c;
                    E_CloseSend st (StreamCloseSend env (hist s1 ++ [E_CloseChan c]) st)]),
     Ok (Some r)).
Proof.
  intros Hs Hc Hopen Hfor.
  unfold processEvents. unfold bind at 1. unfold getClient at 1. rewrite Hs, Hc, Hfor.
  apply processEvents_for_frame in Hfor as (l & (F1 & F2 & F3) & _).
  unfold defer, closeChan. rewrite F2, Hopen. go_unfold.
  rewrite F1, <- app_assoc. reflexivity.
Qed.

(** The loop returns in the turn that follows [n] turns that went round. *)
Lemma processEvents_exit_after (env : Env) (n fuel : nat) (s sn s1 : State) (st : Stream)
    (c : ChanRef) (r : option error) :
  stream (client s) = Some st ->
  processEventsCompleted (client s) = Some c ->
  nth_error (chans s) c = Some false ->
  processEvents_for env n s = (sn, Ok None) ->
  processEvents_turn env sn = (s1, Ok (Some r)) ->
  processEvents env (n + S fuel) s =
    (mkState (client s) (set_closed c (chans s))
       (hist s1 ++ [E_CloseChan c;
                    E_CloseSend st (StreamCloseSend env (hist s1 ++ [E_CloseChan c]) st)]),
     Ok (Some r)).
Proof.
  intros Hs Hc Hopen Hn Ht.
  apply processEvents_return; auto.
  rewrite (processEvents_for_continue env n (S fuel) s sn Hn).
  cbn [processEvents_for]. unfold bind at 1. now rewrite Ht.
Qed.

Lemma processEvents_every_exit (env : Env) (s : State) (st : Stream) (c : ChanRef)
    (k : nat) (s' : State) (r : option error) :
  stream (client s) = Some st ->
  processEventsCompleted (client s) = Some c ->
  nth_error (chans s) c = Some false ->
  processEvents env k s = (s', Ok (Some r)) ->
  client s' = client s /\
  (exists evs x,
      new_effects s s' = evs ++ [E_CloseChan c; E_CloseSend st x] /\
      forallb dispatch_effect evs = true) /\
  count is_close_chan (new_effects s s') = 1%nat /\
  nth_error (chans s') c = Some true /\
  (forall tie T, 0 < T -> select_race tie (completion_ready env s') T = (ChanArm, 0)).
Proof.
  intros Hs Hc Hopen H.
  destruct (processEvents_for env k s) as [s1 r1] eqn:Hfor.
  destruct r1 as [[r'|]|msg].
  - rewrite (processEvents_return env k s s1 st c r' Hs Hc Hopen Hfor) in H.
    apply processEvents_for_frame in Hfor as (l & (F1 & F2 & F3) & Hl).
    injection H as <- <-. cbn [client chans].
    assert (Hnew : new_effects s
              (mkState (client s) (set_closed c (chans s))
                 (hist s1 ++ [E_CloseChan c;
                    E_CloseSend st (StreamCloseSend env (hist s1 ++ [E_CloseChan c]) st)]))
              = l ++ [E_CloseChan c;
                    E_CloseSend st (StreamCloseSend env (hist s1 ++ [E_CloseChan c]) st)]).
    { apply new_effects_of. cbn [hist]. rewrite F3. now rewrite app_assoc. }
    rewrite Hnew.
    split; [reflexivity|]. split; [eauto|]. split; [|split].
    + rewrite count_app. unfold count at 1.
      rewrite (forallb_disjoint dispatch_effect is_close_chan l); [reflexivity| |exact Hl].
      now intros [].
    + eapply nth_error_set_closed; eauto.
    + intros tie T HT. unfold completion_ready. cbn [client chans hist].
      rewrite Hc, (nth_error_set_closed _ _ _ Hopen).
      apply (select_race_early tie 0 T). lia.
  - unfold processEvents in H. unfold bind at 1 in H. unfold getClient at 1 in H.
    rewrite Hs, Hfor in H. discriminate H.
  - unfold processEvents in H. unfold bind at 1 in H. unfold getClient at 1 in H.
    rewrite Hs, Hc, Hfor in H.
    apply processEvents_for_frame in Hfor as (l & (F1 & F2 & F3) & Hl).
    unfold defer, closeChan in H. rewrite F2, Hopen in H. go_unfold. discriminate H.
Qed.

(** C2.  The dispatch loop of a client whose stream is open, whose adapter
    is set and whose completion channel is fresh, as [Start] leaves them.
    After any number [n] of turns that went round: if the next receive is
    [io.EOF] the adapter is told [Disconnected(nil)] and the loop returns
    nil; if it is another error [E] the adapter is told [Disconnected(E)]
    and the loop returns [E]; if it is a message for which the adapter
    answers continue=false with [F], the loop returns [F] and receives no
    more.  Whenever the loop returns, the completion channel is closed and
    then the send half of the stream, the channel is closed exactly once,
    and a receive on it in [Stop] is ready at once. *)
Theorem processEvents_exit_paths (env : Env) (s sn : State) (st : Stream) (a : nat)
    (c : ChanRef) (n fuel : nat) :
  stream (client s) = Some st ->
  adapter (client s) = Some a ->
  processEventsCompleted (client s) = Some c ->
  nth_error (chans s) c = Some false ->
  processEvents_for env n s = (sn, Ok None) ->
  let h := hist sn in
  let exits (evs : list Effect) (r : option error) :=
    let h1 := h ++ evs ++ [E_CloseChan c] in
    processEvents env (n + S fuel) s =
      (mkState (client s) (set_closed c (chans s))
         (h1 ++ [E_CloseSend st (StreamCloseSend env h1 st)]),
       Ok (Some r)) in
  (StreamRecv env h st = inl EOF ->
     exits [E_Recv st (inl EOF); E_Disconnected None] None) /\
  (forall E, StreamRecv env h st = inl E -> E <> EOF ->
     exits [E_Recv st (inl E); E_Disconnected (Some E)] (Some E)) /\
  (forall m F, StreamRecv env h st = inr m ->
     AdapterRecv env (h ++ [E_Recv st (inr m)]) m = (false, F) ->
     exits [E_Recv st (inr m); E_AdapterRecv m false F] F) /\
  (forall k s' r, processEvents env k s = (s', Ok (Some r)) ->
     client s' = client s /\
     (exists evs x,
         new_effects s s' = evs ++ [E_CloseChan c; E_CloseSend st x] /\
         forallb dispatch_effect evs = true) /\
     count is_close_chan (new_effects s s') = 1%nat /\
     nth_error (chans s') c = Some true /\
     (forall tie T, 0 < T -> select_race tie (completion_ready env s') T = (ChanArm, 0))).
Proof.
  intros Hs Ha Hc Hopen Hn. cbn zeta.
  pose proof (processEvents_for_frame env n s _ _ Hn) as (l & (F1 & F2 & F3) & Hl).
  assert (Hturn : forall evs r,
             processEvents_turn env sn =
               (mkState (client sn) (chans sn) (hist sn ++ evs), Ok (Some r)) ->
             processEvents env (n + S fuel) s =
               (mkState (client s) (set_closed c (chans s))
                  ((hist sn ++ evs ++ [E_CloseChan c]) ++
                   [E_CloseSend st (StreamCloseSend env (hist sn ++ evs ++ [E_CloseChan c]) st)]),
                Ok (Some r))).
  { intros evs r Ht.
    rewrite (processEvents_exit_after env n fuel s sn _ st c r Hs Hc Hopen Hn Ht).
    cbn [hist]. now rewrite <- !app_assoc. }
  split; [|split; [|split]].
  - intros Hrecv. apply Hturn.
    unfold processEvents_turn, notifyDisconnected. go_unfold.
    rewrite F1, Hs, Ha. cbn. rewrite Hrecv. cbn.
    rewrite <- ?app_assoc, ?F1; reflexivity.
  - intros E Hrecv HE. apply Hturn.
    unfold processEvents_turn, notifyDisconnected. go_unfold.
    rewrite F1, Hs, Ha. cbn. rewrite Hrecv. cbn.
    destruct E; try (now destruct HE); cbn; rewrite <- ?app_assoc, ?F1; reflexivity.
  - intros m F Hrecv Had. apply Hturn.
    unfold processEvents_turn. go_unfold.
    rewrite F1, Hs, Ha. cbn. rewrite Hrecv. cbn. rewrite Had. cbn.
    rewrite <- ?app_assoc, ?F1; reflexivity.
  - intros k s' r H. eapply processEvents_every_exit; eauto.
Qed.

Lemma processEvents_exit_paths_witness :
  snd (processEvents Scenario.env_ok 2
         (fst (Start Scenario.env_ok (Scenario.fresh Scenario.env_ok false))))
    = Ok (Some None).
Proof.
  exact (f_equal snd (proj1 (processEvents_exit_paths Scenario.env_ok
                    (fst (Start Scenario.env_ok (Scenario.fresh Scenario.env_ok false)))
                    (fst (processEvents_for Scenario.env_ok 1
                            (fst (Start Scenario.env_ok
                                    (Scenario.fresh Scenario.env_ok false)))))
                    9%nat 0%nat 0%nat 1 0
                    eq_refl eq_refl eq_refl eq_refl eq_refl) eq_refl)).
Defined.

(** ** Start *)

Lemma connection_frame (env : Env) (a : string) (cert : option Certificate) (host : string)
    (k : ClientParameters) (ff sec : bool) (s s1 : State) (r : Res (error + Conn)) :
  newEventsClientConnectionWithAddress env a cert host k ff sec s = (s1, r) ->
  exists l, frame s s1 l /\ forallb transport_effect l = true /\
            existsb is_insecure_dial l = negb sec && existsb is_dial l /\
            (sec = false -> existsb is_dial l = true) /\
            exists x, r = Ok x.
Proof.
  unfold newEventsClientConnectionWithAddress. go_unfold.
  destruct sec; cbn.
  - destruct (TLSConfig env (hist s) cert host) as [e|t]; cbn.
    + intros [= <- <-]. exists [E_TLSConfig (inl e)].
      split; [frame_solve|]. repeat split; try reflexivity; try discriminate; eauto.
    + destruct (0 <? kapTime k); cbn; intros [= <- <-];
        (eexists [E_TLSConfig (inr t); E_DialContext _ _ _];
         split; [frame_solve|]; repeat split; try reflexivity; try discriminate; eauto).
  - destruct (0 <? kapTime k); cbn; intros [= <- <-];
      (eexists [E_DialContext _ _ _];
       split; [frame_solve|]; repeat split; try reflexivity; try discriminate; eauto).
Qed.

Lemma interests_block (env : Env) (conn : Conn) (s1 s2 : State)
    (r : Res (list Interest * option error)) :
  (modifyClient (set_clientConn (Some conn)) ;;;
   ec <- getClient ;;
   match adapter ec with
   | None => panic nil_deref
   | Some _ => call (GetInterestedEvents env)
                    (fun r => E_GetInterestedEvents (fst r) (snd r))
   end) s1 = (s2, r) ->
  client s2 = set_clientConn (Some conn) (client s1) /\ chans s2 = chans s1 /\
  ((exists msg, r = Panic msg /\ hist s2 = hist s1) \/
   (exists ies e a, r = Ok (ies, e) /\ adapter (client s1) = Some a /\
                    hist s2 = hist s1 ++ [E_GetInterestedEvents ies e])).
Proof.
  go_unfold. destruct (adapter (client s1)) as [a|] eqn:Ha; cbn; rewrite Ha.
  - destruct (GetInterestedEvents env (hist s1)) as [ies e] eqn:Hg.
    intros [= <- <-]. cbn. repeat split. right. exists ies, e, a. rewrite Hg. auto.
  - intros [= <- <-]. cbn. repeat split. left. eauto.
Qed.

Lemma existsb_disjoint (k p : Effect -> bool) (l : list Effect) :
  (forall e, k e = true -> p e = false) ->
  forallb k l = true -> existsb p l = false.
Proof.
  intros D. induction l as [|e l IH]; cbn; [reflexivity|].
  intros H. apply andb_true_iff in H as [He Hl].
  rewrite (D e He). auto.
Qed.

Lemma In_kind (k : Effect -> bool) (l : list Effect) (x : Effect) :
  forallb k l = true -> In x l -> k x = true.
Proof. intros H. now apply forallb_forall. Qed.

Ltac disjoint_kinds :=
  let e := fresh "e" in
  intros e; destruct e; cbn; try reflexivity; try discriminate;
  repeat match goal with
         | |- context [match ?x with _ => _ end] => destruct x; cbn
         end;
  try reflexivity; try discriminate.

Lemma transport_no_retry l : forallb transport_effect l = true -> retries l = 0%nat.
Proof.
  intros H. unfold retries, count.
  rewrite (forallb_disjoint transport_effect is_retry_log l); auto. disjoint_kinds.
Qed.

Lemma handshake_no_retry l : forallb handshake_effect l = true -> retries l = 0%nat.
Proof.
  intros H. unfold retries, count.
  rewrite (forallb_disjoint handshake_effect is_retry_log l); auto. disjoint_kinds.
Qed.

Lemma transport_no_chat l : forallb transport_effect l = true -> existsb is_chat_failure l = false.
Proof. apply existsb_disjoint. disjoint_kinds. Qed.

Lemma handshake_no_chat l : forallb handshake_effect l = true -> existsb is_chat_failure l = false.
Proof. apply existsb_disjoint. disjoint_kinds. Qed.

Lemma transport_no_send l : forallb transport_effect l = true -> existsb is_send l = false.
Proof. apply existsb_disjoint. disjoint_kinds. Qed.

Lemma handshake_no_dial l : forallb handshake_effect l = true -> existsb is_dial l = false.
Proof. apply existsb_disjoint. disjoint_kinds. Qed.

Lemma handshake_no_insecure_dial l :
  forallb handshake_effect l = true -> existsb is_insecure_dial l = false.
Proof. apply existsb_disjoint. disjoint_kinds. Qed.

Lemma retries_app l1 l2 : retries (l1 ++ l2) = (retries l1 + retries l2)%nat.
Proof. apply count_app. Qed.

Lemma nth_error_snoc_fresh (l : list bool) :
  nth_error (l ++ [false]) (List.length l) = Some false.
Proof. rewrite nth_error_app2, Nat.sub_diag; [reflexivity|lia]. Qed.

(** Membership in a history made of transport effects, handshake effects
    and known effects. *)
Ltac split_in H :=
  repeat match type of H with
         | In _ (_ ++ _) => apply in_app_or in H; destruct H as [H|H]
         end.

Ltac kill_in :=
  match goal with
  | H : In ?x ?l, K : forallb ?k ?l = true |- _ =>
    apply (In_kind k l x K) in H; cbn in H; discriminate H
  | H : In _ (_ :: _) |- _ =>
    cbn in H;
    repeat match type of H with
           | _ \/ _ => destruct H as [H|H]
           | False => destruct H
           end;
    try discriminate H
  end.

Ltac norm_bool :=
  unfold retries, count in *;
  rewrite ?filter_app, ?existsb_app, ?length_app in *; cbn [filter existsb List.length] in *.

Ltac start_prelude :=
  repeat match goal with
  | H : newEventsClientConnectionWithAddress _ _ _ _ _ _ _ _ = (_, _) |- _ =>
    let l0 := fresh "l0" in let F := fresh "F" in let T0 := fresh "T0" in
    let I0 := fresh "I0" in let D0 := fresh "D0" in let X := fresh "X" in
    apply connection_frame in H as (l0 & F & T0 & I0 & D0 & X)
  | H : (modifyClient _ ;;; _) _ = (_, _) |- _ =>
    let C2 := fresh "C2" in let Ch2 := fresh "Ch2" in let G := fresh "G" in
    apply interests_block in H as (C2 & Ch2 & G)
  | H : Ok _ = Ok _ |- _ => injection H as H
  | H : exists x, Panic _ = Ok x |- _ => destruct H as [? H]; discriminate H
  | H : exists x, Ok _ = Ok x |- _ => clear H
  | H : (exists msg, Ok _ = Panic msg /\ _) \/ _ |- _ =>
    destruct H as [(? & H & _)|H]; [discriminate H|]
  | H : _ \/ (exists ies e a, Panic _ = Ok _ /\ _) |- _ =>
    destruct H as [H|(? & ? & ? & H & _)]; [|discriminate H]
  | H : exists ies e a, Ok _ = Ok _ /\ _ |- _ =>
    let ies := fresh "ies" in let e := fresh "e" in let a := fresh "a" in
    let E := fresh "E" in let A := fresh "A" in let Hh := fresh "Hh" in
    destruct H as (ies & e & a & E & A & Hh); injection E as <- <-
  | H : exists msg, Panic _ = Panic msg /\ _ |- _ =>
    let Hh := fresh "Hh" in destruct H as (? & _ & Hh)
  end.

Lemma establish_cases (env : Env) (secured0 : bool) (s : State) :
  (exists l, final_attempt secured0 s (establishConnectionAndRegister env secured0 s) l) \/
  (secured0 = true /\ allowInsecure (client s) = true /\
   exists pre s4, retrying_attempt s pre s4 /\
                  establishConnectionAndRegister env secured0 s =
                  establishConnectionAndRegister env false s4).
Proof.
  funelim (establishConnectionAndRegister env secured0 s);
    try match goal with H : _ \/ _ |- _ => clear H end;
    clear Heqcall; start_prelude.
  - (* the connection fails *)
    left. exists l0. unfold final_attempt. cbn [fst snd].
    destruct F as (F1 & F2 & F3).
    split; [exact F3|]. split; [now apply transport_no_retry|].
    split; [exact I0|]. split; [exact D0|].
    split; [rewrite (transport_no_chat l0 T0); discriminate|].
    split; [intros ies e H; kill_in|]. split; [intros H; kill_in|].
    split; [intros _; now rewrite F1, F2|discriminate].
  - (* the adapter fails to give its interests *)
    left. exists (l0 ++ [E_GetInterestedEvents l (Some err)]).
    unfold final_attempt. cbn [fst snd]. destruct F as (F1 & F2 & F3).
    split; [rewrite Hh, F3, <- app_assoc; reflexivity|].
    split; [rewrite retries_app, (transport_no_retry l0 T0); reflexivity|].
    split; [rewrite !existsb_app, I0; cbn; rewrite ?orb_false_r; reflexivity|].
    split; [intros H; rewrite existsb_app, (D0 H); reflexivity|].
    split; [rewrite existsb_app, (transport_no_chat l0 T0); discriminate|].
    split; [intros ies e H; split_in H; try kill_in;
            injection H as <- <-; split; [reflexivity|];
            rewrite existsb_app, (transport_no_send l0 T0); reflexivity|].
    split; [intros H; split_in H; kill_in|].
    split; [intros _; rewrite C2, Ch2, F2; cbn; now rewrite F1|discriminate].
  - (* the adapter has no interest *)
    left. exists (l0 ++ [E_GetInterestedEvents [] None]).
    unfold final_attempt. cbn [fst snd]. destruct F as (F1 & F2 & F3).
    split; [rewrite Hh, F3, <- app_assoc; reflexivity|].
    split; [rewrite retries_app, (transport_no_retry l0 T0); reflexivity|].
    split; [rewrite !existsb_app, I0; cbn; rewrite ?orb_false_r; reflexivity|].
    split; [intros H; rewrite existsb_app, (D0 H); reflexivity|].
    split; [rewrite existsb_app, (transport_no_chat l0 T0); discriminate|].
    split; [intros ies e H; split_in H; kill_in|].
    split; [intros _; split; [reflexivity|];
            rewrite existsb_app, (transport_no_send l0 T0); reflexivity|].
    split; [intros _; rewrite C2, Ch2, F2; cbn; now rewrite F1|discriminate].
  - (* the adapter is nil *)
    left. exists l0.
    unfold final_attempt. cbn [fst snd]. destruct F as (F1 & F2 & F3).
    split; [rewrite Hh, F3; reflexivity|].
    split; [now apply transport_no_retry|].
    split; [exact I0|]. split; [exact D0|].
    split; [rewrite (transport_no_chat l0 T0); discriminate|].
    split; [intros ies e H; kill_in|]. split; [intros H; kill_in|].
    split; [intros _; rewrite C2, Ch2, F2; cbn; now rewrite F1|discriminate].
  - (* the stream is open: register *)
    left. cbn [client chans hist]. rewrite H. unfold bind at 1.
    destruct (register env (ie :: ies') _) as [s3 r3] eqn:Hreg.
    apply register_frame in Hreg as (lr & (R1 & R2 & R3) & HR).
    cbn [client chans hist] in R1, R2, R3.
    destruct F as (F1 & F2 & F3).
    assert (Hpre : hist s3 = hist s ++ l0 ++
              [E_GetInterestedEvents (ie :: ies') None; E_Chat conn (inr s7)] ++ lr).
    { rewrite R3, Hh, F3, <- !app_assoc. reflexivity. }
    destruct r3 as [[e|]|msg].
    + exists (l0 ++ [E_GetInterestedEvents (ie :: ies') None; E_Chat conn (inr s7)] ++ lr).
      unfold final_attempt. cbn [fst snd ret].
      split; [exact Hpre|].
      split; [rewrite !retries_app, (transport_no_retry l0 T0), (handshake_no_retry lr HR);
              reflexivity|].
      split; [rewrite !existsb_app, I0, (handshake_no_insecure_dial lr HR),
                (handshake_no_dial lr HR); cbn; rewrite ?orb_false_r; reflexivity|].
      split; [intros K; rewrite existsb_app, (D0 K); reflexivity|].
      split; [rewrite !existsb_app, (transport_no_chat l0 T0), (handshake_no_chat lr HR);
              discriminate|].
      split; [intros ies e0 K; split_in K; kill_in|].
      split; [intros K; split_in K; kill_in|].
      split; [intros _; rewrite R1, R2, Ch2, F2; cbn; rewrite C2; cbn; now rewrite F1
             |discriminate].
    + exists (l0 ++ [E_GetInterestedEvents (ie :: ies') None; E_Chat conn (inr s7)] ++ lr
                 ++ [E_MakeChan (List.length (chans s3)); E_Go_processEvents]).
      unfold final_attempt. go_unfold.
      split; [rewrite Hpre, <- !app_assoc; reflexivity|].
      split; [rewrite !retries_app, (transport_no_retry l0 T0), (handshake_no_retry lr HR);
              reflexivity|].
      split; [rewrite !existsb_app, I0, (handshake_no_insecure_dial lr HR),
                (handshake_no_dial lr HR); cbn; rewrite ?orb_false_r; reflexivity|].
      split; [intros K; rewrite existsb_app, (D0 K); reflexivity|].
      split; [rewrite !existsb_app, (transport_no_chat l0 T0), (handshake_no_chat lr HR);
              discriminate|].
      split; [intros ies e0 K; split_in K; kill_in|].
      split; [intros K; split_in K; kill_in|].
      split; [intros K; now destruct K|].
      intros _. exists s7, conn, a0, (List.length (chans s3)).
      rewrite R1, C2. cbn. rewrite A. repeat split.
      apply nth_error_snoc_fresh.
    + exists (l0 ++ [E_GetInterestedEvents (ie :: ies') None; E_Chat conn (inr s7)] ++ lr).
      unfold final_attempt. cbn [fst snd].
      split; [exact Hpre|].
      split; [rewrite !retries_app, (transport_no_retry l0 T0), (handshake_no_retry lr HR);
              reflexivity|].
      split; [rewrite !existsb_app, I0, (handshake_no_insecure_dial lr HR),
                (handshake_no_dial lr HR); cbn; rewrite ?orb_false_r; reflexivity|].
      split; [intros K; rewrite existsb_app, (D0 K); reflexivity|].
      split; [rewrite !existsb_app, (transport_no_chat l0 T0), (handshake_no_chat lr HR);
              discriminate|].
      split; [intros ies e0 K; split_in K; kill_in|].
      split; [intros K; split_in K; kill_in|].
      split; [intros _; rewrite R1, R2, Ch2, F2; cbn; rewrite C2; cbn; now rewrite F1
             |discriminate].
  - discriminate H.
  - (* the stream cannot be opened, secured and insecure allowed: retry *)
    right. cbn [client chans hist fst emit] in *.
    match goal with Hc : Chat _ _ _ = inl _ |- _ => rewrite Hc in * end.
    destruct F as (F1 & F2 & F3).
    assert (Hallow : allowInsecure (client s) = true).
    { match goal with Ha : allowInsecure _ = true |- _ =>
        rewrite <- Ha, C2; cbn; now rewrite F1 end. }
    split; [reflexivity|]. split; [exact Hallow|].
    exists (l0 ++ [E_GetInterestedEvents (ie :: ies') None; E_Chat conn (inl err);
                   E_Log LError "events connection failed, cause: "]).
    eexists. split; [|reflexivity].
    unfold retrying_attempt, retry_log. cbn [client chans hist].
    split; [rewrite Hh, F3, <- !app_assoc; reflexivity|].
    split; [rewrite retries_app, (transport_no_retry l0 T0); reflexivity|].
    split; [rewrite existsb_app; cbn; now rewrite orb_true_r|].
    split; [rewrite existsb_app, (transport_no_send l0 T0); reflexivity|].
    split; [rewrite existsb_app, I0; reflexivity|].
    split; [intros ies e K; split_in K; [kill_in|];
            cbn in K; destruct K as [K|[K|[K|[]]]]; try discriminate K;
            injection K as <- <-; split; [discriminate|reflexivity]|].
    split; [now rewrite Ch2, F2|].
    rewrite C2. cbn. now rewrite F1.
  - (* the stream cannot be opened, insecure not allowed *)
    left. cbn [client chans hist fst emit] in *.
    match goal with Hc : Chat _ _ _ = inl _ |- _ => rewrite Hc in * end.
    destruct F as (F1 & F2 & F3).
    exists (l0 ++ [E_GetInterestedEvents (ie :: ies') None; E_Chat conn (inl err);
                   E_Log LError "events connection failed, cause: "]).
    unfold final_attempt. cbn [fst snd client chans hist].
    split; [rewrite Hh, F3, <- !app_assoc; reflexivity|].
    split; [rewrite retries_app, (transport_no_retry l0 T0); reflexivity|].
    split; [rewrite !existsb_app, I0; cbn; rewrite ?orb_false_r; reflexivity|].
    split; [intros K; rewrite existsb_app, (D0 K); reflexivity|].
    split; [intros _; split;
            [first [reflexivity
                   |match goal with Ha : allowInsecure _ = false |- _ =>
                      cbn; rewrite <- Ha, C2; cbn; now rewrite F1 end]
            |exists conn, err; split; [|reflexivity];
             apply in_or_app; right; cbn; auto]|].
    split; [intros ies e K; split_in K; kill_in|].
    split; [intros K; split_in K; kill_in|].
    split; [intros _; rewrite Ch2, F2, C2; cbn; now rewrite F1|discriminate].
  - (* the stream cannot be opened in insecure mode *)
    left. cbn [client chans hist fst emit] in *.
    match goal with Hc : Chat _ _ _ = inl _ |- _ => rewrite Hc in * end.
    eexists. unfold final_attempt. cbn [fst snd client chans hist].
    split; [rewrite Hh, <- !app_assoc; cbn [app]; reflexivity|].
    split; [reflexivity|].
    split; [cbn; destruct (0 <? kapTime (kap (client s))); reflexivity|].
    split; [reflexivity|].
    split; [intros _; split; [reflexivity|];
            exists conn, err; split; [|reflexivity]; cbn; auto|].
    split; [intros ies e K; kill_in|].
    split; [intros K; kill_in|].
    split; [intros _; rewrite Ch2, C2; cbn; auto|discriminate].
Qed.

(** In insecure mode the body never retries. *)
Lemma establish_insecure_final (env : Env) (s : State) :
  exists l, final_attempt false s (establishConnectionAndRegister env false s) l.
Proof.
  destruct (establish_cases env false s) as [H|(H & _)]; [exact H|discriminate H].
Qed.

(** [Start] is one pass, or one retrying pass followed by one pass in
    insecure mode. *)
Lemma Start_passes (env : Env) (s : State) :
  (exists l, final_attempt (secured (client s)) s (Start env s) l /\
             new_effects s (fst (Start env s)) = l) \/
  (secured (client s) = true /\ allowInsecure (client s) = true /\
   exists pre s4 post,
     retrying_attempt s pre s4 /\
     Start env s = establishConnectionAndRegister env false s4 /\
     final_attempt false s4 (Start env s) post /\
     new_effects s (fst (Start env s)) = pre ++ [retry_log] ++ post).
Proof.
  unfold Start.
  destruct (establish_cases env (secured (client s)) s)
    as [(l & F)|(Hsec & Hall & pre & s4 & R & E)].
  - left. exists l. split; [exact F|]. apply new_effects_of. apply F.
  - right. split; [exact Hsec|]. split; [exact Hall|].
    destruct (establish_insecure_final env s4) as (post & F).
    exists pre, s4, post. rewrite E.
    split; [exact R|]. split; [reflexivity|]. split; [exact F|].
    apply new_effects_of. destruct F as (F & _). destruct R as (R & _).
    rewrite F, R, <- !app_assoc. reflexivity.
Qed.

(** C3.  [Start] retries at most once.  When it runs in secured mode and
    opening the stream fails: with [allowInsecure] the body is entered
    exactly once more, in insecure mode (the first pass dials with
    credentials, the second with [WithInsecure]), and the second pass
    returns whatever happens in it, it never retries; without
    [allowInsecure] there is no retry and the failure of the stream is
    returned, wrapped.  The recursion is well founded: the function is
    defined by recursion on the security mode. *)
Theorem Start_retries_at_most_once (env : Env) (s : State) :
  let out := Start env s in
  let evs := new_effects s (fst out) in
  (retries evs <= 1)%nat /\
  (secured (client s) = true -> existsb is_chat_failure evs = true ->
   (allowInsecure (client s) = true ->
      retries evs = 1%nat /\
      exists pre post s4,
        evs = pre ++ [retry_log] ++ post /\
        retries pre = 0%nat /\ retries post = 0%nat /\
        existsb is_insecure_dial pre = false /\
        existsb is_insecure_dial post = true /\
        hist s4 = hist s ++ pre ++ [retry_log] /\
        out = establishConnectionAndRegister env false s4) /\
   (allowInsecure (client s) = false ->
      retries evs = 0%nat /\
      exists conn e, In (E_Chat conn (inl e)) evs /\
                     snd out = Ok (Some (Wrap e "events connection failed")))).
Proof.
  cbn zeta.
  destruct (Start_passes env s)
    as [(l & F & Hl)|(Hsec & Hall & pre & s4 & post & R & E & F & Hl)]; rewrite Hl.
  - destruct F as (_ & Hret & _ & _ & Hchat & _).
    split; [rewrite Hret; lia|].
    intros Hsec Hfail. destruct (Hchat Hfail) as (Hno & conn & e & Hin & Hout).
    rewrite Hsec in Hno. cbn in Hno. split.
    + intros Hall. rewrite Hall in Hno. discriminate Hno.
    + intros _. split; [exact Hret|]. exists conn, e. auto.
  - destruct R as (Hh & Rret & _ & _ & Rins & _).
    destruct F as (_ & Fret & Fins & Fdial & _).
    assert (Hone : retries (pre ++ [retry_log] ++ post) = 1%nat).
    { rewrite !retries_app, Rret, Fret. reflexivity. }
    split; [rewrite Hone; lia|].
    intros _ _. split.
    + intros _. split; [exact Hone|].
      exists pre, post, s4. repeat split; auto.
      rewrite Fins, (Fdial eq_refl). reflexivity.
    + intros Hno. rewrite Hall in Hno. discriminate Hno.
Qed.

Lemma Start_retries_at_most_once_witness :
  retries (new_effects (Scenario.fresh Scenario.env_retry true)
             (fst (Start Scenario.env_retry (Scenario.fresh Scenario.env_retry true))))
    = 1%nat.
Proof.
  refine (proj1 (proj1 (proj2 (Start_retries_at_most_once Scenario.env_retry
                                 (Scenario.fresh Scenario.env_retry true))
                          eq_refl _) eq_refl)).
  vm_compute. reflexivity.
Defined.

(** C6.  Whenever the adapter answers [GetInterestedEvents] with an empty
    list during a [Start], [Start] returns "interested events is required"
    and nothing was sent on the stream.  Whenever the adapter answers with
    an error, [Start] returns that error wrapped with "interested events
    retrieval failed" (its cause is the error of the adapter), and nothing
    was sent on the stream. *)
Theorem Start_requires_interests (env : Env) (s : State) :
  let out := Start env s in
  let evs := new_effects s (fst out) in
  (In (E_GetInterestedEvents [] None) evs ->
     snd out = Ok (Some (New "interested events is required")) /\
     existsb is_send evs = false) /\
  (forall ies e, In (E_GetInterestedEvents ies (Some e)) evs ->
     snd out = Ok (Some (Wrap e "interested events retrieval failed")) /\
     Cause (Wrap e "interested events retrieval failed") = Cause e /\
     existsb is_send evs = false).
Proof.
  cbn zeta.
  destruct (Start_passes env s)
    as [(l & F & Hl)|(Hsec & Hall & pre & s4 & post & R & E & F & Hl)]; rewrite Hl.
  - destruct F as (_ & _ & _ & _ & _ & Herr & Hempty & _).
    split; [exact Hempty|].
    intros ies e H. destruct (Herr ies e H). auto.
  - destruct R as (_ & _ & _ & Rsend & _ & Rint & _).
    destruct F as (_ & _ & _ & _ & _ & Herr & Hempty & _).
    split.
    + intros H. apply in_app_or in H as [H|H].
      { destruct (Rint _ _ H) as [K _]. now destruct K. }
      cbn in H. destruct H as [H|H]; [discriminate H|].
      destruct (Hempty H) as [Hout Hs]. split; [exact Hout|].
      rewrite !existsb_app, Rsend, Hs. reflexivity.
    + intros ies e H. apply in_app_or in H as [H|H].
      { destruct (Rint _ _ H) as [_ K]. discriminate K. }
      cbn in H. destruct H as [H|H]; [discriminate H|].
      destruct (Herr ies e H) as [Hout Hs]. split; [exact Hout|].
      split; [reflexivity|].
      rewrite !existsb_app, Rsend, Hs. reflexivity.
Qed.

Lemma Start_requires_interests_witness :
  snd (Start Scenario.env_no_interest (Scenario.fresh Scenario.env_no_interest false))
    = Ok (Some (New "interested events is required")) /\
  existsb is_send
    (new_effects (Scenario.fresh Scenario.env_no_interest false)
       (fst (Start Scenario.env_no_interest
               (Scenario.fresh Scenario.env_no_interest false)))) = false.
Proof.
  refine (proj1 (Start_requires_interests Scenario.env_no_interest
                   (Scenario.fresh Scenario.env_no_interest false)) _).
  vm_compute. auto.
Defined.

(** A [Start] that does not succeed leaves the completion channel and the
    channels as they were. *)
Lemma Start_failure_keeps_completion (env : Env) (s : State) :
  snd (Start env s) <> Ok None ->
  processEventsCompleted (client (fst (Start env s))) = processEventsCompleted (client s) /\
  chans (fst (Start env s)) = chans s.
Proof.
  intros Hne.
  destruct (Start_passes env s)
    as [(l & F & Hl)|(Hsec & Hall & pre & s4 & post & R & E & F & Hl)].
  - now apply F.
  - destruct R as (_ & _ & _ & _ & _ & _ & Rch & Rpe & _).
    destruct F as (_ & _ & _ & _ & _ & _ & _ & Hkeep & _).
    destruct (Hkeep Hne) as [K1 K2]. rewrite K1, K2. auto.
Qed.

(** A successful [Start] leaves the client ready for the dispatch loop. *)
Lemma Start_success_dispatching (env : Env) (s : State) :
  snd (Start env s) = Ok None -> dispatching (fst (Start env s)).
Proof.
  intros Hok.
  destruct (Start_passes env s)
    as [(l & F & Hl)|(Hsec & Hall & pre & s4 & post & R & E & F & Hl)];
    now apply F.
Qed.

Lemma bind_apply {A B} (m : M A) (k : A -> M B) (s : State) :
  bind m k s = match m s with
               | (s', Ok a) => k a s'
               | (s', Panic msg) => (s', Panic msg)
               end.
Proof. reflexivity. Qed.

(** A [Start] that does not succeed has not started the dispatch loop. *)
Lemma establish_failure_spawns_nothing (env : Env) (secured0 : bool) (s : State) :
  exists l,
    hist (fst (establishConnectionAndRegister env secured0 s)) = hist s ++ l /\
    (snd (establishConnectionAndRegister env secured0 s) <> Ok None ->
     existsb is_go_processEvents l = false).
Proof.
  funelim (establishConnectionAndRegister env secured0 s); clear Heqcall;
    start_prelude;
    try match goal with F : frame _ _ _ |- _ =>
          let F1 := fresh "F1" in let F2 := fresh "F2" in let F3 := fresh "F3" in
          destruct F as (F1 & F2 & F3);
          assert (G0 : existsb is_go_processEvents l0 = false)
            by (apply (existsb_disjoint transport_effect); auto; disjoint_kinds)
        end;
    cbn [fst snd client chans hist emit] in *.
  - exists l0. auto.
  - exists (l0 ++ [E_GetInterestedEvents l (Some err)]).
    split; [rewrite Hh, F3, <- app_assoc; reflexivity|].
    intros _. rewrite existsb_app, G0. reflexivity.
  - exists (l0 ++ [E_GetInterestedEvents [] None]).
    split; [rewrite Hh, F3, <- app_assoc; reflexivity|].
    intros _. rewrite existsb_app, G0. reflexivity.
  - exists l0. split; [rewrite Hh; assumption|auto].
  - match goal with Hc : Chat _ _ _ = inr _ |- _ => rewrite Hc end.
    rewrite !bind_apply.
    destruct (register env (ie :: ies') _) as [s3 r3] eqn:Hreg.
    apply register_frame in Hreg as (lr & (R1 & R2 & R3) & HR).
    cbn [client chans hist] in R1, R2, R3.
    assert (GR : existsb is_go_processEvents lr = false)
      by (apply (existsb_disjoint handshake_effect); auto; disjoint_kinds).
    assert (Hpre : hist s3 = hist s ++ l0 ++
              [E_GetInterestedEvents (ie :: ies') None; E_Chat conn (inr s7)] ++ lr).
    { rewrite R3, Hh, F3, <- !app_assoc. reflexivity. }
    destruct r3 as [[e|]|msg]; go_unfold.
    + eexists. split; [exact Hpre|]. intros _.
      rewrite !existsb_app, G0, GR. reflexivity.
    + eexists. split; [rewrite Hpre, <- !app_assoc; reflexivity|].
      intros K. exfalso. apply K. reflexivity.
    + eexists. split; [exact Hpre|]. intros _.
      rewrite !existsb_app, G0, GR. reflexivity.
  - match goal with Hc : Ok _ = Panic _ |- _ => discriminate Hc end.
  - match goal with Hc : Chat _ _ _ = inl _ |- _ => rewrite Hc in * end.
    match goal with
    | IH : exists l, hist (fst (establishConnectionAndRegister env false ?s4)) = _ /\ _ |- _ =>
      destruct IH as (l' & Hl' & Gl')
    end.
    cbn [hist] in Hl'.
    exists (l0 ++ [E_GetInterestedEvents (ie :: ies') None; E_Chat conn (inl err);
                   E_Log LError "events connection failed, cause: "; retry_log] ++ l').
    split; [rewrite Hl', Hh, F3, <- !app_assoc; reflexivity|].
    intros K. rewrite !existsb_app, G0, (Gl' K). reflexivity.
  - match goal with Hc : Chat _ _ _ = inl _ |- _ => rewrite Hc in * end.
    exists (l0 ++ [E_GetInterestedEvents (ie :: ies') None; E_Chat conn (inl err);
                   E_Log LError "events connection failed, cause: "]).
    split; [rewrite Hh, F3, <- !app_assoc; reflexivity|].
    intros _. rewrite !existsb_app, G0. reflexivity.
  - match goal with Hc : Chat _ _ _ = inl _ |- _ => rewrite Hc in * end.
    eexists. split; [rewrite Hh, <- !app_assoc; cbn [app]; reflexivity|].
    intros _. reflexivity.
Qed.

(** C9, as amended.  When [Start] on a client without completion channel
    returns an error after the stream was opened, the completion channel is
    still nil and no dispatch loop was started.  A following [Stop] whose
    [CloseSend] succeeds can only take the timer arm: it waits the whole
    shutdown timeout, then closes the connection, and returns the error of
    that close when it fails and the shutdown timeout error otherwise. *)
Theorem Stop_after_failed_handshake (env : Env) (s s1 : State) (e : error) (st : Stream) :
  processEventsCompleted (client s) = None ->
  Start env s = (s1, Ok (Some e)) ->
  stream (client s1) = Some st ->
  StreamCloseSend env (hist s1) st = None ->
  let h2 := hist s1 ++ [E_CloseSend st None;
                        E_Select TimerArm (Z.max 0 (TimeoutOrDefault_EventHubConnection env))] in
  processEventsCompleted (client s1) = None /\
  existsb is_go_processEvents (new_effects s s1) = false /\
  Stop env s1 =
    match clientConn (client s1) with
    | Some conn =>
      (mkState (client s1) (chans s1) (h2 ++ [E_ConnClose conn (ConnClose env h2 conn)]),
       Ok (match ConnClose env h2 conn with
           | Some ce => Some ce
           | None => Some close_timeout
           end))
    | None => (mkState (client s1) (chans s1) h2, Ok (Some close_timeout))
    end.
Proof.
  intros Hnil Hstart Hs Hcs. cbn zeta.
  assert (Hpe : processEventsCompleted (client s1) = None).
  { destruct (Start_failure_keeps_completion env s) as [K _].
    - rewrite Hstart. discriminate.
    - rewrite Hstart in K. cbn in K. congruence. }
  split; [exact Hpe|]. split.
  - destruct (establish_failure_spawns_nothing env (secured (client s)) s)
      as (l & Hl & Hno).
    unfold Start in Hstart. rewrite Hstart in Hl, Hno. cbn [fst snd] in Hl, Hno.
    rewrite (new_effects_of s s1 l Hl). apply Hno. discriminate.
  - apply (Stop_timer_arm env s1 st
             (Z.max 0 (TimeoutOrDefault_EventHubConnection env)) Hs Hcs).
    unfold completion_ready, draining. cbn [client]. rewrite Hpe.
    apply select_race_never.
Qed.

Lemma Stop_after_failed_handshake_witness :
  snd (Stop Scenario.env_recv_eof
         (fst (Start Scenario.env_recv_eof (Scenario.fresh Scenario.env_recv_eof false))))
    = Ok (Some close_timeout) /\
  snd (Stop Scenario2.env_conn_close_fails
         (fst (Start Scenario2.env_conn_close_fails
                 (Scenario.fresh Scenario2.env_conn_close_fails false))))
    = Ok (Some (Foreign 3)).
Proof.
  split.
  - destruct (Stop_after_failed_handshake Scenario.env_recv_eof
                (Scenario.fresh Scenario.env_recv_eof false)
                (fst (Start Scenario.env_recv_eof (Scenario.fresh Scenario.env_recv_eof false)))
                EOF 9%nat eq_refl ltac:(vm_compute; reflexivity)
                ltac:(vm_compute; reflexivity) ltac:(vm_compute; reflexivity))
      as (_ & _ & HStop).
    rewrite HStop. vm_compute. reflexivity.
  - destruct (Stop_after_failed_handshake Scenario2.env_conn_close_fails
                (Scenario.fresh Scenario2.env_conn_close_fails false)
                (fst (Start Scenario2.env_conn_close_fails
                        (Scenario.fresh Scenario2.env_conn_close_fails false)))
                EOF 9%nat eq_refl ltac:(vm_compute; reflexivity)
                ltac:(vm_compute; reflexivity) ltac:(vm_compute; reflexivity))
      as (_ & _ & HStop).
    rewrite HStop. vm_compute. reflexivity.
Defined.

(** C9, as worded, fails in two ways.  After a failed handshake the send
    half cannot be closed either: [Stop] returns that error at once,
    without waiting.  Or the send half is closed and, after the wait, the
    connection cannot be closed: [Stop] returns that error, not the
    timeout. *)
Lemma Stop_after_failed_handshake_counterexample :
  ~ Stop_after_failed_handshake_times_out Scenario.env_close_send_fails
      (Scenario.fresh Scenario.env_close_send_fails false) /\
  ~ Stop_after_failed_handshake_times_out Scenario2.env_conn_close_fails
      (Scenario.fresh Scenario2.env_conn_close_fails false).
Proof.
  split.
  - intros H.
    destruct (H (fst (Start Scenario.env_close_send_fails
                        (Scenario.fresh Scenario.env_close_send_fails false)))
                EOF 9%nat eq_refl ltac:(vm_compute; reflexivity)
                ltac:(vm_compute; reflexivity)) as (_ & _ & K).
    vm_compute in K. discriminate K.
  - intros H.
    destruct (H (fst (Start Scenario2.env_conn_close_fails
                        (Scenario.fresh Scenario2.env_conn_close_fails false)))
                EOF 9%nat eq_refl ltac:(vm_compute; reflexivity)
                ltac:(vm_compute; reflexivity)) as (_ & _ & K).
    vm_compute in K. discriminate K.
Qed.

(** ** Concurrent callers of send *)

Import Concurrent.

Lemma scan_app (h : option nat) (tr1 tr2 : list (nat * Effect)) :
  scan h (tr1 ++ tr2) =
  match scan h tr1 with
  | Some h' => scan h' tr2
  | None => None
  end.
Proof.
  revert h. induction tr1 as [|[i e] tr1 IH]; intros h; cbn; [reflexivity|].
  destruct e, h as [j|]; try reflexivity; try apply IH;
    destruct (Nat.eqb i j); auto.
Qed.

(** While [i] holds the lock every effect is its own. *)
Lemma scan_held (i j : nat) (e : Effect) (mid post : list (nat * Effect))
    (h : option nat) :
  scan (Some i) (mid ++ (j, e) :: post) = Some h ->
  ~ In (i, E_Unlock) mid -> j = i.
Proof.
  induction mid as [|[k e'] mid IH]; cbn [app scan].
  - intros H _. destruct e; try discriminate H;
      destruct (Nat.eqb_spec j i); auto; discriminate H.
  - intros H Hno.
    assert (Hno' : ~ In (i, E_Unlock) mid) by (intros K; apply Hno; now right).
    destruct e'; try discriminate H;
      destruct (Nat.eqb_spec k i) as [->|]; try discriminate H; auto.
    exfalso. apply Hno. now left.
Qed.

Lemma scan_block (pre mid post : list (nat * Effect)) (i j : nat) (e : Effect)
    (h0 h : option nat) :
  scan h0 (pre ++ (i, E_Lock) :: mid ++ (j, e) :: post) = Some h ->
  ~ In (i, E_Unlock) mid -> j = i.
Proof.
  rewrite scan_app. destruct (scan h0 pre) as [[k|]|]; cbn [scan]; try discriminate.
  apply scan_held.
Qed.

Lemma nth_error_set_nth_eq {A} (l : list A) (i : nat) (a x : A) :
  nth_error l i = Some x -> nth_error (set_nth i a l) i = Some a.
Proof.
  revert i. induction l as [|y l IH]; intros [|i]; cbn; try discriminate; auto.
Qed.

Lemma nth_error_set_nth_neq {A} (l : list A) (i j : nat) (a : A) :
  i <> j -> nth_error (set_nth i a l) j = nth_error l j.
Proof.
  revert i j. induction l as [|y l IH]; intros [|i] [|j] H; cbn; auto.
  now destruct H.
Qed.

Lemma lock_invariant_initial (msgs : list Event) :
  lock_invariant (initial msgs).
Proof.
  split; [reflexivity|].
  intros i g H. unfold initial in H. cbn in H.
  rewrite nth_error_map in H. destruct (nth_error msgs i); [|discriminate].
  injection H as <-. discriminate.
Qed.

Lemma lock_invariant_step (env : Env) (ec : eventsClient) (c c' : Config) :
  lock_invariant c -> step env ec c c' -> lock_invariant c'.
Proof.
  intros [Hscan Hcrit] [i Hstep]. unfold step_of in Hstep.
  destruct (nth_error (goroutines c) i) as [g|] eqn:Hg; [|discriminate].
  destruct (next env ec i c g) as [[[m p] es]|] eqn:Hnext; [|discriminate].
  injection Hstep as <-. unfold lock_invariant. cbn [trace mutex goroutines].
  assert (Hother : forall j g', j <> i ->
             nth_error (set_nth i (mkGo (emsg g) p) (goroutines c)) j = Some g' ->
             in_critical (pc g') = true -> mutex c = Some j).
  { intros j g' Hj Hn. rewrite nth_error_set_nth_neq in Hn by auto. eauto. }
  assert (Hself : forall g',
             nth_error (set_nth i (mkGo (emsg g) p) (goroutines c)) i = Some g' ->
             pc g' = p).
  { intros g' Hn. rewrite (nth_error_set_nth_eq _ _ _ _ Hg) in Hn. now injection Hn as <-. }
  rewrite scan_app, Hscan.
  unfold next in Hnext.
  destruct (pc g) eqn:Hpc.
  - (* Lock *)
    destruct (mutex c) eqn:Hm; [discriminate|]. injection Hnext as <- <- <-.
    split; [reflexivity|].
    intros j g' Hn Hc. destruct (Nat.eq_dec j i) as [->|Hj]; [reflexivity|].
    specialize (Hother j g' Hj Hn Hc). discriminate Hother.
  - (* Marshal *)
    assert (Hm : mutex c = Some i) by (apply (Hcrit i g Hg); now rewrite Hpc).
    injection Hnext as <- <- <-. rewrite Hm. cbn. rewrite Nat.eqb_refl.
    split; [reflexivity|].
    intros j g' Hn Hc. destruct (Nat.eq_dec j i) as [->|Hj]; [reflexivity|].
    rewrite <- Hm. eauto.
  - (* SigningManager *)
    assert (Hm : mutex c = Some i) by (apply (Hcrit i g Hg); now rewrite Hpc).
    injection Hnext as <- <- <-. rewrite Hm. cbn. rewrite Nat.eqb_refl.
    split; [reflexivity|].
    intros j g' Hn Hc. destruct (Nat.eq_dec j i) as [->|Hj]; [reflexivity|].
    rewrite <- Hm. eauto.
  - (* Sign *)
    assert (Hm : mutex c = Some i) by (apply (Hcrit i g Hg); now rewrite Hpc).
    destruct (identity ec); injection Hnext as <- <- <-; rewrite Hm; cbn;
      rewrite ?Nat.eqb_refl;
      (split; [reflexivity|];
       intros j g' Hn Hc; destruct (Nat.eq_dec j i) as [->|Hj]; [reflexivity|];
       rewrite <- Hm; eauto).
  - (* Send *)
    assert (Hm : mutex c = Some i) by (apply (Hcrit i g Hg); now rewrite Hpc).
    destruct (stream ec); injection Hnext as <- <- <-; rewrite Hm; cbn;
      rewrite ?Nat.eqb_refl;
      (split; [reflexivity|];
       intros j g' Hn Hc; destruct (Nat.eq_dec j i) as [->|Hj]; [reflexivity|];
       rewrite <- Hm; eauto).
  - (* Unlock *)
    assert (Hm : mutex c = Some i) by (apply (Hcrit i g Hg); now rewrite Hpc).
    injection Hnext as <- <- <-. rewrite Hm. cbn. rewrite Nat.eqb_refl.
    split; [reflexivity|].
    intros j g' Hn Hc. destruct (Nat.eq_dec j i) as [->|Hj].
    + rewrite (Hself g' Hn) in Hc. discriminate Hc.
    + specialize (Hother j g' Hj Hn Hc). congruence.
  - discriminate Hnext.
Qed.

Lemma reachable_lock_invariant (env : Env) (ec : eventsClient) (msgs : list Event)
    (c : Config) :
  reachable env ec msgs c -> lock_invariant c.
Proof.
  induction 1 as [|c c' _ IH Hstep].
  - apply lock_invariant_initial.
  - eapply lock_invariant_step; eauto.
Qed.

Lemma run_reachable (env : Env) (ec : eventsClient) (msgs : list Event)
    (sched : list nat) (c c' : Config) :
  reachable env ec msgs c -> run env ec sched c = Some c' -> reachable env ec msgs c'.
Proof.
  revert c. induction sched as [|i sched IH]; intros c Hr; cbn [run].
  - now intros [= <-].
  - destruct (step_of env ec i c) as [c1|] eqn:Hs; [|discriminate].
    apply IH. eapply reach_step; [exact Hr|]. apply step_intro with (i := i). exact Hs.
Qed.

(** C8.  In every execution of concurrent callers of [send] on one client:
    at most one caller is between [Lock] and [Unlock]; the trace respects
    the lock; and from the [Lock] of a caller up to its [Unlock] every
    marshal, sign and stream write in the trace is that caller's own, so
    the envelopes of two callers are never interleaved and the writes are
    ordered as the lock was taken. *)
Theorem sends_are_mutually_exclusive (env : Env) (ec : eventsClient)
    (msgs : list Event) (c : Config) :
  reachable env ec msgs c ->
  (forall i j gi gj,
      nth_error (goroutines c) i = Some gi -> nth_error (goroutines c) j = Some gj ->
      in_critical (pc gi) = true -> in_critical (pc gj) = true -> i = j) /\
  serialized (trace c) /\
  (forall pre i mid j e post,
      trace c = pre ++ (i, E_Lock) :: mid ++ (j, e) :: post ->
      ~ In (i, E_Unlock) mid -> j = i).
Proof.
  intros Hr. destruct (reachable_lock_invariant env ec msgs c Hr) as [Hscan Hcrit].
  split; [|split].
  - intros i j gi gj Hi Hj Ci Cj.
    pose proof (Hcrit i gi Hi Ci) as A. pose proof (Hcrit j gj Hj Cj) as B.
    congruence.
  - exists (mutex c). exact Hscan.
  - intros pre i mid j e post Htr Hno. rewrite Htr in Hscan.
    eapply scan_block; eauto.
Qed.

Lemma sends_are_mutually_exclusive_witness :
  serialized (trace ConcurrentScenario.final) /\
  wire (trace ConcurrentScenario.final) =
    [(0%nat, mkSignedEvent [2%nat] [3%nat])].
Proof.
  split; [|reflexivity].
  refine (proj1 (proj2 (sends_are_mutually_exclusive Scenario.env_ok
                          ConcurrentScenario.ec
                          [ConcurrentScenario.m1; ConcurrentScenario.m2]
                          ConcurrentScenario.final _))).
  apply (run_reachable Scenario.env_ok ConcurrentScenario.ec
           [ConcurrentScenario.m1; ConcurrentScenario.m2]
           ConcurrentScenario.schedule
           (initial [ConcurrentScenario.m1; ConcurrentScenario.m2])).
  - apply reach_init.
  - reflexivity.
Defined.

(** * Further properties of the client *)

(** ** send *)

(** What [send] adds to the history, path by path. *)
Lemma send_paths (env : Env) (m : Event) (s : State) :
  let evs := new_effects s (fst (send env m s)) in
  let r := snd (send env m s) in
  (exists err, Marshal env m = inl err /\
     evs = [E_Lock; E_Marshal m (inl err); E_Unlock] /\
     r = Ok (Some (Wrap err "marshal event failed"))) \/
  (exists payload, Marshal env m = inr payload /\
     evs = [E_Lock; E_Marshal m (inr payload); E_SigningManager false; E_Unlock] /\
     r = Ok (Some (New "signing manager is nil"))) \/
  (exists payload, Marshal env m = inr payload /\ identity (client s) = None /\
     evs = [E_Lock; E_Marshal m (inr payload); E_SigningManager true; E_Unlock] /\
     r = Panic nil_deref) \/
  (exists payload u err, Marshal env m = inr payload /\ identity (client s) = Some u /\
     evs = [E_Lock; E_Marshal m (inr payload); E_SigningManager true;
            E_Sign payload (PrivateKey u) (inl err); E_Unlock] /\
     r = Ok (Some (WithMessage err "sign failed"))) \/
  (exists payload u sg, Marshal env m = inr payload /\ identity (client s) = Some u /\
     stream (client s) = None /\
     evs = [E_Lock; E_Marshal m (inr payload); E_SigningManager true;
            E_Sign payload (PrivateKey u) (inr sg); E_Unlock] /\
     r = Panic nil_deref) \/
  (exists payload u sg st w, Marshal env m = inr payload /\ identity (client s) = Some u /\
     stream (client s) = Some st /\
     evs = [E_Lock; E_Marshal m (inr payload); E_SigningManager true;
            E_Sign payload (PrivateKey u) (inr sg);
            E_Send st (mkSignedEvent payload sg) w; E_Unlock] /\
     r = Ok w).
Proof.
  cbn zeta. unfold send. go_unfold.
  destruct (Marshal env m) as [e|payload]; cbn.
  { left. exists e. rewrite <- !app_assoc. rewrite new_effects_app. auto. }
  right. destruct (SigningManager env _) eqn:Hm; cbn.
  2:{ left. exists payload. rewrite <- !app_assoc. rewrite new_effects_app. auto. }
  right. destruct (identity (client s)) as [u|]; cbn.
  2:{ left. exists payload. rewrite <- !app_assoc. rewrite new_effects_app. auto. }
  right. destruct (Sign env _ payload (PrivateKey u)) as [e|sg] eqn:Hsg; cbn.
  { left. exists payload, u, e. rewrite <- !app_assoc. rewrite new_effects_app. auto. }
  right. destruct (stream (client s)) as [st|]; cbn.
  2:{ left. exists payload, u, sg. rewrite <- !app_assoc. rewrite new_effects_app. auto. }
  right. exists payload, u, sg, st. eexists.
  rewrite <- !app_assoc. rewrite new_effects_app. cbn [app]. auto 10.
Qed.

Ltac in_cases H :=
  cbn in H;
  repeat match type of H with
         | _ \/ _ => destruct H as [H|H]
         | False => destruct H
         end;
  try discriminate H.

(** X1.  Whatever happens in [send], error or panic included, what it adds
    to the history starts with the lock being taken and ends with the lock
    being released, with no lock operation in between, and contains at most
    one stream write. *)
Theorem send_always_unlocks (env : Env) (m : Event) (s : State) :
  exists body,
    new_effects s (fst (send env m s)) = E_Lock :: body ++ [E_Unlock] /\
    existsb is_lock_op body = false /\
    (count is_send body <= 1)%nat.
Proof.
  destruct (send_paths env m s)
    as [(e & _ & -> & _)|[(p & _ & -> & _)|[(p & _ & _ & -> & _)|
       [(p & u & e & _ & _ & -> & _)|[(p & u & sg & _ & _ & _ & -> & _)|
        (p & u & sg & st & w & _ & _ & _ & -> & _)]]]]].
  - exists [E_Marshal m (inl e)]. cbn. auto.
  - exists [E_Marshal m (inr p); E_SigningManager false]. cbn. auto.
  - exists [E_Marshal m (inr p); E_SigningManager true]. cbn. auto.
  - exists [E_Marshal m (inr p); E_SigningManager true; E_Sign p (PrivateKey u) (inl e)].
    cbn. auto.
  - exists [E_Marshal m (inr p); E_SigningManager true; E_Sign p (PrivateKey u) (inr sg)].
    cbn. auto.
  - exists [E_Marshal m (inr p); E_SigningManager true; E_Sign p (PrivateKey u) (inr sg);
            E_Send st (mkSignedEvent p sg) w].
    cbn. auto.
Qed.

(** X2.  Every envelope [send] writes on the stream carries the marshalled
    message as its bytes and, as its signature, the answer of the signing
    manager for these bytes under the private key of the client's identity;
    it is written on the client's stream, and [send] returns what the write
    returned. *)
Theorem send_writes_the_signed_payload (env : Env) (m : Event) (s : State)
    (st : Stream) (w : SignedEvent) (r : option error) :
  In (E_Send st w r) (new_effects s (fst (send env m s))) ->
  Marshal env m = inr (EventBytes w) /\
  stream (client s) = Some st /\
  (exists u, identity (client s) = Some u /\
             In (E_Sign (EventBytes w) (PrivateKey u) (inr (Signature w)))
                (new_effects s (fst (send env m s)))) /\
  snd (send env m s) = Ok r.
Proof.
  destruct (send_paths env m s)
    as [(e & _ & -> & _)|[(p & _ & -> & _)|[(p & _ & _ & -> & _)|
       [(p & u & e & _ & _ & -> & _)|[(p & u & sg & _ & _ & _ & -> & _)|
        (p & u & sg & st' & w' & Hm & Hu & Hs & -> & Hr)]]]]];
    intros H; cbn in H;
    repeat match type of H with
           | _ \/ _ => destruct H as [H|H]
           | False => destruct H
           end; try discriminate H.
  injection H as <- <- <-. cbn.
  split; [exact Hm|]. split; [exact Hs|]. split; [|exact Hr].
  exists u. split; [exact Hu|]. auto 10.
Qed.

Lemma send_writes_the_signed_payload_witness :
  snd (send Scenario.env_ok ConcurrentScenario.m1 (Scenario.started Scenario.env_ok))
    = Ok None.
Proof.
  exact (proj2 (proj2 (proj2
           (send_writes_the_signed_payload Scenario.env_ok ConcurrentScenario.m1
              (Scenario.started Scenario.env_ok) 9%nat
              (mkSignedEvent [2%nat] [3%nat]) None
              ltac:(vm_compute; auto 10))))).
Defined.

(** X3.  [send] writes nothing when it fails before the write: a message
    that cannot be marshalled gives "marshal event failed" around the
    marshal error without asking for a signature; a nil signing manager
    gives "signing manager is nil"; a failing signature gives "sign failed"
    with the signing error.  In each case the stream is not written. *)
Theorem send_failures_write_nothing (env : Env) (m : Event) (s : State) :
  let evs := new_effects s (fst (send env m s)) in
  (forall err, Marshal env m = inl err ->
     snd (send env m s) = Ok (Some (Wrap err "marshal event failed")) /\
     existsb is_sign evs = false /\ existsb is_send evs = false) /\
  (In (E_SigningManager false) evs ->
     snd (send env m s) = Ok (Some (New "signing manager is nil")) /\
     existsb is_sign evs = false /\ existsb is_send evs = false) /\
  (forall payload key err, In (E_Sign payload key (inl err)) evs ->
     snd (send env m s) = Ok (Some (WithMessage err "sign failed")) /\
     existsb is_send evs = false).
Proof.
  cbn zeta.
  destruct (send_paths env m s)
    as [(e & Hm & -> & Hr)|[(p & Hm & -> & Hr)|[(p & Hm & _ & -> & Hr)|
       [(p & u & e & Hm & _ & -> & Hr)|[(p & u & sg & Hm & _ & _ & -> & Hr)|
        (p & u & sg & st' & w' & Hm & Hu & Hs & -> & Hr)]]]]];
    rewrite Hr, Hm; (split; [|split]).
  all: try (intros err Hf; try discriminate Hf; injection Hf as <-;
            repeat split; reflexivity).
  all: try (intros H; in_cases H; repeat split; reflexivity).
  all: try (intros payload key err H; in_cases H;
            injection H as <- <- <-; repeat split; reflexivity).
Qed.

Lemma send_failures_write_nothing_witness :
  snd (send Scenario2.env_marshal_fails ConcurrentScenario.m1
         (Scenario.started Scenario.env_ok))
    = Ok (Some (Wrap (Foreign 8) "marshal event failed")).
Proof.
  exact (proj1 (proj1 (send_failures_write_nothing Scenario2.env_marshal_fails
                         ConcurrentScenario.m1 (Scenario.started Scenario.env_ok))
                 (Foreign 8) eq_refl)).
Defined.

(** ** The asynchronous halves *)

(** The state in which the asynchronous halves call [send]. *)
Lemma RegisterAsync_calls_send (env : Env) (ies : list Interest) (s : State)
    (ident : Identity) (creator : bytes) (ts : Timestamp) :
  identity (client s) = Some ident ->
  SerializedIdentity env (hist s) ident = inr creator ->
  TimestampProto env (hist s ++ [E_SerializedIdentity (inr creator)]) = inr ts ->
  let s2 := mkState (client s) (chans s)
              (hist s ++ [E_SerializedIdentity (inr creator); E_TimestampProto (inr ts)]) in
  let emsg := mkEvent (Some (Event_Register ies)) creator (tlsCertHash (client s)) ts in
  RegisterAsync env ies s =
    match send env emsg s2 with
    | (s3, Ok (Some e)) =>
      (mkState (client s3) (chans s3) (hist s3 ++ [E_Log LError "error on Register send"]),
       Ok (Some e))
    | (s3, r) => (s3, r)
    end.
Proof.
  intros Hi Hc Ht. cbn zeta.
  unfold RegisterAsync. unfold bind at 1. unfold getClient at 1. rewrite Hi.
  unfold bind at 1. unfold call at 1. rewrite Hc.
  unfold bind at 1. unfold call at 1. cbn [hist client chans]. rewrite Ht.
  unfold bind at 1. rewrite <- app_assoc. cbn [app].
  destruct (send env _ _) as [s3 [[e|]|msg]]; reflexivity.
Qed.

Lemma UnregisterAsync_calls_send (env : Env) (ies : list Interest) (s : State)
    (ident : Identity) (creator : bytes) (ts : Timestamp) :
  identity (client s) = Some ident ->
  SerializedIdentity env (hist s) ident = inr creator ->
  TimestampProto env (hist s ++ [E_SerializedIdentity (inr creator)]) = inr ts ->
  let s2 := mkState (client s) (chans s)
              (hist s ++ [E_SerializedIdentity (inr creator); E_TimestampProto (inr ts)]) in
  let emsg := mkEvent (Some (Event_Unregister ies)) creator (tlsCertHash (client s)) ts in
  UnregisterAsync env ies s =
    match send env emsg s2 with
    | (s3, Ok (Some e)) => (s3, Ok (Some (Wrap e "unregister send failed")))
    | (s3, r) => (s3, r)
    end.
Proof.
  intros Hi Hc Ht. cbn zeta.
  unfold UnregisterAsync. unfold bind at 1. unfold getClient at 1. rewrite Hi.
  unfold bind at 1. unfold call at 1. rewrite Hc.
  unfold bind at 1. unfold call at 1. cbn [hist client chans]. rewrite Ht.
  unfold bind at 1. rewrite <- app_assoc. cbn [app].
  destruct (send env _ _) as [s3 [[e|]|msg]]; reflexivity.
Qed.

(** X4.  Once the identity is serialised and the timestamp made, the two
    asynchronous halves send a message that carries the interests under
    their own variant, the serialised identity as creator, the TLS
    certificate hash of the client and the timestamp.  When that send
    fails with [e], [RegisterAsync] writes an error line in the log and
    returns [e] itself, while [UnregisterAsync] returns [e] wrapped with
    "unregister send failed" and logs nothing. *)
Theorem async_halves_surface_send_errors (env : Env) (ies : list Interest) (s : State)
    (ident : Identity) (creator : bytes) (ts : Timestamp) (e : error) :
  identity (client s) = Some ident ->
  SerializedIdentity env (hist s) ident = inr creator ->
  TimestampProto env (hist s ++ [E_SerializedIdentity (inr creator)]) = inr ts ->
  let s2 := mkState (client s) (chans s)
              (hist s ++ [E_SerializedIdentity (inr creator); E_TimestampProto (inr ts)]) in
  let reg := mkEvent (Some (Event_Register ies)) creator (tlsCertHash (client s)) ts in
  let unreg := mkEvent (Some (Event_Unregister ies)) creator (tlsCertHash (client s)) ts in
  (snd (send env reg s2) = Ok (Some e) ->
     snd (RegisterAsync env ies s) = Ok (Some e) /\
     hist (fst (RegisterAsync env ies s)) =
       hist (fst (send env reg s2)) ++ [E_Log LError "error on Register send"]) /\
  (snd (send env unreg s2) = Ok (Some e) ->
     snd (UnregisterAsync env ies s) = Ok (Some (Wrap e "unregister send failed")) /\
     fst (UnregisterAsync env ies s) = fst (send env unreg s2)) /\
  (snd (send env reg s2) = Ok None -> RegisterAsync env ies s = send env reg s2) /\
  (snd (send env unreg s2) = Ok None -> UnregisterAsync env ies s = send env unreg s2).
Proof.
  intros Hi Hc Ht. cbn zeta.
  rewrite (RegisterAsync_calls_send env ies s ident creator ts Hi Hc Ht).
  rewrite (UnregisterAsync_calls_send env ies s ident creator ts Hi Hc Ht).
  cbn zeta.
  destruct (send env (mkEvent (Some (Event_Register ies)) _ _ _) _) as [s3 r3].
  destruct (send env (mkEvent (Some (Event_Unregister ies)) _ _ _) _) as [s4 r4].
  cbn [fst snd]. split; [|split; [|split]]; intros ->; cbn; auto.
Qed.

Lemma async_halves_surface_send_errors_witness :
  snd (RegisterAsync Scenario2.env_marshal_fails [4%nat] (Scenario.started Scenario.env_ok))
    = Ok (Some (Wrap (Foreign 8) "marshal event failed")) /\
  snd (UnregisterAsync Scenario2.env_marshal_fails [4%nat] (Scenario.started Scenario.env_ok))
    = Ok (Some (Wrap (Wrap (Foreign 8) "marshal event failed") "unregister send failed")).
Proof.
  pose proof (async_halves_surface_send_errors Scenario2.env_marshal_fails [4%nat]
                (Scenario.started Scenario.env_ok) Scenario.ident0 [1%nat] 0%nat
                (Wrap (Foreign 8) "marshal event failed") eq_refl eq_refl eq_refl)
    as (R & U & _).
  split; [exact (proj1 (R eq_refl))|exact (proj1 (U eq_refl))].
Defined.

Lemma send_async (env : Env) (m : Event) (s : State) :
  forallb async_effect (new_effects s (fst (send env m s))) = true.
Proof.
  destruct (send_paths env m s)
    as [(? & _ & -> & _)|[(? & _ & -> & _)|[(? & _ & _ & -> & _)|
       [(? & ? & ? & _ & _ & -> & _)|[(? & ? & ? & _ & _ & _ & -> & _)|
        (? & ? & ? & ? & ? & _ & _ & _ & -> & _)]]]]]; reflexivity.
Qed.

Lemma send_extends (env : Env) (m : Event) (s : State) :
  hist (fst (send env m s)) = hist s ++ new_effects s (fst (send env m s)).
Proof.
  destruct (send env m s) as [s1 r] eqn:Hs.
  apply send_frame in Hs as (l & F & _). cbn [fst].
  rewrite (frame_new_effects s s1 l F). apply F.
Qed.

Lemma RegisterAsync_async (env : Env) (ies : list Interest) (s : State) :
  forallb async_effect (new_effects s (fst (RegisterAsync env ies s))) = true.
Proof.
  unfold RegisterAsync. unfold bind at 1. unfold getClient at 1.
  destruct (identity (client s)) as [ident|].
  2:{ cbn. now rewrite new_effects_refl. }
  unfold bind at 1. unfold call at 1.
  destruct (SerializedIdentity env (hist s) ident) as [e1|creator].
  { cbn [fst ret]. now rewrite new_effects_app. }
  unfold bind at 1. unfold call at 1. cbn [hist client chans].
  destruct (TimestampProto env _) as [e1|ts].
  { cbn [fst ret]. now rewrite <- app_assoc, new_effects_app. }
  unfold bind at 1.
  match goal with |- context [send env ?m ?s0] =>
    pose proof (send_async env m s0) as A; pose proof (send_extends env m s0) as X;
    destruct (send env m s0) as [s3 r3] end.
  cbn [fst hist] in A, X.
  remember (new_effects _ s3) as l eqn:Hl. clear Hl.
  rewrite <- !app_assoc in X. cbn [app] in X.
  destruct r3 as [[e3|]|msg]; go_unfold.
  - erewrite new_effects_of
      by (cbn [hist]; rewrite X, <- app_assoc; cbn [app]; reflexivity).
    cbn. rewrite forallb_app, A. reflexivity.
  - erewrite new_effects_of by (rewrite X; reflexivity). cbn. exact A.
  - erewrite new_effects_of by (rewrite X; reflexivity). cbn. exact A.
Qed.

Lemma UnregisterAsync_async (env : Env) (ies : list Interest) (s : State) :
  forallb async_effect (new_effects s (fst (UnregisterAsync env ies s))) = true.
Proof.
  unfold UnregisterAsync. unfold bind at 1. unfold getClient at 1.
  destruct (identity (client s)) as [ident|].
  2:{ cbn. now rewrite new_effects_refl. }
  unfold bind at 1. unfold call at 1.
  destruct (SerializedIdentity env (hist s) ident) as [e1|creator].
  { cbn [fst ret]. now rewrite new_effects_app. }
  unfold bind at 1. unfold call at 1. cbn [hist client chans].
  destruct (TimestampProto env _) as [e1|ts].
  { cbn [fst ret]. now rewrite <- app_assoc, new_effects_app. }
  unfold bind at 1.
  match goal with |- context [send env ?m ?s0] =>
    pose proof (send_async env m s0) as A; pose proof (send_extends env m s0) as X;
    destruct (send env m s0) as [s3 r3] end.
  cbn [fst hist] in A, X.
  remember (new_effects _ s3) as l eqn:Hl. clear Hl.
  rewrite <- !app_assoc in X. cbn [app] in X.
  destruct r3 as [[e3|]|msg]; go_unfold;
    (erewrite new_effects_of by (rewrite X; reflexivity)); cbn; exact A.
Qed.

(** X5.  The asynchronous halves never read from the stream and never
    wait: all they do is serialise the identity, make the timestamp, and
    lock, marshal, sign, write and log.  When its asynchronous half fails,
    [register] (and [Unregister]) stops there: it returns that error in the
    state the half left, so it has not read from the stream or waited
    either. *)
Theorem handshake_stops_when_send_fails (env : Env) (ies : list Interest) (s : State) :
  forallb async_effect (new_effects s (fst (RegisterAsync env ies s))) = true /\
  forallb async_effect (new_effects s (fst (UnregisterAsync env ies s))) = true /\
  (forall e, snd (RegisterAsync env ies s) = Ok (Some e) ->
     register env ies s = RegisterAsync env ies s /\
     existsb is_recv (new_effects s (fst (register env ies s))) = false /\
     existsb is_select (new_effects s (fst (register env ies s))) = false) /\
  (forall e, snd (UnregisterAsync env ies s) = Ok (Some e) ->
     Unregister env ies s = UnregisterAsync env ies s /\
     existsb is_recv (new_effects s (fst (Unregister env ies s))) = false /\
     existsb is_select (new_effects s (fst (Unregister env ies s))) = false).
Proof.
  split; [apply RegisterAsync_async|]. split; [apply UnregisterAsync_async|]. split.
  - intros e H. assert (E : register env ies s = RegisterAsync env ies s).
    { unfold register. unfold bind at 1.
      destruct (RegisterAsync env ies s) as [s1 r]. cbn in H. subst r. reflexivity. }
    rewrite E. split; [reflexivity|].
    split; apply (existsb_disjoint async_effect); try apply RegisterAsync_async;
      disjoint_kinds.
  - intros e H. assert (E : Unregister env ies s = UnregisterAsync env ies s).
    { unfold Unregister. unfold bind at 1.
      destruct (UnregisterAsync env ies s) as [s1 r]. cbn in H. subst r. reflexivity. }
    rewrite E. split; [reflexivity|].
    split; apply (existsb_disjoint async_effect); try apply UnregisterAsync_async;
      disjoint_kinds.
Qed.

Lemma handshake_stops_when_send_fails_witness :
  register Scenario2.env_marshal_fails [4%nat] (Scenario.started Scenario.env_ok)
    = RegisterAsync Scenario2.env_marshal_fails [4%nat] (Scenario.started Scenario.env_ok).
Proof.
  exact (proj1 (proj1 (proj2 (proj2
           (handshake_stops_when_send_fails Scenario2.env_marshal_fails [4%nat]
              (Scenario.started Scenario.env_ok))))
           (Wrap (Foreign 8) "marshal event failed") eq_refl)).
Defined.

(** ** Unregister *)

Lemma Unregister_after_send (env : Env) (ies : list Interest) (s s1 : State) (st : Stream) :
  UnregisterAsync env ies s = (s1, Ok None) ->
  stream (client s1) = Some st ->
  let h := hist s1 ++ [E_Go_reader st] in
  Unregister env ies s =
    match select_race (SelectTie env h) (RecvLatency env h) (regTimeout (client s1)) with
    | (ChanArm, el) =>
      (mkState (client s1) (chans s1)
         (h ++ [E_Recv st (StreamRecv env h st); E_Select ChanArm el]),
       Ok (classify_unregister (StreamRecv env h st)))
    | (TimerArm, el) =>
      (mkState (client s1) (chans s1) (h ++ [E_Select TimerArm el]),
       Ok (Some (New "unregister timeout")))
    end.
Proof.
  intros Hr Hs. cbn zeta. unfold Unregister. unfold bind at 1. rewrite Hr.
  unfold bind at 1. unfold getClient at 1. rewrite Hs.
  unfold bind at 1. unfold emit at 1. cbn [hist client chans].
  destruct (select_race _ _ _) as [[|] el]; go_unfold;
    rewrite <- ?app_assoc; reflexivity.
Qed.

(** X6.  [Unregister] mirrors [register].  Once its asynchronous send has
    succeeded it ends in one of three ways: a message arrives no later
    than the registration timeout and is classified (only an Unregister
    acknowledgement gives nil; a Register acknowledgement or any other
    variant gives "invalid object for unregister"; an unset variant gives
    "nil object for unregister"); the receive fails and its error is
    returned; or the timer fires first and "unregister timeout" is
    returned, in which case nothing was received. *)
Theorem Unregister_three_outcomes (env : Env) (ies : list Interest) (s s1 : State)
    (st : Stream) :
  UnregisterAsync env ies s = (s1, Ok None) ->
  stream (client s1) = Some st ->
  let h := hist s1 ++ [E_Go_reader st] in
  let arm := fst (select_race (SelectTie env h) (RecvLatency env h)
                              (regTimeout (client s1))) in
  let result := snd (Unregister env ies s) in
  ((exists msg,
      arm = ChanArm /\ StreamRecv env h st = inr msg /\
      result = Ok (match Event_Event msg with
                   | Some (Event_Unregister _) => None
                   | None => Some (New "nil object for unregister")
                   | Some _ => Some (New "invalid object for unregister")
                   end))
   \/ (exists inerr,
      arm = ChanArm /\ StreamRecv env h st = inl inerr /\ result = Ok (Some inerr))
   \/ (arm = TimerArm /\ result = Ok (Some (New "unregister timeout")) /\
       existsb is_recv (new_effects s1 (fst (Unregister env ies s))) = false)).
Proof.
  intros Hr Hs. cbn zeta.
  rewrite (Unregister_after_send env ies s s1 st Hr Hs).
  destruct (select_race _ _ _) as [[|] el] eqn:Hrace; cbn [fst snd].
  - destruct (StreamRecv env _ st) as [inerr|msg] eqn:Hrecv.
    + right; left. exists inerr. auto.
    + left. exists msg. auto.
  - right; right. split; [reflexivity|]. split; [reflexivity|].
    rewrite <- app_assoc, new_effects_app. reflexivity.
Qed.

Lemma Unregister_three_outcomes_witness :
  snd (Unregister Scenario.env_ok [4%nat] (Scenario.started Scenario.env_ok))
    = Ok (Some (New "invalid object for unregister")).
Proof.
  destruct (Unregister_three_outcomes Scenario.env_ok [4%nat]
              (Scenario.started Scenario.env_ok)
              (fst (UnregisterAsync Scenario.env_ok [4%nat]
                      (Scenario.started Scenario.env_ok)))
              9%nat ltac:(vm_compute; reflexivity) ltac:(vm_compute; reflexivity))
    as [(msg & _ & Hm & Hres) | [(e & _ & He & _) | (Harm & _)]].
  - rewrite Hres. vm_compute in Hm. injection Hm as <-. reflexivity.
  - vm_compute in He. discriminate He.
  - vm_compute in Harm. discriminate Harm.
Defined.

(** ** Recv *)

(** X7.  The single-message accessor [Recv] on an open stream: a message is
    returned as it is and the adapter is not told; on [io.EOF] the adapter,
    if there is one, is told [Disconnected(nil)] and [Recv] returns the
    error [io.EOF], where one turn of the dispatch loop returns nil in the
    same state; on another error the adapter is told that error and it is
    returned.  In every case exactly one receive is made. *)
Theorem Recv_classifies (env : Env) (s : State) (st : Stream) :
  stream (client s) = Some st ->
  let evs := new_effects s (fst (Recv env s)) in
  count is_recv evs = 1%nat /\
  (forall m, StreamRecv env (hist s) st = inr m ->
     snd (Recv env s) = Ok (Some m, None) /\ evs = [E_Recv st (inr m)]) /\
  (StreamRecv env (hist s) st = inl EOF ->
     snd (Recv env s) = Ok (None, Some EOF) /\
     snd (processEvents_turn env s) = Ok (Some None) /\
     evs = E_Recv st (inl EOF) ::
           match adapter (client s) with
           | Some _ => [E_Disconnected None]
           | None => []
           end) /\
  (forall e, StreamRecv env (hist s) st = inl e -> e <> EOF ->
     snd (Recv env s) = Ok (None, Some e) /\
     snd (processEvents_turn env s) = Ok (Some (Some e)) /\
     evs = E_Recv st (inl e) ::
           match adapter (client s) with
           | Some _ => [E_Disconnected (Some e)]
           | None => []
           end).
Proof.
  intros Hs. cbn zeta.
  unfold Recv, processEvents_turn, notifyDisconnected. go_unfold. rewrite Hs. cbn.
  destruct (StreamRecv env (hist s) st) as [e|m] eqn:Hrecv; cbn.
  - destruct (isEOF e) eqn:He, (adapter (client s)); cbn;
      rewrite <- ?app_assoc, new_effects_app;
      (split; [reflexivity|]); (split; [discriminate|]);
      (split; [intros [= ->]; try discriminate He; auto
              |intros e' [= <-] Hne; destruct e; try discriminate He; auto;
               now destruct Hne]).
  - rewrite new_effects_app.
    split; [reflexivity|]. split; [intros m' [= <-]; auto|].
    split; [discriminate|intros e' H; discriminate H].
Qed.

Lemma Recv_classifies_witness :
  snd (Recv Scenario.env_recv_eof (Scenario.started Scenario.env_recv_eof))
    = Ok (None, Some EOF) /\
  snd (processEvents_turn Scenario.env_recv_eof (Scenario.started Scenario.env_recv_eof))
    = Ok (Some None).
Proof.
  destruct (Recv_classifies Scenario.env_recv_eof
              (Scenario.started Scenario.env_recv_eof) 9%nat eq_refl)
    as (_ & _ & H & _).
  destruct (H eq_refl) as (A & B & _). split; [exact A|exact B].
Defined.

(** ** More on the dispatch loop *)

Lemma processEvents_for_running (env : Env) (fuel : nat) (s s' : State) (st : Stream) :
  stream (client s) = Some st ->
  processEvents_for env fuel s = (s', Ok None) ->
  processEvents env fuel s = (s', Ok None).
Proof.
  intros Hs H. unfold processEvents. unfold bind at 1. unfold getClient at 1.
  now rewrite Hs, H.
Qed.

(** X8.  While the stream delivers messages and the adapter answers
    continue=true, the dispatch loop goes on, whatever error the adapter
    returns with it: that error is dropped.  After any number of turns the
    loop is still receiving, has made one receive and one adapter call per
    turn, and has closed neither the completion channel nor the send
    half. *)
Theorem processEvents_goes_on (env : Env) (s : State) (st : Stream) (a : nat) :
  stream (client s) = Some st ->
  adapter (client s) = Some a ->
  (forall h, exists m, StreamRecv env h st = inr m) ->
  (forall h m, fst (AdapterRecv env h m) = true) ->
  forall fuel,
    snd (processEvents env fuel s) = Ok None /\
    client (fst (processEvents env fuel s)) = client s /\
    chans (fst (processEvents env fuel s)) = chans s /\
    count is_recv (new_effects s (fst (processEvents env fuel s))) = fuel /\
    count is_adapter_call (new_effects s (fst (processEvents env fuel s))) = fuel /\
    forallb dispatch_effect (new_effects s (fst (processEvents env fuel s))) = true.
Proof.
  intros Hs Ha Hrecv Hcont fuel.
  assert (H : exists s' l,
             processEvents_for env fuel s = (s', Ok None) /\ frame s s' l /\
             count is_recv l = fuel /\ count is_adapter_call l = fuel /\
             forallb dispatch_effect l = true).
  { revert s Hs Ha. induction fuel as [|n IH]; intros s Hs Ha.
    - exists s, []. cbn. split; [reflexivity|]. split; [apply frame_refl|]. auto.
    - destruct (Hrecv (hist s)) as [m Hm].
      pose proof (Hcont (hist s ++ [E_Recv st (inr m)]) m) as Hc.
      destruct (AdapterRecv env (hist s ++ [E_Recv st (inr m)]) m) as [cont F] eqn:Had.
      cbn in Hc. subst cont.
      set (s1 := mkState (client s) (chans s)
                   (hist s ++ [E_Recv st (inr m); E_AdapterRecv m true F])).
      assert (Ht : processEvents_turn env s = (s1, Ok None)).
      { unfold processEvents_turn. go_unfold. rewrite Hs. cbn. rewrite Hm. cbn.
        rewrite Ha. cbn. rewrite Had. cbn. unfold s1. now rewrite <- app_assoc. }
      destruct (IH s1 Hs Ha) as (s' & l & Hfor & F' & C1 & C2 & D).
      exists s', ([E_Recv st (inr m); E_AdapterRecv m true F] ++ l).
      split; [cbn [processEvents_for]; unfold bind at 1; now rewrite Ht|].
      split; [eapply frame_trans; [|exact F']; unfold frame, s1; cbn; auto|].
      rewrite !count_app, C1, C2. cbn. rewrite D. auto. }
  destruct H as (s' & l & Hfor & F & C1 & C2 & D).
  rewrite (processEvents_for_running env fuel s s' st Hs Hfor). cbn [fst snd].
  rewrite (frame_new_effects s s' l F). destruct F as (F1 & F2 & _). auto 10.
Qed.

Lemma processEvents_goes_on_witness :
  snd (processEvents Scenario3.env_endless 5 (Scenario.started Scenario3.env_endless))
    = Ok None.
Proof.
  refine (proj1 (processEvents_goes_on Scenario3.env_endless
                   (Scenario.started Scenario3.env_endless) 9%nat 0%nat
                   eq_refl eq_refl _ _ 5%nat)).
  - intros h. exists Scenario.block. reflexivity.
  - intros h m. reflexivity.
Defined.

(** X9.  Without an adapter the dispatch loop only receives: messages are
    taken from the stream and dropped, nobody is told of the end of the
    stream, and the loop still returns nil on [io.EOF] and the receive
    error otherwise. *)
Theorem processEvents_without_adapter (env : Env) (s : State) (st : Stream) :
  stream (client s) = Some st ->
  adapter (client s) = None ->
  (forall fuel s' r,
     processEvents_for env fuel s = (s', r) ->
     forallb is_recv (new_effects s s') = true /\
     existsb is_adapter_call (new_effects s s') = false) /\
  (forall m, StreamRecv env (hist s) st = inr m ->
     processEvents_turn env s =
       (mkState (client s) (chans s) (hist s ++ [E_Recv st (inr m)]), Ok None)) /\
  (StreamRecv env (hist s) st = inl EOF ->
     snd (processEvents_turn env s) = Ok (Some None)) /\
  (forall e, StreamRecv env (hist s) st = inl e -> e <> EOF ->
     snd (processEvents_turn env s) = Ok (Some (Some e))).
Proof.
  intros Hs Ha.
  assert (Hturn : forall s0 s1 r, stream (client s0) = Some st -> adapter (client s0) = None ->
            processEvents_turn env s0 = (s1, r) ->
            frame s0 s1 [E_Recv st (StreamRecv env (hist s0) st)]).
  { intros s0 s1 r Hs0 Ha0. unfold processEvents_turn, notifyDisconnected. go_unfold.
    rewrite Hs0, Ha0. cbn.
    destruct (StreamRecv env (hist s0) st) as [e|m]; cbn;
      [destruct (isEOF e); cbn|]; intros [= <- <-]; unfold frame; cbn; auto. }
  split; [|split; [|split]].
  - intros fuel. revert s Hs Ha.
    induction fuel as [|n IH]; intros s Hs Ha s' r; cbn [processEvents_for].
    + cbn. intros [= <- <-]. rewrite new_effects_refl. auto.
    + unfold bind at 1. destruct (processEvents_turn env s) as [s1 r1] eqn:Ht.
      pose proof (Hturn s s1 r1 Hs Ha Ht) as F.
      destruct r1 as [[e|]|msg].
      * cbn. intros [= <- <-]. rewrite (frame_new_effects _ _ _ F). auto.
      * intros H. destruct F as (F1 & F2 & F3).
        destruct (IH s1) with (s' := s') (r := r) as [A B]; try congruence.
        assert (Hext : hist s' = hist s1 ++ new_effects s1 s').
        { apply processEvents_for_frame in H as (l & F' & _).
          rewrite (frame_new_effects _ _ _ F'). apply F'. }
        erewrite (new_effects_of s s')
          by (rewrite Hext, F3, <- app_assoc; reflexivity).
        cbn. rewrite A, B. auto.
      * intros [= <- <-]. rewrite (frame_new_effects _ _ _ F). auto.
  - intros m Hm. unfold processEvents_turn. go_unfold. rewrite Hs. cbn.
    rewrite Hm. cbn. rewrite Ha. reflexivity.
  - intros He. unfold processEvents_turn, notifyDisconnected. go_unfold.
    rewrite Hs. cbn. rewrite He. cbn. rewrite Ha. reflexivity.
  - intros e He Hne. unfold processEvents_turn, notifyDisconnected. go_unfold.
    rewrite Hs. cbn. rewrite He. cbn. rewrite Ha.
    destruct e; try reflexivity. now destruct Hne.
Qed.

Lemma processEvents_without_adapter_witness :
  snd (processEvents_turn Scenario.env_recv_eof (Scenario3.no_adapter Scenario.env_recv_eof))
    = Ok (Some None).
Proof.
  destruct (processEvents_without_adapter Scenario.env_recv_eof
              (Scenario3.no_adapter Scenario.env_recv_eof) 9%nat eq_refl eq_refl)
    as (_ & _ & H & _).
  exact (H eq_refl).
Defined.

(** ** More on Stop *)

(** X10.  The graceful shutdown: when closing the send half succeeds and
    the dispatch loop closes the completion channel before the shutdown
    timeout, [Stop] waits only until then, closes the connection and returns
    what closing the connection returned: nil when it succeeds, and never
    the timeout error. *)
Theorem Stop_graceful (env : Env) (s : State) (st : Stream) (conn : Conn)
    (t : time.Duration) :
  stream (client s) = Some st ->
  clientConn (client s) = Some conn ->
  StreamCloseSend env (hist s) st = None ->
  completion_ready env (draining s st) = Some t ->
  Z.max 0 t < Z.max 0 (TimeoutOrDefault_EventHubConnection env) ->
  let h2 := hist s ++ [E_CloseSend st None; E_Select ChanArm (Z.max 0 t)] in
  Stop env s =
    (mkState (client s) (chans s) (h2 ++ [E_ConnClose conn (ConnClose env h2 conn)]),
     Ok (ConnClose env h2 conn)).
Proof.
  intros Hs Hc Hcs Hready Hlt. cbn zeta.
  unfold Stop. go_unfold. rewrite Hs. cbn. rewrite Hcs. cbn.
  unfold draining in Hready. unfold completion_ready in *. cbn [client chans hist] in *.
  rewrite Hready, (select_race_early _ t _ Hlt). cbn. rewrite Hc. cbn.
  rewrite <- !app_assoc. cbn [app].
  destruct (ConnClose env _ conn); reflexivity.
Qed.

Lemma Stop_graceful_witness :
  snd (Stop Scenario3.env_graceful (Scenario.started Scenario3.env_graceful)) = Ok None.
Proof.
  rewrite (Stop_graceful Scenario3.env_graceful (Scenario.started Scenario3.env_graceful)
             9%nat 7%nat time.Second eq_refl eq_refl eq_refl eq_refl eq_refl).
  reflexivity.
Defined.

(** X11.  [Stop] never panics and never changes the client: the stream,
    the connection handle and the completion channel stay set as they were,
    so a second [Stop] goes through the same steps again.  All it does is
    close the send half, wait, and close the connection, in this order and
    each at most once. *)
Theorem Stop_keeps_the_client (env : Env) (s : State) :
  client (fst (Stop env s)) = client s /\
  chans (fst (Stop env s)) = chans s /\
  (exists r, snd (Stop env s) = Ok r) /\
  hist (fst (Stop env s)) = hist s ++ new_effects s (fst (Stop env s)) /\
  forallb stop_effect (new_effects s (fst (Stop env s))) = true /\
  (exists a b c,
      new_effects s (fst (Stop env s)) =
        filter (fun e => match e with E_CloseSend _ _ => true | _ => false end) a ++
        filter is_select b ++ filter is_conn_close c /\
      (List.length a <= 1)%nat /\ (List.length b <= 1)%nat /\ (List.length c <= 1)%nat).
Proof.
  unfold Stop. go_unfold.
  destruct (stream (client s)) as [st|]; cbn.
  2:{ rewrite new_effects_refl, app_nil_r. repeat split; eauto.
      exists [], [], []. cbn. auto. }
  destruct (StreamCloseSend env (hist s) st) as [e|] eqn:Hcs; cbn.
  { rewrite new_effects_app. repeat split; eauto.
    exists [E_CloseSend st (Some e)], [], []. cbn. auto. }
  destruct (select_race _ _ _) as [arm el]; cbn.
  destruct (clientConn (client s)) as [conn|]; cbn.
  - destruct (ConnClose env _ conn) as [e|] eqn:Hcc; cbn;
      rewrite <- !app_assoc; cbn [app]; rewrite new_effects_app;
      (repeat split; eauto;
       eexists [E_CloseSend st None], [E_Select arm el], [E_ConnClose conn _];
       cbn; auto).
  - rewrite <- !app_assoc; cbn [app]. rewrite new_effects_app.
    repeat split; eauto.
    exists [E_CloseSend st None], [E_Select arm el], []. cbn. auto.
Qed.

(** ** More on Start *)

Lemma interests_block_value (env : Env) (conn : Conn) (s1 : State) (a : nat) :
  adapter (client s1) = Some a ->
  (modifyClient (set_clientConn (Some conn)) ;;;
   ec <- getClient ;;
   match adapter ec with
   | None => panic nil_deref
   | Some _ => call (GetInterestedEvents env)
                    (fun r => E_GetInterestedEvents (fst r) (snd r))
   end) s1 =
  (mkState (set_clientConn (Some conn) (client s1)) (chans s1)
     (hist s1 ++ [E_GetInterestedEvents (fst (GetInterestedEvents env (hist s1)))
                                        (snd (GetInterestedEvents env (hist s1)))]),
   Ok (GetInterestedEvents env (hist s1))).
Proof.
  intros Ha. go_unfold. cbn. rewrite Ha. reflexivity.
Qed.

Lemma establish_no_interests (env : Env) (secured0 : bool) (s s1 : State)
    (conn : Conn) (a : nat) :
  newEventsClientConnectionWithAddress env (peerAddress (client s))
    (TLSCertificate (client s)) (TLSServerHostOverride (client s))
    (kap (client s)) (failFast (client s)) secured0 s = (s1, Ok (inr conn)) ->
  adapter (client s) = Some a ->
  GetInterestedEvents env (hist s1) = ([], None) ->
  establishConnectionAndRegister env secured0 s =
    (mkState (set_clientConn (Some conn) (client s)) (chans s)
       (hist s1 ++ [E_GetInterestedEvents [] None]),
     Ok (Some (New "interested events is required"))).
Proof.
  intros H1 Ha Hg.
  pose proof (connection_frame _ _ _ _ _ _ _ _ _ _ H1) as (l0 & (F1 & F2 & F3) & _).
  rewrite establishConnectionAndRegister_equation_1, H1.
  simp establishConnectionAndRegister.
  rewrite (interests_block_value env conn s1 a) by congruence.
  rewrite Hg. simp establishConnectionAndRegister.
  cbn [fst snd]. now rewrite F1, F2.
Qed.

(** X12.  When the dial succeeds and the adapter then reports no interest,
    [Start] on a client without stream returns "interested events is
    required" with the new connection stored in the client and no stream
    opened.  [Start] has not closed that connection, and a following [Stop]
    does not either: it finds no stream and returns nil at once, leaving
    the client as it is. *)
Theorem Start_without_interests_leaves_connection (env : Env) (s s1 : State)
    (conn : Conn) (a : nat) :
  stream (client s) = None ->
  newEventsClientConnectionWithAddress env (peerAddress (client s))
    (TLSCertificate (client s)) (TLSServerHostOverride (client s))
    (kap (client s)) (failFast (client s)) (secured (client s)) s = (s1, Ok (inr conn)) ->
  adapter (client s) = Some a ->
  GetInterestedEvents env (hist s1) = ([], None) ->
  snd (Start env s) = Ok (Some (New "interested events is required")) /\
  clientConn (client (fst (Start env s))) = Some conn /\
  stream (client (fst (Start env s))) = None /\
  existsb is_conn_close (new_effects s (fst (Start env s))) = false /\
  Stop env (fst (Start env s)) = (fst (Start env s), Ok None).
Proof.
  intros Hs H1 Ha Hg.
  pose proof (connection_frame _ _ _ _ _ _ _ _ _ _ H1) as (l0 & (F1 & F2 & F3) & T0 & _).
  unfold Start. rewrite (establish_no_interests env _ s s1 conn a H1 Ha Hg).
  cbn [fst snd client].
  split; [reflexivity|]. split; [reflexivity|]. split; [exact Hs|]. split.
  - erewrite new_effects_of by (cbn [hist]; rewrite F3, <- app_assoc; reflexivity).
    rewrite existsb_app. cbn.
    rewrite (existsb_disjoint transport_effect is_conn_close l0); auto. disjoint_kinds.
  - unfold Stop. go_unfold. cbn. now rewrite Hs.
Qed.

Lemma Start_without_interests_leaves_connection_witness :
  clientConn (client (fst (Start Scenario.env_no_interest
                             (Scenario.fresh Scenario.env_no_interest false))))
    = Some 7%nat /\
  Stop Scenario.env_no_interest
       (fst (Start Scenario.env_no_interest (Scenario.fresh Scenario.env_no_interest false)))
    = (fst (Start Scenario.env_no_interest (Scenario.fresh Scenario.env_no_interest false)),
       Ok None).
Proof.
  destruct (Start_without_interests_leaves_connection Scenario.env_no_interest
              (Scenario.fresh Scenario.env_no_interest false)
              (fst (newEventsClientConnectionWithAddress Scenario.env_no_interest
                      "grpcs://peer:7053" None "" Scenario.kap0 false true
                      (Scenario.fresh Scenario.env_no_interest false)))
              7%nat 0%nat eq_refl eq_refl eq_refl eq_refl)
    as (_ & A & _ & _ & B).
  split; [exact A|exact B].
Defined.

(** ** The connection *)

(** X13.  How the connection is dialed.  There is at most one dial.  In
    insecure mode the TLS configuration is never consulted; in secured mode
    a failing TLS configuration is returned without dialing.  The dial goes
    to [ToAddress] of the peer address, its result is what the function
    returns, and its options are: the connection timeout first, the
    fail-fast call option last, [WithInsecure] exactly in insecure mode,
    transport credentials exactly in secured mode, and the keepalive
    parameters exactly when their time is positive. *)
Theorem connection_dial_options (env : Env) (a : string) (cert : option Certificate)
    (host : string) (k : ClientParameters) (ff sec : bool) (s : State) :
  let out := newEventsClientConnectionWithAddress env a cert host k ff sec s in
  let evs := new_effects s (fst out) in
  (count is_dial evs <= 1)%nat /\
  (sec = false -> existsb is_tls_config evs = false) /\
  (forall e, In (E_TLSConfig (inl e)) evs ->
     snd out = Ok (inl e) /\ existsb is_dial evs = false) /\
  (forall addr opts r, In (E_DialContext addr opts r) evs ->
     addr = ToAddress env a /\ snd out = Ok r /\
     hd_error opts = Some (WithTimeout (TimeoutOrDefault_EventHubConnection env)) /\
     last opts WithInsecure = WithDefaultCallOptions_FailFast ff /\
     (In WithInsecure opts <-> sec = false) /\
     ((exists c, In (WithTransportCredentials c) opts) <-> sec = true) /\
     (forall k', In (WithKeepaliveParams k') opts <-> (k' = k /\ 0 < kapTime k))).
Proof.
  cbn zeta. unfold newEventsClientConnectionWithAddress. go_unfold.
  destruct sec; cbn.
  - destruct (TLSConfig env (hist s) cert host) as [e|t] eqn:Ht; cbn.
    + rewrite new_effects_app. cbn.
      split; [lia|]. split; [discriminate|]. split.
      * intros e' H. in_cases H. injection H as <-. auto.
      * intros addr opts r H. in_cases H.
    + destruct (Z.ltb_spec 0 (kapTime k)) as [Hk|Hk]; cbn;
        rewrite <- !app_assoc; cbn [app]; rewrite new_effects_app; cbn;
        (split; [lia|]); (split; [discriminate|]);
        (split; [intros e' H; in_cases H|]);
        intros addr opts r H; in_cases H; injection H as <- <- <-;
        (split; [reflexivity|]); (split; [reflexivity|]);
        (split; [reflexivity|]); (split; [reflexivity|]);
        (split; [split; [intros H; in_cases H|discriminate]|]);
        (split; [split; [reflexivity|intros _; exists t; cbn; auto]|]);
        intros k'; (split; [intros H; in_cases H; try (injection H as <-; auto)
                           |intros [-> Hpos]; cbn; auto; lia]).
  - destruct (Z.ltb_spec 0 (kapTime k)) as [Hk|Hk]; cbn;
      rewrite new_effects_app; cbn;
      (split; [lia|]); (split; [reflexivity|]);
      (split; [intros e' H; in_cases H|]);
      intros addr opts r H; in_cases H; injection H as <- <- <-;
      (split; [reflexivity|]); (split; [reflexivity|]);
      (split; [reflexivity|]); (split; [reflexivity|]);
      (split; [split; [reflexivity|intros _; cbn; auto]|]);
      (split; [split; [intros [c H]; in_cases H|discriminate]|]);
      intros k'; (split; [intros H; in_cases H; try (injection H as <-; auto)
                         |intros [-> Hpos]; cbn; auto; lia]).
Qed.

Lemma connection_dial_options_witness :
  snd (newEventsClientConnectionWithAddress Scenario.env_ok "peer" None ""
         (mkKap 5 0 false) true false (Scenario.fresh Scenario.env_ok false))
    = Ok (inr 7%nat).
Proof.
  exact (proj1 (proj2 (proj2 (proj2 (proj2
           (connection_dial_options Scenario.env_ok "peer" None "" (mkKap 5 0 false)
              true false (Scenario.fresh Scenario.env_ok false))))
           "peer"
           [WithTimeout (3 * time.Second); WithInsecure;
            WithKeepaliveParams (mkKap 5 0 false); WithDefaultCallOptions_FailFast true]
           (inr 7%nat) ltac:(vm_compute; auto)))).
Defined.

Lemma forallb_weaken (k k' : Effect -> bool) (l : list Effect) :
  (forall e, k e = true -> k' e = true) ->
  forallb k l = true -> forallb k' l = true.
Proof.
  intros W. induction l as [|e l IH]; cbn; [reflexivity|].
  intros H. apply andb_true_iff in H as [He Hl]. now rewrite (W e He), IH.
Qed.

Lemma transport_is_start l : forallb transport_effect l = true -> forallb start_effect l = true.
Proof. apply forallb_weaken. intros []; cbn; try discriminate; reflexivity. Qed.

Lemma handshake_is_start l : forallb handshake_effect l = true -> forallb start_effect l = true.
Proof. apply forallb_weaken. intros []; cbn; try discriminate; reflexivity. Qed.

Lemma connection_dials_once (env : Env) (a : string) (cert : option Certificate)
    (host : string) (k : ClientParameters) (ff sec : bool) (s s1 : State)
    (r : Res (error + Conn)) (l : list Effect) :
  newEventsClientConnectionWithAddress env a cert host k ff sec s = (s1, r) ->
  hist s1 = hist s ++ l -> (count is_dial l <= 1)%nat.
Proof.
  intros H Hl. apply new_effects_of in Hl. subst l.
  unfold newEventsClientConnectionWithAddress in H. go_unfold.
  destruct sec; cbn in H.
  - destruct (TLSConfig env (hist s) cert host) as [e|t]; cbn in H.
    + injection H as <- _. rewrite new_effects_app. cbn. lia.
    + destruct (0 <? kapTime k); cbn in H; injection H as <- _;
        rewrite <- app_assoc, new_effects_app; cbn; lia.
  - destruct (0 <? kapTime k); cbn in H; injection H as <- _;
      rewrite new_effects_app; cbn; lia.
Qed.

Lemma establish_closes_nothing (env : Env) (secured0 : bool) (s : State) :
  exists l,
    hist (fst (establishConnectionAndRegister env secured0 s)) = hist s ++ l /\
    forallb start_effect l = true /\
    (count is_dial l <= if secured0 then 2 else 1)%nat.
Proof.
  funelim (establishConnectionAndRegister env secured0 s); clear Heqcall;
    try match goal with
        | H : newEventsClientConnectionWithAddress _ _ _ _ _ _ _ _ = (_, _) |- _ =>
          pose proof (fun l => connection_dials_once _ _ _ _ _ _ _ _ _ _ l H) as Hdial
        end;
    start_prelude;
    try match goal with F : frame _ _ _ |- _ =>
          let F1 := fresh "F1" in let F2 := fresh "F2" in let F3 := fresh "F3" in
          destruct F as (F1 & F2 & F3); specialize (Hdial _ F3);
          pose proof (transport_is_start _ T0) as S0
        end;
    cbn [fst snd client chans hist emit] in *.
  - exists l0. split; [assumption|]. split; [assumption|]. destruct secured0; lia.
  - exists (l0 ++ [E_GetInterestedEvents l (Some err)]).
    split; [rewrite Hh, F3, <- app_assoc; reflexivity|].
    rewrite forallb_app, S0, count_app. cbn. split; [reflexivity|]. destruct secured0; lia.
  - exists (l0 ++ [E_GetInterestedEvents [] None]).
    split; [rewrite Hh, F3, <- app_assoc; reflexivity|].
    rewrite forallb_app, S0, count_app. cbn. split; [reflexivity|]. destruct secured0; lia.
  - exists l0. split; [rewrite Hh; assumption|]. split; [assumption|].
    destruct secured0; lia.
  - (* register *)
    match goal with Hc : Chat _ _ _ = inr _ |- _ => rewrite Hc end.
    unfold bind at 1.
    destruct (register env (ie :: ies') _) as [s3 r3] eqn:Hreg.
    apply register_frame in Hreg as (lr & (R1 & R2 & R3) & HR).
    cbn [client chans hist] in R1, R2, R3.
    pose proof (handshake_is_start _ HR) as SR.
    pose proof (handshake_no_dial _ HR) as DR.
    assert (CR : count is_dial lr = 0%nat).
    { unfold count. rewrite (forallb_disjoint handshake_effect is_dial lr); auto.
      disjoint_kinds. }
    assert (Hpre : hist s3 = hist s ++ l0 ++
              [E_GetInterestedEvents (ie :: ies') None; E_Chat conn (inr s7)] ++ lr).
    { rewrite R3, Hh, F3, <- !app_assoc. reflexivity. }
    destruct r3 as [[e|]|msg]; go_unfold.
    + eexists. split; [exact Hpre|].
      rewrite !forallb_app, S0, SR, !count_app, CR. cbn.
      split; [reflexivity|]. destruct secured0; lia.
    + exists (l0 ++ [E_GetInterestedEvents (ie :: ies') None; E_Chat conn (inr s7)] ++ lr
                 ++ [E_MakeChan (List.length (chans s3)); E_Go_processEvents]).
      split; [rewrite Hpre, <- !app_assoc; reflexivity|].
      rewrite !forallb_app, S0, SR, !count_app, CR. cbn.
      split; [reflexivity|]. destruct secured0; lia.
    + eexists. split; [exact Hpre|].
      rewrite !forallb_app, S0, SR, !count_app, CR. cbn.
      split; [reflexivity|]. destruct secured0; lia.
  - match goal with Hc : Ok _ = Panic _ |- _ => discriminate Hc end.
  - (* retry *)
    match goal with Hc : Chat _ _ _ = inl _ |- _ => rewrite Hc in * end.
    match goal with
    | IH : exists l, hist (fst (establishConnectionAndRegister env false ?s4)) = _ /\ _ |- _ =>
      destruct IH as (l' & Hl' & Sl' & Cl')
    end.
    cbn [hist] in Hl'.
    exists (l0 ++ [E_GetInterestedEvents (ie :: ies') None; E_Chat conn (inl err);
                   E_Log LError "events connection failed, cause: "; retry_log] ++ l').
    split; [rewrite Hl', Hh, F3, <- !app_assoc; reflexivity|].
    rewrite !forallb_app, S0, Sl', !count_app. cbn. split; [reflexivity|]. lia.
  - match goal with Hc : Chat _ _ _ = inl _ |- _ => rewrite Hc in * end.
    exists (l0 ++ [E_GetInterestedEvents (ie :: ies') None; E_Chat conn (inl err);
                   E_Log LError "events connection failed, cause: "]).
    split; [rewrite Hh, F3, <- !app_assoc; reflexivity|].
    rewrite !forallb_app, S0, !count_app. cbn. split; [reflexivity|]. lia.
  - match goal with Hc : Chat _ _ _ = inl _ |- _ => rewrite Hc in * end.
    eexists. split; [rewrite Hh, <- !app_assoc; cbn [app]; reflexivity|].
    cbn. split; [reflexivity|]. lia.
Qed.

(** X14.  [Start] closes nothing: whatever happens, and also when it
    retries, its effects contain no close of a stream, of a connection or
    of a channel, and no call of the adapter's [Recv] or [Disconnected].
    It dials at most twice, and only once when the client is not in secured
    mode.  So the connection of a first pass that failed to open the
    stream is still open when the retry has dialed a new one. *)
Theorem Start_closes_nothing (env : Env) (s : State) :
  hist (fst (Start env s)) = hist s ++ new_effects s (fst (Start env s)) /\
  forallb start_effect (new_effects s (fst (Start env s))) = true /\
  existsb is_conn_close (new_effects s (fst (Start env s))) = false /\
  existsb is_close_chan (new_effects s (fst (Start env s))) = false /\
  (count is_dial (new_effects s (fst (Start env s)))
     <= if secured (client s) then 2 else 1)%nat.
Proof.
  unfold Start.
  destruct (establish_closes_nothing env (secured (client s)) s) as (l & Hl & Sl & Cl).
  rewrite (new_effects_of _ _ _ Hl).
  split; [exact Hl|]. split; [exact Sl|].
  split; [apply (existsb_disjoint start_effect); auto; disjoint_kinds|].
  split; [apply (existsb_disjoint start_effect); auto; disjoint_kinds|exact Cl].
Qed.

(** ** Progress and termination of concurrent callers *)

Lemma next_of_critical (env : Env) (ec : eventsClient) (i : nat) (c : Config)
    (g : Goroutine) :
  in_critical (pc g) = true -> next env ec i c g <> None.
Proof.
  unfold next. destruct (pc g); try discriminate; intros _;
    try destruct (identity ec); try destruct (stream ec); discriminate.
Qed.

Lemma next_keeps_critical (env : Env) (ec : eventsClient) (i : nat) (c : Config)
    (g : Goroutine) (m : option nat) (p : SendPC) (es : list Effect) :
  next env ec i c g = Some (m, p, es) ->
  (m = Some i /\ in_critical p = true /\ pc g = AtLock /\ mutex c = None) \/
  (m = mutex c /\ in_critical p = true /\ in_critical (pc g) = true) \/
  (m = None /\ exists r, pc g = AtUnlock r /\ p = Returned r).
Proof.
  unfold next. destruct (pc g) eqn:Hpc.
  - destruct (mutex c); [discriminate|]. intros [= <- <- <-]. left. auto.
  - intros [= <- <- <-]. right; left.
    destruct (Marshal env (emsg g)); auto.
  - intros [= <- <- <-]. right; left.
    destruct (negb (SigningManager env (history c))); auto.
  - destruct (identity ec); intros [= <- <- <-]; right; left; auto.
    destruct (Sign env _ _ _); auto.
  - destruct (stream ec); intros [= <- <- <-]; right; left; auto.
  - intros [= <- <- <-]. right; right. split; [reflexivity|]. eauto.
  - discriminate.
Qed.

Lemma holder_invariant_step (env : Env) (ec : eventsClient) (c c' : Config) :
  lock_invariant c -> holder_invariant c -> step env ec c c' -> holder_invariant c'.
Proof.
  intros [_ Hcrit] Hhold [i Hstep]. unfold step_of in Hstep.
  destruct (nth_error (goroutines c) i) as [g|] eqn:Hg; [|discriminate].
  destruct (next env ec i c g) as [[[m p] es]|] eqn:Hnext; [|discriminate].
  injection Hstep as <-. unfold holder_invariant. cbn [mutex goroutines].
  intros j Hj.
  destruct (next_keeps_critical env ec i c g m p es Hnext)
    as [(-> & Hp & _)|[(-> & Hp & Hc)|(-> & _)]].
  - injection Hj as <-. exists (mkGo (emsg g) p).
    split; [eapply nth_error_set_nth_eq; eauto|exact Hp].
  - pose proof (Hcrit i g Hg Hc) as Hm. rewrite Hm in Hj. injection Hj as <-.
    exists (mkGo (emsg g) p). split; [eapply nth_error_set_nth_eq; eauto|exact Hp].
  - discriminate Hj.
Qed.

Lemma reachable_holder_invariant (env : Env) (ec : eventsClient) (msgs : list Event)
    (c : Config) :
  reachable env ec msgs c -> holder_invariant c.
Proof.
  induction 1 as [|c c' Hr IH Hstep].
  - intros i H. discriminate H.
  - eapply holder_invariant_step; eauto. eapply reachable_lock_invariant; eauto.
Qed.

(** X15.  Concurrent callers of [send] never deadlock: in every execution,
    as long as some caller has not returned, some caller can execute its
    next statement (the holder of the lock when it is taken, since [send]
    releases the lock on every path, panics included).  So an execution
    that cannot go on is one in which every caller has returned, and the
    lock is then free. *)
Theorem sends_never_deadlock (env : Env) (ec : eventsClient) (msgs : list Event)
    (c : Config) :
  reachable env ec msgs c ->
  (forall i g, nth_error (goroutines c) i = Some g -> has_returned g = false ->
     exists c', step env ec c c') /\
  ((forall c', ~ step env ec c c') ->
     forallb has_returned (goroutines c) = true /\ mutex c = None).
Proof.
  intros Hr.
  pose proof (reachable_lock_invariant env ec msgs c Hr) as [Hscan Hcrit].
  pose proof (reachable_holder_invariant env ec msgs c Hr) as Hhold.
  assert (Hprog : forall i g, nth_error (goroutines c) i = Some g ->
                    has_returned g = false -> exists c', step env ec c c').
  { intros i g Hg Hnr. destruct (mutex c) as [k|] eqn:Hm.
    - destruct (Hhold k Hm) as (gk & Hgk & Hck).
      pose proof (next_of_critical env ec k c gk Hck) as Hn.
      destruct (next env ec k c gk) as [[[m p] es]|] eqn:Hnext; [|now destruct Hn].
      eexists. apply step_intro with (i := k). unfold step_of.
      rewrite Hgk, Hnext. reflexivity.
    - assert (Hpc : pc g = AtLock).
      { destruct (in_critical (pc g)) eqn:Hc.
        - pose proof (Hcrit i g Hg Hc) as K. discriminate K.
        - unfold has_returned in Hnr. destruct (pc g); try discriminate; reflexivity. }
      eexists. apply step_intro with (i := i). unfold step_of, next.
      rewrite Hg, Hpc, Hm. reflexivity. }
  split; [exact Hprog|].
  intros Hstuck.
  assert (Hall : forallb has_returned (goroutines c) = true).
  { apply forallb_forall. intros g Hin.
    destruct (has_returned g) eqn:Hg; [reflexivity|].
    apply In_nth_error in Hin as [i Hi].
    destruct (Hprog i g Hi Hg) as [c' Hc']. now destruct (Hstuck c'). }
  split; [exact Hall|].
  destruct (mutex c) as [k|] eqn:Hm; [|reflexivity].
  destruct (Hhold k Hm) as (gk & Hgk & Hck).
  apply nth_error_In in Hgk.
  pose proof (proj1 (forallb_forall _ _) Hall gk Hgk) as K.
  unfold has_returned in K. destruct (pc gk); discriminate.
Qed.

Lemma sends_never_deadlock_witness :
  exists c', step Scenario.env_ok ConcurrentScenario.ec ConcurrentScenario.final c'.
Proof.
  refine (proj1 (sends_never_deadlock Scenario.env_ok ConcurrentScenario.ec
                   [ConcurrentScenario.m1; ConcurrentScenario.m2]
                   ConcurrentScenario.final _) 1%nat
            (mkGo ConcurrentScenario.m2 (AtStreamSend [2%nat] [3%nat])) eq_refl eq_refl).
  apply (run_reachable Scenario.env_ok ConcurrentScenario.ec
           [ConcurrentScenario.m1; ConcurrentScenario.m2]
           ConcurrentScenario.schedule
           (initial [ConcurrentScenario.m1; ConcurrentScenario.m2])).
  - apply reach_init.
  - reflexivity.
Defined.

Lemma total_set_nth (l : list Goroutine) (i : nat) (g g' : Goroutine) :
  nth_error l i = Some g ->
  (list_sum (map (fun x => remaining (pc x)) (set_nth i g' l)) + remaining (pc g)
   = list_sum (map (fun x => remaining (pc x)) l) + remaining (pc g'))%nat.
Proof.
  revert i. induction l as [|x l IH]; intros [|i];
    cbn [set_nth map list_sum fold_right nth_error]; try discriminate.
  - intros [= ->]. lia.
  - intros H. specialize (IH i H). unfold list_sum in IH. lia.
Qed.

Lemma next_decreases (env : Env) (ec : eventsClient) (i : nat) (c : Config)
    (g : Goroutine) (m : option nat) (p : SendPC) (es : list Effect) :
  next env ec i c g = Some (m, p, es) ->
  (remaining p < remaining (pc g))%nat /\ (List.length es <= 1)%nat.
Proof.
  unfold next. destruct (pc g).
  - destruct (mutex c); [discriminate|]. intros [= <- <- <-]. cbn. lia.
  - intros [= <- <- <-]. destruct (Marshal env (emsg g)); cbn; lia.
  - intros [= <- <- <-]. destruct (negb (SigningManager env (history c))); cbn; lia.
  - destruct (identity ec); intros [= <- <- <-]; cbn; try lia.
    destruct (Sign env _ _ _); cbn; lia.
  - destruct (stream ec); intros [= <- <- <-]; cbn; lia.
  - intros [= <- <- <-]. cbn. lia.
  - discriminate.
Qed.

Lemma step_of_decreases (env : Env) (ec : eventsClient) (i : nat) (c c' : Config) :
  step_of env ec i c = Some c' ->
  (total_remaining c' < total_remaining c)%nat /\
  (List.length (trace c') <= List.length (trace c) + 1)%nat /\
  List.length (goroutines c') = List.length (goroutines c).
Proof.
  unfold step_of. destruct (nth_error (goroutines c) i) as [g|] eqn:Hg; [|discriminate].
  destruct (next env ec i c g) as [[[m p] es]|] eqn:Hnext; [|discriminate].
  intros [= <-]. destruct (next_decreases env ec i c g m p es Hnext) as [Hd He].
  unfold total_remaining. cbn [goroutines trace].
  pose proof (total_set_nth (goroutines c) i g (mkGo (emsg g) p) Hg) as T. cbn [pc] in T.
  split; [lia|]. split; [rewrite length_app, length_map; lia|].
  clear. revert i. induction (goroutines c) as [|x l IH]; intros [|i]; cbn; auto.
Qed.

(** X16.  Every execution of [n] concurrent callers of [send] is finite:
    a caller executes at most six statements (lock, marshal, signing
    manager, sign, write, unlock), so no schedule runs for more than [6 n]
    steps, and the trace never holds more than [6 n] effects. *)
Theorem sends_terminate (env : Env) (ec : eventsClient) (msgs : list Event)
    (sched : list nat) (c : Config) :
  run env ec sched (initial msgs) = Some c ->
  (List.length sched + total_remaining c <= 6 * List.length msgs)%nat /\
  (List.length (trace c) <= List.length sched)%nat /\
  List.length (goroutines c) = List.length msgs.
Proof.
  assert (G : forall sched c0 c1, run env ec sched c0 = Some c1 ->
            (List.length sched + total_remaining c1 <= total_remaining c0)%nat /\
            (List.length (trace c1) <= List.length (trace c0) + List.length sched)%nat /\
            List.length (goroutines c1) = List.length (goroutines c0)).
  { clear. induction sched as [|i sched IH]; intros c0 c1; cbn [run].
    - intros [= <-]. cbn. lia.
    - destruct (step_of env ec i c0) as [c2|] eqn:Hs; [|discriminate].
      intros H. apply IH in H. apply step_of_decreases in Hs. cbn [List.length]. lia. }
  intros H. apply G in H.
  assert (T0 : total_remaining (initial msgs) = (6 * List.length msgs)%nat).
  { unfold total_remaining, initial. cbn [goroutines]. rewrite map_map.
    cbn [pc remaining]. clear.
    induction msgs as [|m l IH]; [reflexivity|].
    cbn [map list_sum fold_right List.length]. unfold list_sum in IH. rewrite IH. lia. }
  unfold initial in H at 2 3. cbn [trace goroutines List.length] in H.
  rewrite length_map in H. lia.
Qed.

Lemma sends_terminate_witness :
  (List.length ConcurrentScenario.schedule
   + total_remaining ConcurrentScenario.final <= 12)%nat.
Proof.
  exact (proj1 (sends_terminate Scenario.env_ok ConcurrentScenario.ec
                  [ConcurrentScenario.m1; ConcurrentScenario.m2]
                  ConcurrentScenario.schedule ConcurrentScenario.final eq_refl)).
Defined.

(** ** The statement-by-statement machine and send *)

Ltac one_step Hmap :=
  cbn [run]; unfold step_of at 1; cbn [goroutines nth_error];
  unfold next at 1; cbn [pc emsg mutex trace]; unfold history; cbn [trace];
  rewrite ?map_app, ?Hmap; cbn [map snd fst app set_nth].

(** X17.  The machine of concurrent callers agrees with the function
    [send]: a single caller, run on its own from [Lock] until it has
    returned, performs exactly the effects of [send], in the same order,
    returns what [send] returns (a panic included), and leaves the lock
    free. *)
Theorem lone_caller_runs_send (env : Env) (m : Event) (s : State)
    (tr : list (nat * Effect)) :
  map snd tr = hist s ->
  exists sched c',
    run env (client s) sched (mkConfig None [mkGo m AtLock] tr) = Some c' /\
    goroutines c' = [mkGo m (Returned (snd (send env m s)))] /\
    mutex c' = None /\
    map snd (trace c') = hist (fst (send env m s)) /\
    (List.length sched <= 6)%nat.
Proof.
  intros Hmap. unfold send. go_unfold.
  destruct (Marshal env m) as [e|payload] eqn:HM; cbn.
  { exists [0; 0; 0]%nat. eexists. split.
    - one_step Hmap. one_step Hmap. rewrite HM. one_step Hmap. reflexivity.
    - cbn. rewrite !map_app, Hmap. cbn. repeat split; lia. }
  destruct (SigningManager env _) eqn:HS; cbn.
  2:{ exists [0; 0; 0; 0]%nat. eexists. split.
      - one_step Hmap. one_step Hmap. rewrite HM. one_step Hmap. rewrite HS. cbn [negb].
        one_step Hmap. reflexivity.
      - cbn. rewrite !map_app, Hmap. cbn. repeat split; lia. }
  destruct (identity (client s)) as [u|] eqn:HI; cbn.
  2:{ exists [0; 0; 0; 0; 0]%nat. eexists. split.
      - one_step Hmap. one_step Hmap. rewrite HM. one_step Hmap. rewrite HS. cbn [negb].
        one_step Hmap. rewrite HI. one_step Hmap. reflexivity.
      - cbn. rewrite !map_app, Hmap. cbn. rewrite ?app_nil_r. repeat split; lia. }
  destruct (Sign env _ payload (PrivateKey u)) as [e|sg] eqn:HG; cbn.
  { exists [0; 0; 0; 0; 0]%nat. eexists. split.
    - one_step Hmap. one_step Hmap. rewrite HM. one_step Hmap. rewrite HS. cbn [negb].
      one_step Hmap. rewrite HI. cbv beta iota. rewrite HG. one_step Hmap. reflexivity.
    - cbn. rewrite !map_app, Hmap. cbn. repeat split; lia. }
  destruct (stream (client s)) as [st|] eqn:HT; cbn.
  2:{ exists [0; 0; 0; 0; 0; 0]%nat. eexists. split.
      - one_step Hmap. one_step Hmap. rewrite HM. one_step Hmap. rewrite HS. cbn [negb].
        one_step Hmap. rewrite HI. cbv beta iota. rewrite HG. one_step Hmap. rewrite HT.
        one_step Hmap. reflexivity.
      - cbn. rewrite !map_app, Hmap. cbn. rewrite ?app_nil_r. repeat split; lia. }
  exists [0; 0; 0; 0; 0; 0]%nat. eexists. split.
  - one_step Hmap. one_step Hmap. rewrite HM. one_step Hmap. rewrite HS. cbn [negb].
    one_step Hmap. rewrite HI. cbv beta iota. rewrite HG. one_step Hmap. rewrite HT.
    one_step Hmap. reflexivity.
  - cbn. rewrite !map_app, Hmap. cbn. repeat split; lia.
Qed.

Lemma lone_caller_runs_send_witness :
  exists sched c',
    run Scenario.env_ok ConcurrentScenario.ec sched
      (mkConfig None [mkGo ConcurrentScenario.m1 AtLock] []) = Some c' /\
    goroutines c' = [mkGo ConcurrentScenario.m1 (Returned (Ok None))].
Proof.
  destruct (lone_caller_runs_send Scenario.env_ok ConcurrentScenario.m1
              (Scenario.started Scenario.env_ok) [] eq_refl)
    as (sched & c' & Hrun & Hg & _).
  exists sched, c'. split; [exact Hrun|exact Hg].
Defined.

(** * The mock blocks *)

Lemma store_length {A} (i : nat) (v : A) (l l' : list A) :
  mocks.store i v l = Some l' -> List.length l' = List.length l /\ (i < List.length l)%nat.
Proof.
  revert i l'. induction l as [|x t IH]; intros i l' H; [discriminate|].
  destruct i as [|i]; cbn in H.
  - inversion H; subst. cbn. split; lia.
  - destruct (mocks.store i v t) as [t'|] eqn:E; [|discriminate].
    inversion H; subst. destruct (IH _ _ E). cbn. split; lia.
Qed.

Lemma store_total {A} (i : nat) (v : A) (l : list A) :
  (i < List.length l)%nat -> exists l', mocks.store i v l = Some l'.
Proof.
  revert i. induction l as [|x t IH]; intros i H; cbn in H; [lia|].
  destruct i as [|i]; cbn; [eauto|].
  destruct (IH i ltac:(lia)) as [t' E]. rewrite E. eauto.
Qed.

Lemma store_nth_same {A} (i : nat) (v : A) (l l' : list A) :
  mocks.store i v l = Some l' -> nth_error l' i = Some v.
Proof.
  revert i l'. induction l as [|x t IH]; intros i l' H; [discriminate|].
  destruct i as [|i]; cbn in H.
  - inversion H; reflexivity.
  - destruct (mocks.store i v t) as [t'|] eqn:E; [|discriminate].
    inversion H; subst. cbn. eauto.
Qed.

Lemma store_nth_other {A} (i j : nat) (v : A) (l l' : list A) :
  mocks.store i v l = Some l' -> j <> i -> nth_error l' j = nth_error l j.
Proof.
  revert i j l'. induction l as [|x t IH]; intros i j l' H Hne; [discriminate|].
  destruct i as [|i]; cbn in H.
  - inversion H; subst. destruct j; [congruence|reflexivity].
  - destruct (mocks.store i v t) as [t'|] eqn:E; [|discriminate].
    inversion H; subst. destruct j; cbn; [reflexivity|]. eapply IH; eauto.
Qed.

Lemma nth_error_repeat {A} (x : A) (n j : nat) :
  (j < n)%nat -> nth_error (repeat x n) j = Some x.
Proof.
  revert j. induction n as [|n IH]; intros j H; [lia|].
  destruct j; cbn; [reflexivity|]. apply IH. lia.
Qed.

Lemma newEnvelope_nil P ch e : mocks.newEnvelope P ch None <> mocks.Returns e.
Proof. cbn. discriminate. Qed.

Lemma NewBlock_loop_returns P ch txs :
  forall i data flags d f,
    mocks.NewBlock_loop P ch txs i data flags = mocks.Returns (d, f) ->
    List.length d = (List.length data + List.length txs)%nat /\
    List.length f = List.length flags /\
    (forall j, (j < i)%nat -> nth_error f j = nth_error flags j) /\
    (forall j, (j < List.length data)%nat -> nth_error d j = nth_error data j) /\
    (forall k t, nth_error txs k = Some t ->
       exists ti e bs,
         t = Some ti /\
         mocks.newEnvelope P ch t = mocks.Returns e /\
         mocks.marshalEnvelope P e = inr bs /\
         nth_error d (List.length data + k) = Some bs /\
         nth_error f (i + k) = Some (mocks.uint8 (mocks.TxValidationCode ti))).
Proof.
  induction txs as [|t rest IH]; intros i data flags d f H.
  - cbn in H. inversion H; subst. cbn. repeat split; try lia; auto.
    intros k t Hk. destruct k; discriminate.
  - cbn [mocks.NewBlock_loop] in H.
    destruct (mocks.newEnvelope P ch t) as [e|c] eqn:HE; [|discriminate].
    destruct (mocks.marshalEnvelope P e) as [err|envBytes] eqn:HM; [discriminate|].
    destruct t as [ti|]; [|discriminate].
    destruct (mocks.store i _ flags) as [flags'|] eqn:HS; [|discriminate].
    destruct (IH _ _ _ _ _ H) as (Hd & Hf & Hlow & Hdata & Hall).
    destruct (store_length _ _ _ _ HS) as [Hl Hi].
    rewrite length_app in Hd, Hdata, Hall. cbn [List.length] in *.
    split; [lia|]. split; [lia|].
    split.
    { intros j Hj. rewrite (Hlow j ltac:(lia)).
      eapply store_nth_other; eauto. lia. }
    split.
    { intros j Hj. rewrite (Hdata j ltac:(lia)).
      apply nth_error_app1. exact Hj. }
    intros k t Hk. destruct k as [|k]; cbn in Hk.
    + inversion Hk; subst. exists ti, e, envBytes.
      split; [reflexivity|]. split; [exact HE|]. split; [exact HM|].
      split.
      * rewrite Nat.add_0_r, (Hdata (List.length data) ltac:(lia)).
        rewrite nth_error_app2 by lia. rewrite Nat.sub_diag. reflexivity.
      * rewrite Nat.add_0_r, (Hlow i ltac:(lia)).
        eapply store_nth_same; eauto.
    + destruct (Hall k t Hk) as (ti' & e' & bs & -> & He' & Hm' & Hd' & Hf').
      exists ti', e', bs. repeat split; auto.
      * rewrite <- Hd'. f_equal. lia.
      * rewrite <- Hf'. f_equal. lia.
Qed.

Lemma NewBlock_loop_total P ch txs :
  forall i data flags,
    (i + List.length txs <= List.length flags)%nat ->
    Forall (fun t => exists e bs, mocks.newEnvelope P ch t = mocks.Returns e /\
                                  mocks.marshalEnvelope P e = inr bs) txs ->
    exists d f, mocks.NewBlock_loop P ch txs i data flags = mocks.Returns (d, f).
Proof.
  induction txs as [|t rest IH]; intros i data flags Hlen Hall.
  - cbn. eauto.
  - inversion Hall as [|? ? (e & bs & HE & HM) Hrest]; subst.
    cbn [mocks.NewBlock_loop List.length] in *. rewrite HE, HM.
    destruct t as [ti|]; [|exfalso; eapply newEnvelope_nil; eauto].
    destruct (store_total i (mocks.uint8 (mocks.TxValidationCode ti)) flags ltac:(lia))
      as [flags' HS].
    rewrite HS. apply IH; [|exact Hrest].
    destruct (store_length _ _ _ _ HS). lia.
Qed.

Lemma NewBlock_loop_runtime_panic P ch txs :
  forall i data flags,
    (i + List.length txs <= List.length flags)%nat ->
    mocks.NewBlock_loop P ch txs i data flags = mocks.Panics None ->
    In None txs.
Proof.
  induction txs as [|t rest IH]; intros i data flags Hlen H.
  - discriminate.
  - cbn [mocks.NewBlock_loop List.length] in *.
    destruct t as [ti|]; [|left; reflexivity]. right.
    destruct (mocks.newEnvelope P ch (Some ti)) as [e|c] eqn:HE.
    + destruct (mocks.marshalEnvelope P e) as [err|envBytes]; [discriminate|].
      destruct (store_total i (mocks.uint8 (mocks.TxValidationCode ti)) flags ltac:(lia))
        as [flags' HS].
      rewrite HS in H. eapply IH; [|exact H].
      destruct (store_length _ _ _ _ HS). lia.
    + exfalso. inversion H; subst. revert HE. cbn. unfold mocks.newTxAction.
      repeat match goal with
             | |- context [match ?x with inl _ => _ | inr _ => _ end] => destruct x
             end; cbn; discriminate.
Qed.

(** X18. A block that [NewBlock] returns has one data entry and one
    validation flag for each transaction, in the order of the
    transactions: the entry is the marshalled envelope of the
    transaction, the flag its validation code as a byte.  The metadata has
    four entries; the flags sit at the transactions filter index and the
    three other entries are nil. *)
Theorem NewBlock_shape (P : mocks.Proto) (TRANSACTIONS_FILTER : nat) (channelID : string)
    (transactions : list (option mocks.TxInfo)) (b : mocks.Block) :
  mocks.NewBlock P TRANSACTIONS_FILTER channelID transactions = mocks.Returns b ->
  (TRANSACTIONS_FILTER < 4)%nat /\
  List.length (mocks.Metadata b) = 4%nat /\
  List.length (mocks.Data b) = List.length transactions /\
  (forall j, (j < 4)%nat -> j <> TRANSACTIONS_FILTER ->
             nth_error (mocks.Metadata b) j = Some []) /\
  exists txValidationFlags,
    nth_error (mocks.Metadata b) TRANSACTIONS_FILTER = Some txValidationFlags /\
    List.length txValidationFlags = List.length transactions /\
    forall k t, nth_error transactions k = Some t ->
      exists ti e envBytes,
        t = Some ti /\
        mocks.newEnvelope P channelID t = mocks.Returns e /\
        mocks.marshalEnvelope P e = inr envBytes /\
        nth_error (mocks.Data b) k = Some envBytes /\
        nth_error txValidationFlags k = Some (mocks.uint8 (mocks.TxValidationCode ti)) /\
        (mocks.uint8 (mocks.TxValidationCode ti) < 256)%nat.
Proof.
  unfold mocks.NewBlock. intros H.
  destruct (mocks.NewBlock_loop _ _ _ _ _ _) as [[d f]|c] eqn:HL; [|discriminate].
  destruct (mocks.store TRANSACTIONS_FILTER f (repeat [] 4)) as [md|] eqn:HS; [|discriminate].
  inversion H; subst b; clear H. cbn [mocks.Metadata mocks.Data].
  destruct (store_length _ _ _ _ HS) as [Hl Hi]. rewrite repeat_length in Hl, Hi.
  destruct (NewBlock_loop_returns _ _ _ _ _ _ _ _ HL) as (Hd & Hf & _ & _ & Hall).
  rewrite repeat_length in Hf. cbn [List.length] in Hd.
  split; [exact Hi|]. split; [exact Hl|]. split; [exact Hd|].
  split.
  { intros j Hj Hne. rewrite (store_nth_other _ _ _ _ _ HS Hne).
    apply nth_error_repeat. exact Hj. }
  exists f. split; [eapply store_nth_same; eauto|]. split; [exact Hf|].
  intros k t Hk. destruct (Hall k t Hk) as (ti & e & bs & -> & HE & HM & Hdk & Hfk).
  exists ti, e, bs. repeat split; auto.
  unfold mocks.uint8.
  pose proof (Z.mod_pos_bound (mocks.TxValidationCode ti) 256 ltac:(lia)). lia.
Qed.

Lemma NewBlock_shape_witness :
  mocks.NewBlock mocks.proto_ok 2 "ch" [Some mocks.tx_valid; Some mocks.tx_invalid]
    = mocks.Returns (mocks.mkBlock [[]; []; [0; 2]%nat; []] [[8; 7]%nat; [8; 7]%nat]) /\
  (2 < 4)%nat /\
  List.length (mocks.Metadata (mocks.mkBlock [[]; []; [0; 2]%nat; []] [[8; 7]%nat; [8; 7]%nat]))
    = 4%nat.
Proof.
  split; [reflexivity|].
  destruct (NewBlock_shape mocks.proto_ok 2 "ch" [Some mocks.tx_valid; Some mocks.tx_invalid]
              _ eq_refl) as (H1 & H2 & _).
  split; [exact H1|exact H2].
Defined.

(** X19. [NewBlock] returns a block exactly when the transactions filter
    index is below four and every transaction yields an envelope that
    marshals; in every other case it panics. *)
Theorem NewBlock_returns_iff (P : mocks.Proto) (TRANSACTIONS_FILTER : nat)
    (channelID : string) (transactions : list (option mocks.TxInfo)) :
  (exists b, mocks.NewBlock P TRANSACTIONS_FILTER channelID transactions = mocks.Returns b)
  <->
  ((TRANSACTIONS_FILTER < 4)%nat /\
   Forall (fun t => exists e bs, mocks.newEnvelope P channelID t = mocks.Returns e /\
                                 mocks.marshalEnvelope P e = inr bs) transactions).
Proof.
  split.
  - intros [b H]. pose proof (NewBlock_shape _ _ _ _ _ H) as (Hi & _ & _ & _ & f & _ & _ & Hall).
    split; [exact Hi|]. apply Forall_forall. intros t Hin.
    destruct (In_nth_error _ _ Hin) as [k Hk].
    destruct (Hall k t Hk) as (ti & e & bs & _ & HE & HM & _). eauto.
  - intros [Hi Hall]. unfold mocks.NewBlock.
    destruct (NewBlock_loop_total P channelID transactions 0 []
                (repeat 0%nat (List.length transactions))
                ltac:(rewrite repeat_length; lia) Hall) as (d & f & HL).
    rewrite HL.
    destruct (mocks.store TRANSACTIONS_FILTER f _) as [md|] eqn:HS; [eauto|].
    exfalso.
    match type of HS with
    | mocks.store _ _ ?l = None =>
      destruct (store_total TRANSACTIONS_FILTER f l
                  ltac:(rewrite repeat_length; exact Hi)) as [md HS']
    end.
    congruence.
Qed.



(** X21. The run-time panics of [NewBlock] (a nil dereference or an index
    out of range) have two causes only: a nil transaction, or a
    transactions filter index of four or more.  In particular the store
    into the validation flags at the loop index is always in range. *)
Theorem NewBlock_runtime_panics (P : mocks.Proto) (TRANSACTIONS_FILTER : nat)
    (channelID : string) (transactions : list (option mocks.TxInfo)) :
  mocks.NewBlock P TRANSACTIONS_FILTER channelID transactions = mocks.Panics None ->
  In None transactions \/ (4 <= TRANSACTIONS_FILTER)%nat.
Proof.
  unfold mocks.NewBlock. intros H.
  destruct (mocks.NewBlock_loop _ _ _ _ _ _) as [[d f]|c] eqn:HL.
  - right. destruct (Nat.lt_ge_cases TRANSACTIONS_FILTER 4) as [Hlt|Hge]; [|exact Hge].
    destruct (mocks.store TRANSACTIONS_FILTER f _) as [md|] eqn:HS; [discriminate|].
    match type of HS with
    | mocks.store _ _ ?l = None =>
      destruct (store_total TRANSACTIONS_FILTER f l
                  ltac:(rewrite repeat_length; exact Hlt)) as [md HS']
    end.
    congruence.
  - left. inversion H; subst.
    eapply NewBlock_loop_runtime_panic; [|exact HL].
    rewrite repeat_length. lia.
Qed.

Lemma NewBlock_runtime_panics_witness :
  (In None [Some mocks.tx_valid; None] \/ (4 <= 2)%nat) /\
  (In None [Some mocks.tx_valid] \/ (4 <= 7)%nat).
Proof.
  split.
  - exact (NewBlock_runtime_panics mocks.proto_ok 2 "ch" [Some mocks.tx_valid; None] eq_refl).
  - exact (NewBlock_runtime_panics mocks.proto_ok 7 "ch" [Some mocks.tx_valid] eq_refl).
Defined.
